(** * fund-watcher: the fetch / aggregate pipeline of [main.go] and [src/Fund.go]

    A shallow embedding of the two Go files and of the library calls they
    make ([strings.Split], [strconv.ParseFloat], [sort.Slice], the encoder
    of [encoding/json]), followed by the properties of the aggregate report,
    of the resource that lists the funds and of the web handlers.

    Part I holds the definitions, Part II the lemmas and theorems. *)

From Stdlib Require Import ZArith Floats String Ascii Lia.
From stdpp Require Import base list sorting strings.

Local Open Scope Z_scope.

(* ================================================================= *)
(** * Part I: the embedding *)

(* ----------------------------------------------------------------- *)
(** ** [float64]

    Go's [float64] is IEEE 754 binary64, which is what Rocq's primitive
    [float] is; [+], [*], [/] round to nearest even and the comparisons
    are the IEEE ones (false as soon as one side is NaN). *)

Module f64.

Definition float64 := float.

(** Go's [a >= b], [a > b], [a == b], [a != b]. *)
Definition ge (a b : float64) : bool := PrimFloat.leb b a.
Definition gt (a b : float64) : bool := PrimFloat.ltb b a.
Definition eq (a b : float64) : bool := PrimFloat.eqb a b.
Definition ne (a b : float64) : bool := negb (PrimFloat.eqb a b).

(** [math.IsNaN] and [math.IsInf(f, 0)]. *)
Definition IsNaN (f : float64) : bool := PrimFloat.is_nan f.
Definition IsInf (f : float64) : bool := PrimFloat.is_infinity f.

(** The place of a value on the number line, as a triple compared
    lexicographically: the class (infinite, finite, zero, with the
    sign), then the exponent and the mantissa.  NaN has none.  The
    IEEE comparisons of [SpecFloat] compare these triples. *)
Definition key (f : spec_float) : option (Z * Z * Z) :=
  match f with
  | S754_nan => None
  | S754_infinity s => Some (if s then -2 else 2, 0, 0)
  | S754_zero _ => Some (0, 0, 0)
  | S754_finite s m e =>
      Some (if s then -1 else 1, if s then - e else e, if s then Zneg m else Zpos m)
  end.

Definition fkey (a : float64) : option (Z * Z * Z) := key (Prim2SF a).

Definition lex (a b : Z * Z * Z) : comparison :=
  let '(a1, a2, a3) := a in
  let '(b1, b2, b3) := b in
  match a1 ?= b1 with
  | Eq => match a2 ?= b2 with Eq => a3 ?= b3 | c => c end
  | c => c
  end.

Definition lex_lt (a b : Z * Z * Z) : Prop :=
  let '(a1, a2, a3) := a in
  let '(b1, b2, b3) := b in
  a1 < b1 \/ (a1 = b1 /\ (a2 < b2 \/ (a2 = b2 /\ a3 < b3))).

End f64.

Abbreviation float64 := f64.float64.

(* ----------------------------------------------------------------- *)
(** ** [strings.Split]

    Go strings are byte sequences, and so are Rocq's [string]s.  Both
    call sites split on a one-byte separator ("\n" and ","); for such a
    separator [strings.Split] returns the fields between the occurrences
    of the separator, and the one-element slice [[s]] when there is
    none (in particular [[""]] for the empty string). *)

Module strings.

Fixpoint Split (s : string) (sep : ascii) : list string :=
  match s with
  | EmptyString => [EmptyString]
  | String c s' =>
      if Ascii.eqb c sep then EmptyString :: Split s' sep
      else match Split s' sep with
           | f :: fs => String c f :: fs
           | [] => [String c EmptyString]
           end
  end.

End strings.

(* ----------------------------------------------------------------- *)
(** ** [strconv.ParseFloat(s, 64)]

    The model follows [strconv/atof.go]: [special] recognises the
    infinities and NaN, [readFloat] the decimal and hexadecimal literals
    (with [underscoreOK] for digit separators), and [ParseFloat] rejects
    trailing bytes.  [readFloat] keeps the first 19 digits of the
    mantissa and a truncation flag, which the conversion routines consult
    to return the binary64 nearest to the literal (ties to even); the
    model keeps the mantissa exact and rounds once, with the IEEE
    rounding of the Standard Library's [SpecFloat].

    The result is the pair Go returns: the value and the error
    ([None] for [nil]). *)

Module strconv.

Inductive NumError := ErrSyntax | ErrRange.

Definition byte (c : ascii) : Z := Z.of_N (N_of_ascii c).

(** [lower(c) = c | ('x' - 'X')] *)
Definition lower (c : ascii) : Z := Z.lor (byte c) 32.

Definition isDigit (c : ascii) : bool := (48 <=? byte c) && (byte c <=? 57).
Definition isHexLetter (c : ascii) : bool := (97 <=? lower c) && (lower c <=? 102).
Definition isSign (c : ascii) : bool := (byte c =? 43) || (byte c =? 45).

Fixpoint commonPrefixLenIgnoreCase (s prefix : list ascii) : Z :=
  match s, prefix with
  | c :: s', p :: prefix' =>
      let c' := if (65 <=? byte c) && (byte c <=? 90) then byte c + 32 else byte c in
      if c' =? byte p then 1 + commonPrefixLenIgnoreCase s' prefix' else 0
  | _, _ => 0
  end.

(** [special]: the value and the number of bytes read, for a prefix
    that spells inf, infinity (possibly signed) or nan. *)
Definition special (s : list ascii) : option (float64 * Z) :=
  let inf (neg : bool) (nsign : Z) (t : list ascii) :=
    let n := commonPrefixLenIgnoreCase t (list_ascii_of_string "infinity") in
    let n := if (3 <? n) && (n <? 8) then 3 else n in
    if (n =? 3) || (n =? 8)
    then Some (if neg then PrimFloat.neg_infinity else PrimFloat.infinity, nsign + n)
    else None in
  match s with
  | [] => None
  | c :: s' =>
      if isSign c then inf (byte c =? 45) 1 s'
      else if lower c =? 105 then inf false 0 s
      else if lower c =? 110 then
        if commonPrefixLenIgnoreCase s (list_ascii_of_string "nan") =? 3
        then Some (PrimFloat.nan, 3) else None
      else None
  end.

(** The digit loop of [readFloat]; the result is the loop's variables
    and the bytes not yet read. *)
Fixpoint readDigits (hex : bool) (mantissa nd dp : Z)
    (sawdot sawdigits underscores : bool) (s : list ascii)
    : Z * Z * Z * bool * bool * bool * list ascii :=
  match s with
  | [] => (mantissa, nd, dp, sawdot, sawdigits, underscores, [])
  | c :: s' =>
      if byte c =? 95 then
        readDigits hex mantissa nd dp sawdot sawdigits true s'
      else if byte c =? 46 then
        if sawdot then (mantissa, nd, dp, sawdot, sawdigits, underscores, s)
        else readDigits hex mantissa nd nd true sawdigits underscores s'
      else if isDigit c then
        if (byte c =? 48) && (nd =? 0)
        then readDigits hex mantissa nd (dp - 1) sawdot true underscores s'
        else readDigits hex (mantissa * (if hex then 16 else 10) + (byte c - 48))
               (nd + 1) dp sawdot true underscores s'
      else if hex && isHexLetter c then
        readDigits hex (mantissa * 16 + (lower c - 97 + 10))
          (nd + 1) dp sawdot true underscores s'
      else (mantissa, nd, dp, sawdot, sawdigits, underscores, s)
  end.

(** The exponent loop of [readFloat]. *)
Fixpoint readExp (e : Z) (underscores : bool) (s : list ascii)
    : Z * bool * list ascii :=
  match s with
  | [] => (e, underscores, [])
  | c :: s' =>
      if byte c =? 95 then readExp e true s'
      else if isDigit c then
        readExp (if e <? 10000 then e * 10 + (byte c - 48) else e) underscores s'
      else (e, underscores, s)
  end.

(** [underscoreOK]: [saw] is the kind of the last byte, with Go's
    codes ['^'], ['0'], ['_'] and ['!']. *)
Inductive sawKind := sawStart | sawDigit | sawUnderscore | sawOther.

Fixpoint underscoreLoop (hex : bool) (saw : sawKind) (s : list ascii) : bool :=
  match s with
  | [] => match saw with sawUnderscore => false | _ => true end
  | c :: s' =>
      if isDigit c || (hex && isHexLetter c) then underscoreLoop hex sawDigit s'
      else if byte c =? 95 then
        match saw with
        | sawDigit => underscoreLoop hex sawUnderscore s'
        | _ => false
        end
      else match saw with
           | sawUnderscore => false
           | _ => underscoreLoop hex sawOther s'
           end
  end.

Definition underscoreOK (s : list ascii) : bool :=
  let s := match s with
           | c :: s' => if isSign c then s' else s
           | [] => s
           end in
  match s with
  | a :: b :: s' =>
      if (byte a =? 48) && ((lower b =? 98) || (lower b =? 111) || (lower b =? 120))
      then underscoreLoop (lower b =? 120) sawDigit s'
      else underscoreLoop false sawStart s
  | _ => underscoreLoop false sawStart s
  end.

(** [readFloat]: sign, whether the literal is hexadecimal, mantissa,
    exponent (of ten, or of two for a hexadecimal literal) and the
    bytes left unread; [None] is Go's [ok = false]. *)
Definition readFloat (s : list ascii) : option (bool * bool * Z * Z * list ascii) :=
  match s with
  | [] => None
  | c0 :: _ =>
      let neg := byte c0 =? 45 in
      let s1 := if isSign c0 then drop 1 s else s in
      let hex := match s1 with
                 | a :: b :: _ :: _ => (byte a =? 48) && (lower b =? 120)
                 | _ => false
                 end in
      let s2 := if hex then drop 2 s1 else s1 in
      let '(mantissa, nd, dp, sawdot, sawdigits, underscores, s3) :=
        readDigits hex 0 0 0 false false false s2 in
      if negb sawdigits then None else
      let dp := if sawdot then dp else nd in
      let dp := if hex then dp * 4 else dp in
      let ndMant := if hex then nd * 4 else nd in
      let finish (dp : Z) (underscores : bool) (rest : list ascii) :=
        let exp := if mantissa =? 0 then 0 else dp - ndMant in
        if underscores && negb (underscoreOK (take (length s - length rest) s))
        then None
        else Some (neg, hex, mantissa, exp, rest) in
      match s3 with
      | c :: s4 =>
          if lower c =? (if hex then 112 else 101) then
            match s4 with
            | [] => None
            | c' :: s5 =>
                let esign := if byte c' =? 45 then -1 else 1 in
                let s6 := if isSign c' then s5 else s4 in
                match s6 with
                | d :: _ =>
                    if isDigit d then
                      let '(e, underscores', s7) := readExp 0 underscores s6 in
                      finish (dp + e * esign) underscores' s7
                    else None
                | [] => None
                end
            end
          else if hex then None else finish dp underscores s3
      | [] => if hex then None else finish dp underscores s3
      end
  end.

(** The binary64 nearest to [mantissa * 10^exp] and to
    [mantissa * 2^exp], ties to even, infinite past the largest finite
    value. *)
Definition roundDecimal (neg : bool) (mantissa exp : Z) : spec_float :=
  match mantissa with
  | Zpos m =>
      if 0 <=? exp
      then binary_normalize prec emax (cond_Zopp neg (mantissa * 10 ^ exp)) 0 false
      else SFdiv prec emax (S754_finite neg m 0)
             (S754_finite false (Z.to_pos (10 ^ (- exp))) 0)
  | _ => S754_zero neg
  end.

Definition roundHex (neg : bool) (mantissa exp : Z) : spec_float :=
  match mantissa with
  | Zpos m => binary_round prec emax neg m exp
  | _ => S754_zero neg
  end.

Definition overflowed (f : spec_float) : bool :=
  match f with S754_infinity _ => true | _ => false end.

Definition ParseFloat (str : string) : float64 * option NumError :=
  let s := list_ascii_of_string str in
  match special s with
  | Some (val, n) =>
      if n =? Z.of_nat (length s) then (val, None) else (PrimFloat.zero, Some ErrSyntax)
  | None =>
      match readFloat s with
      | None => (PrimFloat.zero, Some ErrSyntax)
      | Some (neg, hex, mantissa, exp, []) =>
          let f := if hex then roundHex neg mantissa exp
                   else roundDecimal neg mantissa exp in
          (SF2Prim f, if overflowed f then Some ErrRange else None)
      | Some (_, _, _, _, _ :: _) => (PrimFloat.zero, Some ErrSyntax)
      end
  end.

End strconv.

(* ----------------------------------------------------------------- *)
(** ** [sort.Slice]

    [sort.Slice(x, less)] calls [pdqsort_func(lessSwap{less, swap}, 0,
    length, limit)], which starts with

      if length <= maxInsertion { insertionSortLessFunc(data, a, b); return }

    (Go 1.19 and later).  The insertion sort is embedded as it is
    written, on the slice as a list with [Less] and [Swap] by index.  The
    closure passed by [NewFundResult] reads the slice being sorted, so
    [less] is given here as a function of the two elements at the
    indices.

    The partitioning code that [pdqsort_func] runs on longer slices is
    not embedded: it is the parameter [pdqsort_long], with the contract
    of the [sort] package: the slice is rearranged by swaps only, and it
    ends up sorted ([sort.SliceIsSorted]) when [less] orders the
    elements at distinct indices. *)

Module sort.

Definition maxInsertion : nat := 12.

Section Data.
Context {A : Type}.
Variable less : A -> A -> bool.

(** [data.Less(i, j)] and [data.Swap(i, j)]; the sort passes indices
    below the length only. *)
Definition Less (data : list A) (i j : nat) : bool :=
  match data !! i, data !! j with
  | Some x, Some y => less x y
  | _, _ => false
  end.

Definition Swap (data : list A) (i j : nat) : list A :=
  match data !! i, data !! j with
  | Some x, Some y => <[i := y]> (<[j := x]> data)
  | _, _ => data
  end.

(** [for j := i; j > a && data.Less(j, j-1); j-- { data.Swap(j, j-1) }] *)
Fixpoint insertionInner (a : nat) (data : list A) (j : nat) : list A :=
  match j with
  | O => data
  | S j' =>
      if (a <? j)%nat && Less data j j'
      then insertionInner a (Swap data j j') j'
      else data
  end.

(** [for i := a + 1; i < b; i++ { ... }] *)
Definition insertionSortLessFunc (data : list A) (a b : nat) : list A :=
  foldl (insertionInner a) data (seq (a + 1) (b - (a + 1))).

(** What the inner loop does to the element at [j], read on the
    prefix before it taken backwards: the element moves past the
    elements it is less than. *)
Fixpoint bubble (x : A) (r : list A) : list A :=
  match r with
  | [] => [x]
  | p :: r' => if less x p then p :: bubble x r' else x :: r
  end.

Definition isort (data : list A) : list A :=
  reverse (foldl (fun r x => bubble x r) [] data).

(** [sort.SliceIsSorted]: no [i > 0] with [less(i, i-1)]. *)
Fixpoint IsSorted (data : list A) : bool :=
  match data with
  | x :: (y :: _) as data' => negb (less y x) && IsSorted data'
  | _ => true
  end.

(** [less] orders the elements at distinct indices of [data]: of two
    of them exactly one is less than the other, transitively. *)
Definition Ordering (data : list A) : Prop :=
  (forall i j x y, i <> j -> data !! i = Some x -> data !! j = Some y ->
     less x y = negb (less y x)) /\
  (forall x y z, x ∈ data -> y ∈ data -> z ∈ data ->
     less x y = true -> less y z = true -> less x z = true).
End Data.

Class Pdqsort := {
  pdqsort_long : forall {A : Type}, (A -> A -> bool) -> list A -> list A;
  pdqsort_long_swaps : forall (A : Type) (less : A -> A -> bool) (data : list A),
    pdqsort_long less data ≡ₚ data;
  pdqsort_long_sorts : forall (A : Type) (less : A -> A -> bool) (data : list A),
    Ordering less data -> IsSorted less (pdqsort_long less data) = true
}.

Definition Slice `{Pdqsort} {A : Type} (x : list A) (less : A -> A -> bool) : list A :=
  if (length x <=? maxInsertion)%nat
  then insertionSortLessFunc less x 0 (length x)
  else pdqsort_long less x.

End sort.

(* ----------------------------------------------------------------- *)
(** ** The data model ([main.go] and [src/Fund.go] declare the same types) *)

Module FundId.
Record t := mk { Id : string; Weight : float64 }.
End FundId.
Abbreviation FundId := FundId.t.

Record Fund := {
  FCODE : string;
  SHORTNAME : string;
  GZTIME : string;
  GSZZL : string
}.

(** [FundItem] embeds [Fund]; the embedded field is [ItemFund] here. *)
Record FundItem := {
  ItemFund : Fund;
  Weight : float64
}.

Record FundResult := {
  Funds : list FundItem;
  Avg : float64
}.

(** A call either returns or panics ([runtime error: index out of range]). *)
Inductive outcome (A : Type) :=
  | Returns (a : A)
  | Panics.
Arguments Returns {A} a.
Arguments Panics {A}.

(* ----------------------------------------------------------------- *)
(** ** The Aggregator: [Zzl], [avg], [NewFundResult] *)

(** [func (p FundItem) Zzl() float64]: the error of [ParseFloat] is
    dropped. *)
Definition Zzl (p : FundItem) : float64 :=
  fst (strconv.ParseFloat (GSZZL (ItemFund p))).

(** [func (p FundResult) avg() float64], the same text in both files.
    The loop carries [total] and [totalWeight]; the product and the sum
    are rounded one after the other (the build targets amd64, where Go
    does not fuse them). *)
Definition avg_step (acc : float64 * float64) (fund : FundItem) : float64 * float64 :=
  let '(total, totalWeight) := acc in
  ((total + Zzl fund * Weight fund)%float, (totalWeight + Weight fund)%float).

Definition avg (p : FundResult) : float64 :=
  let '(total, totalWeight) := foldl avg_step (0%float, 0%float) (Funds p) in
  (total / totalWeight)%float.

(** The closure [func(i, j int) bool { return items[i].Weight >= items[j].Weight }]. *)
Definition byWeight (a b : FundItem) : bool := f64.ge (Weight a) (Weight b).

Module MainGo.

Definition NewFundResult `{sort.Pdqsort} (items : list FundItem) : FundResult :=
  let items := sort.Slice items byWeight in
  let fundResult := {| Funds := items; Avg := 0%float |} in
  {| Funds := items; Avg := avg fundResult |}.

End MainGo.

Module FundGo.

Definition NewFundResult (items : list FundItem) : FundResult :=
  let fundResult := {| Funds := items; Avg := 0%float |} in
  {| Funds := items; Avg := avg fundResult |}.

End FundGo.

(* ----------------------------------------------------------------- *)
(** ** ConfigSource: [LoadFundIds]

    The argument is what [os.ReadFile(home + "/.fund")] yields: the
    bytes of the file, or [None] when the read fails, in which case the
    dropped error leaves [bytes] nil and [s] empty. *)

Definition newline : ascii := ascii_of_nat 10.
Definition comma : ascii := ascii_of_nat 44.

(** The loop body after the split of the line: [i[1]] is read first, then
    [i[0]]; an index past the end of [i] panics. *)
Definition parseLine (v : string) : outcome FundId :=
  let i := strings.Split v comma in
  match i !! 1%nat with
  | None => Panics
  | Some i1 =>
      let weight := fst (strconv.ParseFloat i1) in
      match i !! 0%nat with
      | None => Panics
      | Some i0 => Returns (FundId.mk i0 weight)
      end
  end.

Module MainGo_Config.

(** [for _, v := range split { if v == "" { continue }; ... }] *)
Fixpoint LoadFundIds_loop (split : list string) (fundIds : list FundId)
    : outcome (list FundId) :=
  match split with
  | [] => Returns fundIds
  | v :: split' =>
      if String.eqb v "" then LoadFundIds_loop split' fundIds
      else match parseLine v with
           | Panics => Panics
           | Returns x => LoadFundIds_loop split' (fundIds ++ [x])
           end
  end.

Definition LoadFundIds (file : option string) : outcome (list FundId) :=
  let s := match file with Some bytes => bytes | None => EmptyString end in
  let split := strings.Split s newline in
  LoadFundIds_loop split [].

End MainGo_Config.

Module FundGo_Config.

(** [src/Fund.go]: the same loop without the test for the empty line. *)
Fixpoint LoadFundIds_loop (split : list string) (fundIds : list FundId)
    : outcome (list FundId) :=
  match split with
  | [] => Returns fundIds
  | v :: split' =>
      match parseLine v with
      | Panics => Panics
      | Returns x => LoadFundIds_loop split' (fundIds ++ [x])
      end
  end.

Definition LoadFundIds (file : option string) : outcome (list FundId) :=
  let s := match file with Some bytes => bytes | None => EmptyString end in
  let split := strings.Split s newline in
  LoadFundIds_loop split [].

End FundGo_Config.

(* ----------------------------------------------------------------- *)
(** ** QuoteClient and FanOutCoordinator

    [GetFund] talks to the quote provider, and a call comes to one of
    three things:

    - it returns the quote decoded from the body of the response;
    - the body does not decode, and [log.Fatal(e)] ends the process;
    - the transport fails: the dropped error of [http.DefaultClient.Do]
      leaves [resp] nil, and [resp.Body] panics (nil pointer
      dereference).  The deferred calls of the goroutine run, and then
      the runtime ends the process.

    The provider is the parameter [GetFund : string -> fetched], which
    says which of the three it is for an identifier. *)

Inductive fetched :=
  | Quote (fund : Fund)
  | LogFatal
  | NilResponse.

(** [item := FundItem{fund, weight}] for the quote of one request. *)
Definition fetchItem (GetFund : string -> fetched) (f : FundId) : option FundItem :=
  match GetFund (FundId.Id f) with
  | Quote fund => Some {| ItemFund := fund; Weight := FundId.Weight f |}
  | _ => None
  end.

Module FundGo_Run.
Section Run.
Variable GetFund : string -> fetched.

(** [src/Fund.go]: one fetch after the other, in the order of the
    requests, in the goroutine of the caller; [None] when a fetch does
    not return ([log.Fatal], or the panic at the nil response). *)
Fixpoint GetFundResult_loop (fundIds : list FundId) (fundItems : list FundItem)
    : option (list FundItem) :=
  match fundIds with
  | [] => Some fundItems
  | idAndWeight :: fundIds' =>
      match fetchItem GetFund idAndWeight with
      | None => None
      | Some item => GetFundResult_loop fundIds' (fundItems ++ [item])
      end
  end.

Definition GetFundResult (fundIds : list FundId) : option FundResult :=
  match GetFundResult_loop fundIds [] with
  | Some fundItems => Some (FundGo.NewFundResult fundItems)
  | None => None
  end.
End Run.
End FundGo_Run.

(** [main.go]: [GetFundResult] starts one goroutine per request and one
    collector, joined by two [sync.WaitGroup]s and an unbuffered channel.
    The goroutines are modelled by their program points, and the run by a
    step relation that interleaves them in any order.  A send on the
    unbuffered channel and the matching receive are one step.

    A worker whose call of [GetFund] panics runs its deferred
    [wg.Done()] without having sent; the runtime then ends the process,
    and until it does the other goroutines go on. *)
Module MainGo_Run.

(** [GetFundRoutine(id, weight, wg, ch)] *)
Inductive worker :=
  | WStart (f : FundId)        (* spawned; [fund := GetFund(id)] is next *)
  | WSend (item : FundItem)    (* blocked in [ch <- item] *)
  | WDeferred                  (* sent; the deferred [wg.Done()] is next *)
  | WExited
  | WPanicking (f : FundId)    (* [GetFund] panicked; the deferred [wg.Done()] is next *)
  | WCrashing (f : FundId).    (* the deferred call has run; the runtime ends the process next *)

(** [go func() { for fund := range fundChan {...}; consumerGroup.Done() }()] *)
Inductive consumer :=
  | CNotSpawned
  | CRange                     (* blocked in [range fundChan] *)
  | CAppend (fund : FundItem)  (* received; [items = append(items, fund)] is next *)
  | CLeaving                   (* the range ended; [consumerGroup.Done()] is next *)
  | CExited.

(** The body of [GetFundResult]. *)
Inductive mainpc :=
  | MSpawn (rest : list FundId) (* in the loop of [go GetFundRoutine(...)] *)
  | MWaitWorkers                (* [workerGroup.Wait()] *)
  | MClose                      (* [close(fundChan)] *)
  | MWaitConsumer               (* [consumerGroup.Wait()] *)
  | MReturned (r : FundResult).

Record state := {
  pc : mainpc;
  workers : list worker;
  cons : consumer;
  closed : bool;               (* [fundChan] was closed *)
  items : list FundItem;
  workerGroup : nat;
  consumerGroup : nat
}.

(** A run goes on, or the process has exited ([log.Fatal]), or a
    panic has ended it (the nil response in [GetFund], a send on a
    closed channel, a negative WaitGroup counter). *)
Inductive config :=
  | Running (s : state)
  | Exited
  | Panicked.

Definition init (fundIds : list FundId) : state :=
  {| pc := MSpawn fundIds; workers := []; cons := CNotSpawned; closed := false;
     items := []; workerGroup := length fundIds; consumerGroup := 1 |}.

Definition set_pc (s : state) (p : mainpc) : state :=
  {| pc := p; workers := workers s; cons := cons s; closed := closed s;
     items := items s; workerGroup := workerGroup s; consumerGroup := consumerGroup s |}.
Definition set_worker (s : state) (i : nat) (w : worker) : state :=
  {| pc := pc s; workers := <[i := w]> (workers s); cons := cons s; closed := closed s;
     items := items s; workerGroup := workerGroup s; consumerGroup := consumerGroup s |}.
Definition set_cons (s : state) (c : consumer) : state :=
  {| pc := pc s; workers := workers s; cons := c; closed := closed s;
     items := items s; workerGroup := workerGroup s; consumerGroup := consumerGroup s |}.

Section Run.
Context `{sort.Pdqsort}.
Variable GetFund : string -> fetched.

Inductive step : state -> config -> Prop :=
  (* main: [go GetFundRoutine(idAndWeight.Id, idAndWeight.Weight, ...)] *)
  | step_spawn s f rest :
      pc s = MSpawn (f :: rest) ->
      step s (Running {| pc := MSpawn rest; workers := workers s ++ [WStart f];
                         cons := cons s; closed := closed s; items := items s;
                         workerGroup := workerGroup s;
                         consumerGroup := consumerGroup s |})
  (* main: [go func() {...}()], then on to [workerGroup.Wait()] *)
  | step_spawn_consumer s :
      pc s = MSpawn [] -> cons s = CNotSpawned ->
      step s (Running (set_pc (set_cons s CRange) MWaitWorkers))
  (* worker: [fund := GetFund(id); item := FundItem{fund, weight}] *)
  | step_fetch s i f item :
      workers s !! i = Some (WStart f) -> fetchItem GetFund f = Some item ->
      step s (Running (set_worker s i (WSend item)))
  (* worker: [log.Fatal(e)] in [GetFund] *)
  | step_fetch_fatal s i f :
      workers s !! i = Some (WStart f) -> GetFund (FundId.Id f) = LogFatal ->
      step s Exited
  (* worker: [resp.Body] on the nil response panics in [GetFund] *)
  | step_fetch_panic s i f :
      workers s !! i = Some (WStart f) -> GetFund (FundId.Id f) = NilResponse ->
      step s (Running (set_worker s i (WPanicking f)))
  (* worker [ch <- item] meets collector [fund := range fundChan] *)
  | step_send s i item :
      workers s !! i = Some (WSend item) -> cons s = CRange -> closed s = false ->
      step s (Running (set_cons (set_worker s i WDeferred) (CAppend item)))
  | step_send_closed s i item :
      workers s !! i = Some (WSend item) -> closed s = true ->
      step s Panicked
  (* collector: [items = append(items, fund)] *)
  | step_append s fund :
      cons s = CAppend fund ->
      step s (Running {| pc := pc s; workers := workers s; cons := CRange;
                         closed := closed s; items := items s ++ [fund];
                         workerGroup := workerGroup s;
                         consumerGroup := consumerGroup s |})
  (* worker: deferred [wg.Done()] *)
  | step_worker_done s i n :
      workers s !! i = Some WDeferred -> workerGroup s = S n ->
      step s (Running {| pc := pc s; workers := <[i := WExited]> (workers s);
                         cons := cons s; closed := closed s; items := items s;
                         workerGroup := n; consumerGroup := consumerGroup s |})
  | step_worker_done_negative s i :
      workers s !! i = Some WDeferred -> workerGroup s = O ->
      step s Panicked
  (* worker: the deferred [wg.Done()] of a panicking goroutine *)
  | step_panic_done s i f n :
      workers s !! i = Some (WPanicking f) -> workerGroup s = S n ->
      step s (Running {| pc := pc s; workers := <[i := WCrashing f]> (workers s);
                         cons := cons s; closed := closed s; items := items s;
                         workerGroup := n; consumerGroup := consumerGroup s |})
  | step_panic_done_negative s i f :
      workers s !! i = Some (WPanicking f) -> workerGroup s = O ->
      step s Panicked
  (* the runtime: the panic has reached the top of the goroutine, the
     process ends *)
  | step_crash s i f :
      workers s !! i = Some (WCrashing f) ->
      step s Panicked
  (* main: [workerGroup.Wait()] returns when the counter is zero *)
  | step_wait_workers s :
      pc s = MWaitWorkers -> workerGroup s = O ->
      step s (Running (set_pc s MClose))
  (* main: [close(fundChan)] *)
  | step_close s :
      pc s = MClose ->
      step s (Running {| pc := MWaitConsumer; workers := workers s; cons := cons s;
                         closed := true; items := items s;
                         workerGroup := workerGroup s;
                         consumerGroup := consumerGroup s |})
  (* collector: the range over a closed channel ends *)
  | step_range_end s :
      cons s = CRange -> closed s = true ->
      step s (Running (set_cons s CLeaving))
  (* collector: [consumerGroup.Done()] *)
  | step_consumer_done s n :
      cons s = CLeaving -> consumerGroup s = S n ->
      step s (Running {| pc := pc s; workers := workers s; cons := CExited;
                         closed := closed s; items := items s;
                         workerGroup := workerGroup s; consumerGroup := n |})
  | step_consumer_done_negative s :
      cons s = CLeaving -> consumerGroup s = O ->
      step s Panicked
  (* main: [consumerGroup.Wait()] returns; [return NewFundResult(items)] *)
  | step_return s :
      pc s = MWaitConsumer -> consumerGroup s = O ->
      step s (Running (set_pc s (MReturned (MainGo.NewFundResult (items s))))).

(** The steps as a function of a scheduler's choice: which goroutine
    moves, and for a worker which one. *)
Inductive action :=
  | ASpawn | ASpawnConsumer
  | AFetch (i : nat) | ASend (i : nat) | AWorkerDone (i : nat) | ACrash (i : nat)
  | AAppend | ARangeEnd | AConsumerDone
  | AWaitWorkers | AClose | AReturn.

Definition act (a : action) (s : state) : option config :=
  match a with
  | ASpawn =>
      match pc s with
      | MSpawn (f :: rest) =>
          Some (Running {| pc := MSpawn rest; workers := workers s ++ [WStart f];
                           cons := cons s; closed := closed s; items := items s;
                           workerGroup := workerGroup s;
                           consumerGroup := consumerGroup s |})
      | _ => None
      end
  | ASpawnConsumer =>
      match pc s, cons s with
      | MSpawn [], CNotSpawned => Some (Running (set_pc (set_cons s CRange) MWaitWorkers))
      | _, _ => None
      end
  | AFetch i =>
      match workers s !! i with
      | Some (WStart f) =>
          match GetFund (FundId.Id f) with
          | Quote fund =>
              Some (Running (set_worker s i
                      (WSend {| ItemFund := fund; Weight := FundId.Weight f |})))
          | LogFatal => Some Exited
          | NilResponse => Some (Running (set_worker s i (WPanicking f)))
          end
      | _ => None
      end
  | ASend i =>
      match workers s !! i with
      | Some (WSend item) =>
          if closed s then Some Panicked
          else match cons s with
               | CRange => Some (Running (set_cons (set_worker s i WDeferred) (CAppend item)))
               | _ => None
               end
      | _ => None
      end
  | AWorkerDone i =>
      match workers s !! i with
      | Some WDeferred =>
          match workerGroup s with
          | S n =>
              Some (Running {| pc := pc s; workers := <[i := WExited]> (workers s);
                               cons := cons s; closed := closed s; items := items s;
                               workerGroup := n; consumerGroup := consumerGroup s |})
          | O => Some Panicked
          end
      | Some (WPanicking f) =>
          match workerGroup s with
          | S n =>
              Some (Running {| pc := pc s; workers := <[i := WCrashing f]> (workers s);
                               cons := cons s; closed := closed s; items := items s;
                               workerGroup := n; consumerGroup := consumerGroup s |})
          | O => Some Panicked
          end
      | _ => None
      end
  | ACrash i =>
      match workers s !! i with
      | Some (WCrashing f) => Some Panicked
      | _ => None
      end
  | AAppend =>
      match cons s with
      | CAppend fund =>
          Some (Running {| pc := pc s; workers := workers s; cons := CRange;
                           closed := closed s; items := items s ++ [fund];
                           workerGroup := workerGroup s;
                           consumerGroup := consumerGroup s |})
      | _ => None
      end
  | ARangeEnd =>
      match cons s with
      | CRange => if closed s then Some (Running (set_cons s CLeaving)) else None
      | _ => None
      end
  | AConsumerDone =>
      match cons s with
      | CLeaving =>
          match consumerGroup s with
          | S n =>
              Some (Running {| pc := pc s; workers := workers s; cons := CExited;
                               closed := closed s; items := items s;
                               workerGroup := workerGroup s; consumerGroup := n |})
          | O => Some Panicked
          end
      | _ => None
      end
  | AWaitWorkers =>
      match pc s, workerGroup s with
      | MWaitWorkers, O => Some (Running (set_pc s MClose))
      | _, _ => None
      end
  | AClose =>
      match pc s with
      | MClose =>
          Some (Running {| pc := MWaitConsumer; workers := workers s; cons := cons s;
                           closed := true; items := items s;
                           workerGroup := workerGroup s;
                           consumerGroup := consumerGroup s |})
      | _ => None
      end
  | AReturn =>
      match pc s, consumerGroup s with
      | MWaitConsumer, O =>
          Some (Running (set_pc s (MReturned (MainGo.NewFundResult (items s)))))
      | _, _ => None
      end
  end.

(** A schedule: the choices of the scheduler, one after the other. *)
Fixpoint exec (schedule : list action) (c : config) : option config :=
  match schedule, c with
  | [], _ => Some c
  | a :: schedule', Running s =>
      match act a s with
      | Some c' => exec schedule' c'
      | None => None
      end
  | _ :: _, _ => None
  end.

(** The report of a configuration in which [GetFundResult] has
    returned. *)
Definition report (c : config) : option FundResult :=
  match c with
  | Running s => match pc s with MReturned r => Some r | _ => None end
  | _ => None
  end.

(** Runs: any number of steps, in any interleaving. *)
Inductive steps : config -> config -> Prop :=
  | steps_refl c : steps c c
  | steps_step s c c' : step s c -> steps c c' -> steps (Running s) c'.

(** [GetFundResult(fundIds)] can return [r]. *)
Definition GetFundResult_returns (fundIds : list FundId) (r : FundResult) : Prop :=
  exists s, steps (Running (init fundIds)) (Running s) /\ pc s = MReturned r.

(** The number of steps a state still allows, at most. *)
Definition worker_rank (w : worker) : nat :=
  match w with
  | WStart _ => 4 | WSend _ => 3 | WDeferred => 1 | WExited => 0
  | WPanicking _ => 2 | WCrashing _ => 1
  end.
Definition consumer_rank (c : consumer) : nat :=
  match c with CNotSpawned => 2 | CRange => 2 | CAppend _ => 3 | CLeaving => 1 | CExited => 0 end.
Definition pc_rank (p : mainpc) : nat :=
  match p with
  | MSpawn rest => 4 + 5 * length rest
  | MWaitWorkers => 3 | MClose => 2 | MWaitConsumer => 1 | MReturned _ => 0
  end.
Definition rank (s : state) : nat :=
  pc_rank (pc s) + sum_list_with worker_rank (workers s) + consumer_rank (cons s).
Definition config_rank (c : config) : nat :=
  match c with Running s => rank s | _ => 0 end.

(** What a state holds of the requests: the items handed over so far
    (appended, received by the collector, or held by a worker blocked in
    its send), the requests not fetched yet, and the requests lost with
    a worker that panicked. *)
Definition worker_item (w : worker) : list FundItem :=
  match w with WSend item => [item] | _ => [] end.
Definition worker_request (w : worker) : list FundId :=
  match w with WStart f => [f] | _ => [] end.
Definition worker_lost (w : worker) : list FundId :=
  match w with WPanicking f | WCrashing f => [f] | _ => [] end.
Definition consumer_item (c : consumer) : list FundItem :=
  match c with CAppend fund => [fund] | _ => [] end.
Definition pc_rest (p : mainpc) : list FundId :=
  match p with MSpawn rest => rest | _ => [] end.

Definition delivered (s : state) : list FundItem :=
  items s ++ consumer_item (cons s) ++ (workers s ≫= worker_item).
Definition outstanding (s : state) : list FundId :=
  (workers s ≫= worker_request) ++ pc_rest (pc s).
Definition lost (s : state) : list FundId :=
  workers s ≫= worker_lost.

(** The goroutines that have not called [wg.Done()] yet. *)
Definition alive (w : worker) : nat :=
  match w with WExited | WCrashing _ => 0 | _ => 1 end.

Definition spawning (p : mainpc) : bool :=
  match p with MSpawn _ => true | _ => false end.
Definition joined (p : mainpc) : bool :=
  match p with MClose | MWaitConsumer | MReturned _ => true | _ => false end.
Definition after_close (p : mainpc) : bool :=
  match p with MWaitConsumer | MReturned _ => true | _ => false end.
Definition not_spawned (c : consumer) : bool :=
  match c with CNotSpawned => true | _ => false end.
Definition leaving (c : consumer) : bool :=
  match c with CLeaving | CExited => true | _ => false end.

(** The invariant of the run of [GetFundResult(fundIds)]. *)
Record invariant (fundIds : list FundId) (s : state) : Prop := {
  inv_items :
    (Some <$> delivered s) ++ (fetchItem GetFund <$> (outstanding s ++ lost s))
      ≡ₚ fetchItem GetFund <$> fundIds;
  inv_requests : Forall (fun f => f ∈ fundIds) (outstanding s ++ lost s);
  inv_lost : Forall (fun f => GetFund (FundId.Id f) = NilResponse) (lost s);
  inv_fatal : forall f, f ∈ fundIds -> GetFund (FundId.Id f) = LogFatal ->
    f ∈ outstanding s;
  inv_workerGroup :
    workerGroup s = (sum_list_with alive (workers s) + length (pc_rest (pc s)))%nat;
  inv_consumerGroup :
    consumerGroup s = match cons s with CExited => O | _ => 1%nat end;
  inv_spawning : not_spawned (cons s) = spawning (pc s);
  inv_joined : joined (pc s) = true -> workerGroup s = O;
  inv_closed : closed s = after_close (pc s);
  inv_leaving : leaving (cons s) = true -> closed s = true;
  inv_returned : forall r, pc s = MReturned r ->
    r = MainGo.NewFundResult (items s) /\ cons s = CExited
}.

End Run.
End MainGo_Run.

(* ----------------------------------------------------------------- *)
(** ** The specification's vocabulary *)

Module Spec.

(** A string is numeric when [ParseFloat] reads it as a number, in
    range or not. *)
Definition numeric (s : string) : bool :=
  match snd (strconv.ParseFloat s) with
  | Some strconv.ErrSyntax => false
  | _ => true
  end.

(** [parse_float(s, default)] *)
Definition parse_float (s : string) (default : float64) : float64 :=
  if numeric s then fst (strconv.ParseFloat s) else default.

(** [sum], from left to right. *)
Definition sum (l : list float64) : float64 := foldl PrimFloat.add 0%float l.

(** [sum(parse_float(item.changePercent, default=0) * item.weight) / sum(item.weight)] *)
Definition weighted_mean (items : list FundItem) : float64 :=
  (sum ((fun item => parse_float (GSZZL (ItemFund item)) 0 * Weight item) <$> items)
   / sum (Weight <$> items))%float.

(** The weights are numbers, and pairwise distinct. *)
Definition numberWeights (items : list FundItem) : Prop :=
  Forall (fun item => f64.IsNaN (Weight item) = false) items.

Definition distinctWeights (items : list FundItem) : Prop :=
  forall i j a b, i <> j -> items !! i = Some a -> items !! j = Some b ->
    f64.ne (Weight a) (Weight b) = true.

(** Descending order of weight. *)
Definition descending (items : list FundItem) : Prop :=
  StronglySorted (fun a b => f64.gt (Weight a) (Weight b) = true) items.

Definition nonIncreasing (items : list FundItem) : Prop :=
  StronglySorted (fun a b => f64.ge (Weight a) (Weight b) = true) items.

(** Ascending order of weight, ties allowed: the order of a sorted
    prefix taken backwards. *)
Definition ascending (r : list FundItem) : Prop :=
  StronglySorted (fun p q => f64.ge (Weight q) (Weight p) = true) r.

(** The bytes that the literals of [ParseFloat] are made of: digits,
    signs, the point, the digit separator and the ASCII letters. *)
Definition literalByte (c : ascii) : bool :=
  strconv.isDigit c || strconv.isSign c ||
  (strconv.byte c =? 46) || (strconv.byte c =? 95) ||
  ((97 <=? strconv.lower c) && (strconv.lower c <=? 122)).

(** The items of weight [w], in the order of the sequence. *)
Definition ofWeight (w : float64) (items : list FundItem) : list FundItem :=
  filter (fun item => f64.eq (Weight item) w = true) items.

End Spec.

(* ----------------------------------------------------------------- *)
(** ** Sample data *)

(** A quote with the given code, change percentage and weight. *)
Definition sample (code : string) (changePercent : string) (weight : float64) : FundItem :=
  {| ItemFund := {| FCODE := code; SHORTNAME := ""; GZTIME := ""; GSZZL := changePercent |};
     Weight := weight |}.

(** Weights 1, 3, 2. *)
Definition items_distinct : list FundItem :=
  [sample "a" "1.0" 1%float; sample "b" "2.0" 3%float; sample "c" "0.5" 2%float].

(** Weights 1, NaN, 2, as [LoadFundIds] reads them from the lines
    "a,1", "b,NaN" and "c,2". *)
Definition items_nan : list FundItem :=
  [sample "a" "1.0" 1%float; sample "b" "2.0" nan; sample "c" "0.5" 2%float].

(** Two items of weight 1. *)
Definition items_tie : list FundItem :=
  [sample "a" "1.0" 1%float; sample "b" "3.0" 1%float].

(** Three items of weight 1 whose change percentages do not add up to
    the same float64 in every order, and the same items in the reverse
    order. *)
Definition items_round : list FundItem :=
  [sample "a" "0.1" 1%float; sample "b" "0.2" 1%float; sample "c" "0.3" 1%float].
Definition items_round' : list FundItem :=
  [sample "c" "0.3" 1%float; sample "b" "0.2" 1%float; sample "a" "0.1" 1%float].

(** A provider that has a quote for every identifier, and two
    requests, lighter first and heavier first. *)
Definition provider (id : string) : fetched :=
  Quote {| FCODE := id; SHORTNAME := ""; GZTIME := ""; GSZZL := "1.0" |}.
Definition requests_ascending : list FundId :=
  [FundId.mk "a" 1%float; FundId.mk "b" 2%float].
Definition requests_descending : list FundId :=
  [FundId.mk "b" 2%float; FundId.mk "a" 1%float].

(** Two schedules for two requests: the first worker delivers first, and
    the second worker delivers first. *)
Module Schedules.
Import MainGo_Run.

Definition in_order : list action :=
  [ASpawn; ASpawn; ASpawnConsumer;
   AFetch 0; ASend 0; AAppend; AWorkerDone 0;
   AFetch 1; ASend 1; AAppend; AWorkerDone 1;
   AWaitWorkers; AClose; ARangeEnd; AConsumerDone; AReturn].

Definition out_of_order : list action :=
  [ASpawn; AFetch 0; ASpawn; AFetch 1; ASpawnConsumer;
   ASend 1; AWorkerDone 1; AAppend; ASend 0; AAppend; AWorkerDone 0;
   AWaitWorkers; AClose; ARangeEnd; AConsumerDone; AReturn].

End Schedules.

(* ----------------------------------------------------------------- *)
(** ** [encoding/json] on a [FundResult]

    [json.Marshal] walks the value by reflection; for a [FundResult] it
    writes an object with the members [Funds] and [Avg], and for each
    [FundItem] an object with the fields of the embedded [Fund] followed
    by [Weight].  The two leaf encoders are parameters: the JSON string
    literal of a Go string and the JSON number of a finite [float64].
    What the model keeps of [floatEncoder] is its test

      if math.IsInf(f, 0) || math.IsNaN(f) { e.error(&UnsupportedValueError{...}) }

    which makes the whole call fail; [None] is that error. *)

Module json.
Section Encoder.
Variable stringEncoder : string -> string.
Variable floatBytes : float64 -> string.

Definition floatEncoder (f : float64) : option string :=
  if f64.IsInf f || f64.IsNaN f then None else Some (floatBytes f).

(** The name of a member, quoted, and the colon. *)
Definition quote : string := String (ascii_of_nat 34) EmptyString.
Definition member (name : string) : string := (quote ++ name ++ quote ++ ":")%string.

Definition encodeFundItem (p : FundItem) : option string :=
  match floatEncoder (Weight p) with
  | None => None
  | Some weight =>
      Some ("{" ++ member "FCODE" ++ stringEncoder (FCODE (ItemFund p)) ++
            "," ++ member "SHORTNAME" ++ stringEncoder (SHORTNAME (ItemFund p)) ++
            "," ++ member "GZTIME" ++ stringEncoder (GZTIME (ItemFund p)) ++
            "," ++ member "GSZZL" ++ stringEncoder (GSZZL (ItemFund p)) ++
            "," ++ member "Weight" ++ weight ++ "}")%string
  end.

(** The elements of the array, up to the first one that fails. *)
Fixpoint encodeFunds (funds : list FundItem) : option (list string) :=
  match funds with
  | [] => Some []
  | p :: funds' =>
      match encodeFundItem p with
      | None => None
      | Some b =>
          match encodeFunds funds' with
          | None => None
          | Some bs => Some (b :: bs)
          end
      end
  end.

Definition Marshal (v : FundResult) : option string :=
  match encodeFunds (Funds v) with
  | None => None
  | Some funds =>
      match floatEncoder (Avg v) with
      | None => None
      | Some avg =>
          Some ("{" ++ member "Funds" ++ "[" ++ String.concat "," funds ++ "]" ++
                "," ++ member "Avg" ++ avg ++ "}")%string
      end
  end.

(** [Encode] of a [json.Encoder]: the value is marshalled into a
    buffer, a newline is added, and the buffer is written; on an error
    nothing is written.  The result is what reaches the writer. *)
Definition Encode (v : FundResult) : string :=
  match Marshal v with
  | None => EmptyString
  | Some b => (b ++ String newline EmptyString)%string
  end.

End Encoder.
End json.

(* ----------------------------------------------------------------- *)
(** ** The web handlers: [getResult] and [handler]

    [file] is what [os.ReadFile] yields, as for [LoadFundIds];
    [decoded] is what [json.NewDecoder(r.Body).Decode(&ids)] leaves in
    [ids], whose error is dropped (nothing when the body does not
    decode). *)

(** What a handler leaves in the [http.ResponseWriter]. *)
Record Response := {
  Header : list (string * string);
  Body : string
}.

Module MainGo_Web.

(** [getResult], up to the call of [GetFundResult]: the requests it is
    called with. *)
Definition getResult_ids (file : option string) (decoded : list FundId)
    : outcome (list FundId) :=
  match MainGo_Config.LoadFundIds file with
  | Panics => Panics
  | Returns ids => Returns (if (length ids =? 0)%nat then decoded else ids)
  end.

(** [getResult(r)] can return [result]. *)
Definition getResult_returns `{sort.Pdqsort} (GetFund : string -> fetched)
    (file : option string) (decoded : list FundId) (result : FundResult) : Prop :=
  exists ids, getResult_ids file decoded = Returns ids /\
              MainGo_Run.GetFundResult_returns GetFund ids result.

Section Handler.
Variable stringEncoder : string -> string.
Variable floatBytes : float64 -> string.

(** [handler], from the result of [getResult] on. *)
Definition handler (result : FundResult) : Response :=
  {| Header := [("Content-Type", "application/json")%string];
     Body := json.Encode stringEncoder floatBytes result |}.

(** [handler(w, r)] can leave [w]. *)
Definition handler_responds `{sort.Pdqsort} (GetFund : string -> fetched)
    (file : option string) (decoded : list FundId) (w : Response) : Prop :=
  exists result, getResult_returns GetFund file decoded result /\ w = handler result.

End Handler.
End MainGo_Web.

Module FundGo_Web.
Section Handler.
Variable stringEncoder : string -> string.
Variable floatBytes : float64 -> string.

(** [src/Fund.go]: [bytes, _ := json.Marshal(result)], then
    [fmt.Fprintln(w, string(bytes))]; a failed [Marshal] leaves [bytes]
    nil. *)
Definition handler (result : FundResult) : Response :=
  let bytes := match json.Marshal stringEncoder floatBytes result with
               | Some b => b
               | None => EmptyString
               end in
  {| Header := [("Content-Type", "application/json")%string];
     Body := (bytes ++ String newline EmptyString)%string |}.

End Handler.
End FundGo_Web.

(* ----------------------------------------------------------------- *)
(** ** Further vocabulary *)

(** [s] holds no byte [sep]. *)
Definition free (sep : ascii) (s : string) : Prop :=
  ~ In sep (list_ascii_of_string s).

Definition carriageReturn : ascii := ascii_of_nat 13.

(** The floats [encoding/json] has no text for. *)
Definition unsupported (f : float64) : Prop :=
  f64.IsInf f = true \/ f64.IsNaN f = true.

(** A line of the resource, given by its fields: the identifier, the
    weight and any further ones, none of which holds a comma or a
    newline; and the request [LoadFundIds] makes of it. *)
Module Resource.

Definition entry : Type := string * string * list string.

Definition fields (e : entry) : list string := e.1.1 :: e.1.2 :: e.2.

Definition line (e : entry) : string :=
  String.concat (String comma EmptyString) (fields e).

Definition request (e : entry) : FundId :=
  FundId.mk e.1.1 (fst (strconv.ParseFloat e.1.2)).

Definition wellFormed (e : entry) : Prop :=
  Forall (fun f => free comma f /\ free newline f) (fields e).

(** The lines, separated by newlines. *)
Definition lines (entries : list entry) : string :=
  String.concat (String newline EmptyString) (line <$> entries).

End Resource.

(** Strings of decimal digits, and the number that one spells. *)
Definition digits (ds : list ascii) : Prop :=
  Forall (fun c => strconv.isDigit c = true) ds.

Definition decimal (ds : list ascii) : Z :=
  foldl (fun n c => 10 * n + (strconv.byte c - 48)) 0 ds.

Definition point : ascii := ascii_of_nat 46.
Definition minus : ascii := ascii_of_nat 45.

(** The digit loop of [readFloat] on a plain decimal. *)
Module Decimal.

(** One turn of the loop on the digit [c]: the case
    ['0' <= c && c <= '9'] of the switch, for a decimal literal. *)
Definition digit_step (st : Z * Z * Z) (c : ascii) : Z * Z * Z :=
  let '(mantissa, nd, dp) := st in
  if (strconv.byte c =? 48) && (nd =? 0) then (mantissa, nd, dp - 1)
  else (mantissa * 10 + (strconv.byte c - 48), nd + 1, dp).

(** The number spelled by digits that follow the number [n]. *)
Definition decimal_from (n : Z) (ds : list ascii) : Z :=
  foldl (fun n c => 10 * n + (strconv.byte c - 48)) n ds.

(** The bytes of a plain decimal after the sign. *)
Definition plain (c : ascii) : Prop := strconv.isDigit c = true \/ c = point.

End Decimal.

(** One goroutine per request: those started, and those still to
    start. *)
Definition spawned (fundIds : list FundId) (s : MainGo_Run.state) : Prop :=
  (length (MainGo_Run.workers s) + length (MainGo_Run.pc_rest (MainGo_Run.pc s)))%nat
  = length fundIds.

(* ----------------------------------------------------------------- *)
(** ** Further sample data *)

(** Two providers without a quote for "b": the body of the response
    for "b" does not decode, and the transport fails for "b". *)
Definition provider_undecodable_b (id : string) : fetched :=
  if String.eqb id "b" then LogFatal else provider id.
Definition provider_unreachable_b (id : string) : fetched :=
  if String.eqb id "b" then NilResponse else provider id.

(** A schedule for two requests in which the second worker panics in
    [GetFund] and runs its deferred [wg.Done()], and [GetFundResult]
    returns before the runtime ends the process. *)
Definition schedule_lost : list MainGo_Run.action :=
  [MainGo_Run.ASpawn; MainGo_Run.ASpawn; MainGo_Run.ASpawnConsumer;
   MainGo_Run.AFetch 0; MainGo_Run.ASend 0; MainGo_Run.AAppend; MainGo_Run.AWorkerDone 0;
   MainGo_Run.AFetch 1; MainGo_Run.AWorkerDone 1;
   MainGo_Run.AWaitWorkers; MainGo_Run.AClose; MainGo_Run.ARangeEnd;
   MainGo_Run.AConsumerDone; MainGo_Run.AReturn].

(** Two requests of weight 1. *)
Definition requests_tie : list FundId :=
  [FundId.mk "a" 1%float; FundId.mk "b" 1%float].

(** Leaf encoders for the examples: the string between quotes, and a
    fixed text for a number. *)
Definition sample_stringEncoder (s : string) : string :=
  (json.quote ++ s ++ json.quote)%string.
Definition sample_floatBytes (f : float64) : string := "0"%string.

(* ================================================================= *)
(** * Part II: properties *)

(* ----------------------------------------------------------------- *)
(** ** The order of [float64] *)

Module f64_facts.
Import f64.

Lemma lex_Lt a b : lex a b = Lt <-> lex_lt a b.
Proof.
  destruct a as [[a1 a2] a3], b as [[b1 b2] b3]; unfold lex, lex_lt.
  destruct (Z.compare_spec a1 b1), (Z.compare_spec a2 b2), (Z.compare_spec a3 b3);
    split; intros; try discriminate; try reflexivity; lia.
Qed.

Lemma lex_Eq a b : lex a b = Eq <-> a = b.
Proof.
  destruct a as [[a1 a2] a3], b as [[b1 b2] b3]; unfold lex.
  destruct (Z.compare_spec a1 b1), (Z.compare_spec a2 b2), (Z.compare_spec a3 b3);
    split; intros E; try discriminate; try reflexivity; try congruence;
    injection E; lia.
Qed.

Lemma SFcompare_key x y :
  SFcompare x y =
    match key x, key y with
    | Some a, Some b => Some (lex a b)
    | _, _ => None
    end.
Proof.
  destruct x as [sx|sx| |sx mx ex], y as [sy|sy| |sy my ey]; try reflexivity;
    try (destruct sx; reflexivity); try (destruct sy; reflexivity);
    try (destruct sx, sy; reflexivity).
  destruct sx, sy; simpl; try reflexivity.
  rewrite Z.compare_opp, (Z.compare_antisym ex ey).
  destruct (ex ?= ey); reflexivity.
Qed.

Lemma ltb_key a b :
  PrimFloat.ltb a b = true <->
  exists x y, fkey a = Some x /\ fkey b = Some y /\ lex_lt x y.
Proof.
  rewrite FloatAxioms.ltb_spec. unfold SFltb, fkey. rewrite SFcompare_key.
  destruct (key (Prim2SF a)) as [x|], (key (Prim2SF b)) as [y|];
    try (split; [discriminate | intros (? & ? & ? & ? & ?); discriminate]).
  split.
  - intros E. exists x, y. repeat split. apply lex_Lt.
    destruct (lex x y); try discriminate; reflexivity.
  - intros (x' & y' & E1 & E2 & L). assert (lex x y = Lt) as ->; [|reflexivity].
    apply lex_Lt. congruence.
Qed.

Lemma leb_key a b :
  PrimFloat.leb a b = true <->
  exists x y, fkey a = Some x /\ fkey b = Some y /\ (lex_lt x y \/ x = y).
Proof.
  rewrite FloatAxioms.leb_spec. unfold SFleb, fkey. rewrite SFcompare_key.
  destruct (key (Prim2SF a)) as [x|], (key (Prim2SF b)) as [y|];
    try (split; [discriminate | intros (? & ? & ? & ? & ?); discriminate]).
  split.
  - intros E. exists x, y. repeat split.
    destruct (lex x y) eqn:L; try discriminate.
    + right. apply lex_Eq. exact L.
    + left. apply lex_Lt. exact L.
  - intros (x' & y' & E1 & E2 & [L | L]).
    + assert (lex x y = Lt) as ->; [|reflexivity]. apply lex_Lt. congruence.
    + assert (lex x y = Eq) as ->; [|reflexivity]. apply lex_Eq. congruence.
Qed.

Lemma eqb_key a b :
  PrimFloat.eqb a b = true <-> exists x, fkey a = Some x /\ fkey b = Some x.
Proof.
  rewrite FloatAxioms.eqb_spec. unfold SFeqb, fkey. rewrite SFcompare_key.
  destruct (key (Prim2SF a)) as [x|], (key (Prim2SF b)) as [y|];
    try (split; [discriminate | intros (? & ? & ?); discriminate]).
  split.
  - intros E. exists x. split; [reflexivity|].
    destruct (lex x y) eqn:L; try discriminate. apply lex_Eq in L. congruence.
  - intros (x' & E1 & E2). assert (E : x = y) by congruence.
    apply lex_Eq in E. rewrite E. reflexivity.
Qed.

Lemma IsNaN_key a : IsNaN a = false <-> exists x, fkey a = Some x.
Proof.
  unfold IsNaN, PrimFloat.is_nan. destruct (PrimFloat.eqb a a) eqn:E; simpl.
  - apply eqb_key in E as (x & E & _). split; eauto.
  - split; [discriminate|]. intros (x & Hx).
    assert (PrimFloat.eqb a a = true) by (apply eqb_key; eauto). congruence.
Qed.

Lemma lex_lt_trans x y z : lex_lt x y -> lex_lt y z -> lex_lt x z.
Proof.
  destruct x as [[? ?] ?], y as [[? ?] ?], z as [[? ?] ?]; unfold lex_lt; lia.
Qed.

Lemma lex_lt_irrefl x : ~ lex_lt x x.
Proof. destruct x as [[? ?] ?]; unfold lex_lt; lia. Qed.

Lemma lex_lt_total x y : lex_lt x y \/ x = y \/ lex_lt y x.
Proof.
  destruct x as [[a1 a2] a3], y as [[b1 b2] b3]; unfold lex_lt.
  destruct (Z.lt_trichotomy a1 b1) as [?|[?|?]];
    destruct (Z.lt_trichotomy a2 b2) as [?|[?|?]];
    destruct (Z.lt_trichotomy a3 b3) as [?|[?|?]]; subst; auto; lia.
Qed.

(** Facts about Go's comparisons, read off the keys. *)
Ltac keys :=
  repeat match goal with
  | H : ge _ _ = true |- _ => apply leb_key in H as (? & ? & ? & ? & ?)
  | H : gt _ _ = true |- _ => apply ltb_key in H as (? & ? & ? & ? & ?)
  | H : eq _ _ = true |- _ => apply eqb_key in H as (? & ? & ?)
  | H : IsNaN _ = false |- _ => apply IsNaN_key in H as (? & ?)
  end;
  repeat match goal with
  | H1 : fkey ?a = Some ?x, H2 : fkey ?a = Some ?y |- _ =>
      assert (x = y) by congruence; subst y; clear H2
  end.

Lemma ge_trans a b c : ge a b = true -> ge b c = true -> ge a c = true.
Proof.
  intros H1 H2. keys. apply leb_key. do 2 eexists. repeat split; eauto.
  repeat match goal with H : _ \/ _ |- _ => destruct H end; subst;
    eauto using lex_lt_trans.
Qed.

Lemma gt_trans a b c : gt a b = true -> gt b c = true -> gt a c = true.
Proof.
  intros H1 H2. keys. apply ltb_key. do 2 eexists. repeat split; eauto.
  eauto using lex_lt_trans.
Qed.

Lemma ge_gt_trans a b c : ge a b = true -> gt b c = true -> gt a c = true.
Proof.
  intros H1 H2. keys. apply ltb_key. do 2 eexists. repeat split; eauto.
  repeat match goal with H : _ \/ _ |- _ => destruct H end; subst;
    eauto using lex_lt_trans.
Qed.

Lemma gt_ge a b : gt a b = true -> ge a b = true.
Proof. intros H1. keys. apply leb_key. do 2 eexists. repeat split; eauto. Qed.

Lemma ge_refl a : IsNaN a = false -> ge a a = true.
Proof. intros H1. keys. apply leb_key. do 2 eexists. repeat split; eauto. Qed.

(** Of two numbers, one is [>=] the other. *)
Lemma not_ge_gt a b :
  IsNaN a = false -> IsNaN b = false -> ge a b = false -> gt b a = true.
Proof.
  intros Ha Hb H.
  apply IsNaN_key in Ha as (ka & Ha). apply IsNaN_key in Hb as (kb & Hb).
  apply ltb_key. exists ka, kb. repeat split; eauto.
  destruct (lex_lt_total ka kb) as [L|[L|L]]; [exact L| |]; exfalso;
    (assert (ge a b = true); [|congruence]); apply leb_key;
    exists kb, ka; repeat split; eauto.
Qed.

Lemma gt_not_ge a b : gt a b = true -> ge b a = false.
Proof.
  intros H1. destruct (ge b a) eqn:H2; [|reflexivity]. keys. exfalso.
  repeat match goal with H : _ \/ _ |- _ => destruct H end; subst;
    eapply lex_lt_irrefl; eauto using lex_lt_trans.
Qed.

Lemma ge_ne_gt a b : ge a b = true -> ne a b = true -> gt a b = true.
Proof.
  unfold ne. intros H1 H2. apply negb_true_iff in H2. keys.
  apply ltb_key. do 2 eexists. repeat split; eauto.
  match goal with H : _ \/ _ |- _ => destruct H as [L|L] end; [exact L|].
  subst. exfalso. assert (PrimFloat.eqb a b = true); [|congruence].
  apply eqb_key. eauto.
Qed.

Lemma gt_ne a b : gt a b = true -> ne a b = true.
Proof.
  intros H1. unfold ne. apply negb_true_iff.
  destruct (PrimFloat.eqb a b) eqn:H2; [|reflexivity].
  change (eq a b = true) in H2. keys. exfalso. eapply lex_lt_irrefl; eauto.
Qed.

Lemma eq_sym a b : eq a b = true -> eq b a = true.
Proof. intros H1. keys. apply eqb_key. eauto. Qed.

Lemma ne_sym a b : ne a b = true -> ne b a = true.
Proof.
  unfold ne. intros H1. apply negb_true_iff in H1. apply negb_true_iff.
  destruct (PrimFloat.eqb b a) eqn:H2; [|reflexivity].
  apply (eq_sym b a) in H2. unfold eq in H2. congruence.
Qed.

Lemma eq_trans a b c : eq a b = true -> eq b c = true -> eq a c = true.
Proof. intros H1 H2. keys. apply eqb_key. eauto. Qed.

Lemma gt_eq_false a b : gt a b = true -> eq b a = false.
Proof.
  intros H1. destruct (eq b a) eqn:H2; [|reflexivity]. keys. exfalso.
  eapply lex_lt_irrefl; eauto.
Qed.

End f64_facts.

(** ** Division by a zero *)

Module f64_div.
Import f64.

Lemma eq_zero_spec tw :
  eq tw 0%float = true -> exists s, Prim2SF tw = S754_zero s.
Proof.
  unfold eq. rewrite FloatAxioms.eqb_spec.
  change (Prim2SF 0%float) with (S754_zero false).
  destruct (Prim2SF tw) as [s|s| |s m e]; try discriminate; eauto.
  - destruct s; discriminate.
  - destruct s; discriminate.
Qed.

Lemma IsNaN_spec f : Prim2SF f = S754_nan -> IsNaN f = true.
Proof.
  intros E. unfold IsNaN, PrimFloat.is_nan.
  rewrite FloatAxioms.eqb_spec, E. reflexivity.
Qed.

Lemma IsInf_spec f s : Prim2SF f = S754_infinity s -> IsInf f = true.
Proof.
  intros E. unfold IsInf, PrimFloat.is_infinity.
  rewrite FloatAxioms.eqb_spec, abs_spec, E. reflexivity.
Qed.

(** [t / tw] for [tw == 0]: NaN when [t] is a zero or NaN, an infinity
    otherwise. *)
Lemma div_zero t tw :
  eq tw 0%float = true ->
  IsNaN (t / tw)%float = true \/ IsInf (t / tw)%float = true.
Proof.
  intros E. apply eq_zero_spec in E as (s & E).
  pose proof (div_spec t tw) as D. rewrite E in D.
  destruct (Prim2SF t) as [st|st| |st m e]; simpl in D.
  - left. apply IsNaN_spec. exact D.
  - right. eapply IsInf_spec. exact D.
  - left. apply IsNaN_spec. exact D.
  - right. eapply IsInf_spec. exact D.
Qed.

(** [0 * w] is a zero for a finite [w]. *)
Lemma mul_zero w :
  IsNaN w = false -> IsInf w = false -> eq (0 * w)%float 0%float = true.
Proof.
  intros Hnan Hinf. unfold eq. rewrite FloatAxioms.eqb_spec, mul_spec.
  change (Prim2SF 0%float) with (S754_zero false).
  destruct (Prim2SF w) as [s|s| |s m e] eqn:E; try reflexivity.
  - rewrite (IsInf_spec w s E) in Hinf. discriminate.
  - rewrite (IsNaN_spec w E) in Hnan. discriminate.
Qed.

End f64_div.

(* ----------------------------------------------------------------- *)
(** ** The insertion sort of [sort.Slice] *)

Module sort_facts.
Import sort.

Section Insertion.
Context {A : Type}.
Variable less : A -> A -> bool.

Lemma lookup_adjacent (pre : list A) p x post :
  (pre ++ p :: x :: post) !! length pre = Some p /\
  (pre ++ p :: x :: post) !! S (length pre) = Some x.
Proof.
  split.
  - rewrite lookup_app_r by lia. replace (length pre - length pre)%nat with 0%nat by lia.
    reflexivity.
  - rewrite lookup_app_r by lia. replace (S (length pre) - length pre)%nat with 1%nat by lia.
    reflexivity.
Qed.

Lemma Less_adjacent (pre : list A) p x post :
  Less less (pre ++ p :: x :: post) (S (length pre)) (length pre) = less x p.
Proof.
  unfold Less. destruct (lookup_adjacent pre p x post) as [-> ->]. reflexivity.
Qed.

Lemma Swap_adjacent (pre : list A) p x post :
  Swap (pre ++ p :: x :: post) (S (length pre)) (length pre) = pre ++ x :: p :: post.
Proof.
  unfold Swap. destruct (lookup_adjacent pre p x post) as [-> ->].
  rewrite !insert_app_r_alt by lia.
  replace (length pre - length pre)%nat with 0%nat by lia.
  replace (S (length pre) - length pre)%nat with 1%nat by lia.
  reflexivity.
Qed.

(** The inner loop, started at the element after [pre], is [bubble]
    on [pre] taken backwards. *)
Lemma insertionInner_bubble (pre : list A) x post :
  insertionInner less 0 (pre ++ x :: post) (length pre) =
  reverse (bubble less x (reverse pre)) ++ post.
Proof.
  revert x post. induction pre as [|p pre IH] using rev_ind; intros x post.
  - reflexivity.
  - rewrite length_app, reverse_app. simpl.
    replace (length pre + 1)%nat with (S (length pre)) by lia. simpl.
    rewrite <- app_assoc. simpl. rewrite Less_adjacent.
    destruct (less x p).
    + rewrite Swap_adjacent, IH, reverse_cons, <- app_assoc. reflexivity.
    + rewrite !reverse_cons, reverse_involutive, <- !app_assoc. reflexivity.
Qed.

Lemma length_bubble x r : length (bubble less x r) = S (length r).
Proof.
  induction r as [|p r IH]; simpl; [reflexivity|].
  destruct (less x p); simpl; congruence.
Qed.

Lemma outer_loop (r post : list A) :
  foldl (insertionInner less 0) (reverse r ++ post) (seq (length r) (length post)) =
  reverse (foldl (fun r x => bubble less x r) r post) ++ [].
Proof.
  revert r. induction post as [|x post IH]; intros r.
  - simpl. reflexivity.
  - simpl. rewrite <- (length_reverse r) at 1.
    rewrite insertionInner_bubble, reverse_involutive.
    rewrite <- (length_bubble x r). apply IH.
Qed.

(** [insertionSortLessFunc(data, 0, len(data))] as a function of the
    slice. *)
Lemma insertionSort_isort (data : list A) :
  insertionSortLessFunc less data 0 (length data) = isort less data.
Proof.
  unfold insertionSortLessFunc, isort. destruct data as [|x data]; [reflexivity|].
  simpl. replace (length data - 0)%nat with (length data) by lia.
  change (x :: data) with (reverse [x] ++ data).
  change 1%nat with (length [x]).
  rewrite outer_loop, app_nil_r. reflexivity.
Qed.

(** *** The slice is rearranged *)

Lemma bubble_perm x r : bubble less x r ≡ₚ x :: r.
Proof.
  induction r as [|p r IH]; simpl; [reflexivity|].
  destruct (less x p); [|reflexivity].
  rewrite IH. apply Permutation_swap.
Qed.

Lemma fold_bubble_perm r data :
  foldl (fun r x => bubble less x r) r data ≡ₚ data ++ r.
Proof.
  revert r. induction data as [|x data IH]; intros r; simpl; [reflexivity|].
  rewrite IH, bubble_perm. symmetry. apply Permutation_middle.
Qed.

Lemma isort_perm data : isort less data ≡ₚ data.
Proof.
  unfold isort. rewrite reverse_Permutation, fold_bubble_perm, app_nil_r. reflexivity.
Qed.

(** *** The slice ends up sorted

    [r] is the sorted prefix taken backwards: of two elements of
    [r], the second one is less than the first, and not conversely. *)

Let before (u v : A) : Prop := less u v = true /\ less v u = false.
Let opposite (x y : A) : Prop := less x y = negb (less y x).

Lemma bubble_sorted x r :
  (forall p, p ∈ r -> opposite x p) ->
  (forall q p, q ∈ r -> p ∈ r -> less q p = true -> less p x = true -> less q x = true) ->
  StronglySorted (flip before) r ->
  StronglySorted (flip before) (bubble less x r).
Proof.
  unfold opposite, flip, before.
  induction r as [|p r IH]; intros Hopp Htrans Hr; simpl.
  - repeat constructor.
  - apply StronglySorted_cons in Hr as [Hp Hr].
    pose proof (Hopp p ltac:(left)) as Hxp.
    destruct (less x p) eqn:E.
    + apply StronglySorted_cons. split.
      * rewrite bubble_perm. constructor; [|exact Hp].
        split; [exact E|]. symmetry in Hxp. apply negb_true_iff in Hxp. exact Hxp.
      * apply IH; [| |exact Hr].
        -- intros q Hq. apply Hopp. right; exact Hq.
        -- intros q q' Hq Hq'. apply Htrans; right; assumption.
    + symmetry in Hxp. apply negb_false_iff in Hxp.
      apply StronglySorted_cons. split.
      * constructor; [split; assumption|].
        rewrite Forall_forall in Hp |- *. intros q Hq.
        destruct (Hp q Hq) as [Hqp _].
        assert (Hqx : less q x = true).
        { apply (Htrans q p); [right; exact Hq|left|exact Hqp|exact Hxp]. }
        split; [exact Hqx|].
        rewrite (Hopp q) by (right; exact Hq). rewrite Hqx. reflexivity.
      * apply StronglySorted_cons. split; assumption.
Qed.

Lemma fold_bubble_sorted post r :
  StronglySorted opposite post ->
  (forall x p, x ∈ post -> p ∈ r -> opposite x p) ->
  (forall x y z, x ∈ r ++ post -> y ∈ r ++ post -> z ∈ r ++ post ->
     less x y = true -> less y z = true -> less x z = true) ->
  StronglySorted (flip before) r ->
  StronglySorted (flip before) (foldl (fun r x => bubble less x r) r post).
Proof.
  revert r. induction post as [|x post IH]; intros r Hpost Hopp Htrans Hr; simpl.
  - exact Hr.
  - apply StronglySorted_cons in Hpost as [Hx Hpost].
    apply IH.
    + exact Hpost.
    + intros y p Hy Hp. rewrite bubble_perm in Hp.
      apply elem_of_cons in Hp as [->|Hp].
      * rewrite Forall_forall in Hx. specialize (Hx y Hy).
        unfold opposite in *. rewrite Hx, negb_involutive. reflexivity.
      * apply Hopp; [right; exact Hy|exact Hp].
    + intros u v w Hu Hv Hw. apply Htrans.
      all: match goal with
           | H : ?a ∈ _ |- ?a ∈ _ =>
               rewrite elem_of_app, bubble_perm, elem_of_cons in H;
               rewrite elem_of_app, elem_of_cons; tauto
           end.
    + apply bubble_sorted; [| |exact Hr].
      * intros p Hp. apply Hopp; [left|exact Hp].
      * intros q p Hq Hp. apply Htrans; rewrite elem_of_app, ?elem_of_cons; tauto.
Qed.

Lemma Ordering_opposite data :
  Ordering less data -> StronglySorted opposite data.
Proof.
  intros [Hopp _]. induction data as [|x data IH]; [constructor|].
  constructor.
  - apply IH. intros i j u v Hij Hi Hj. apply (Hopp (S i) (S j)); auto.
  - apply Forall_forall. intros y Hy.
    apply list_elem_of_lookup in Hy as [k Hk].
    apply (Hopp 0%nat (S k)); auto.
Qed.

Lemma StronglySorted_reverse (R : relation A) l :
  StronglySorted (flip R) l -> StronglySorted R (reverse l).
Proof.
  induction 1 as [|x l Hl IH Hx]; [constructor|].
  rewrite reverse_cons. apply StronglySorted_app. split_and!.
  - intros u v Hu Hv. rewrite elem_of_reverse in Hu.
    apply list_elem_of_singleton in Hv as ->.
    rewrite Forall_forall in Hx. apply (Hx u Hu).
  - exact IH.
  - repeat constructor.
Qed.

Lemma before_IsSorted l : StronglySorted before l -> IsSorted less l = true.
Proof.
  induction 1 as [|x l Hl IH Hx]; [reflexivity|].
  destruct l as [|y l]; [reflexivity|].
  cbn [IsSorted]. inversion Hx as [|? ? [_ Hyx] _]; subst.
  rewrite Hyx. exact IH.
Qed.

(** The insertion sort honours the contract of the [sort] package. *)
Lemma isort_sorted data :
  Ordering less data -> IsSorted less (isort less data) = true.
Proof.
  intros Hord. apply before_IsSorted. unfold isort.
  apply StronglySorted_reverse, fold_bubble_sorted.
  - apply Ordering_opposite, Hord.
  - intros x p _ Hp. inversion Hp.
  - destruct Hord as [_ Htrans]. simpl. exact Htrans.
  - constructor.
Qed.

End Insertion.

(** The insertion sort as the sort of long slices too: an instance of
    the contract. *)
Definition insertion_Pdqsort : Pdqsort :=
  {| pdqsort_long := fun A less data => isort less data;
     pdqsort_long_swaps := fun A less data => isort_perm less data;
     pdqsort_long_sorts := fun A less data => isort_sorted less data |}.

(** [sort.Slice] under the contract. *)
Lemma Slice_perm `{Pdqsort} {A} (x : list A) less : Slice x less ≡ₚ x.
Proof.
  unfold Slice. destruct (length x <=? maxInsertion)%nat.
  - rewrite insertionSort_isort. apply isort_perm.
  - apply pdqsort_long_swaps.
Qed.

Lemma Slice_sorted `{Pdqsort} {A} (x : list A) less :
  Ordering less x -> IsSorted less (Slice x less) = true.
Proof.
  intros Hord. unfold Slice. destruct (length x <=? maxInsertion)%nat.
  - rewrite insertionSort_isort. apply isort_sorted, Hord.
  - apply pdqsort_long_sorts, Hord.
Qed.

Lemma Slice_short `{Pdqsort} {A} (x : list A) less :
  (length x <= maxInsertion)%nat -> Slice x less = isort less x.
Proof.
  intros Hlen. unfold Slice.
  destruct (Nat.leb_spec (length x) maxInsertion); [|lia].
  apply insertionSort_isort.
Qed.

End sort_facts.

(* ----------------------------------------------------------------- *)
(** ** The strings [ParseFloat] reads *)

Module strconv_facts.
Import strconv.

Lemma isDigit_literal c : isDigit c = true -> Spec.literalByte c = true.
Proof. unfold Spec.literalByte. intros ->. reflexivity. Qed.

Lemma isSign_literal c : isSign c = true -> Spec.literalByte c = true.
Proof. unfold Spec.literalByte. intros ->. rewrite orb_true_r. reflexivity. Qed.

Lemma letter_literal c :
  97 <= lower c <= 122 -> Spec.literalByte c = true.
Proof.
  intros Hc. unfold Spec.literalByte.
  replace ((97 <=? lower c) && (lower c <=? 122)) with true;
    [rewrite orb_true_r; reflexivity|].
  symmetry. apply andb_true_iff. split; apply Z.leb_le; lia.
Qed.

Lemma point_literal c : byte c = 46 -> Spec.literalByte c = true.
Proof. unfold Spec.literalByte. intros ->. simpl. rewrite orb_true_r. reflexivity. Qed.

Lemma underscore_literal c : byte c = 95 -> Spec.literalByte c = true.
Proof. unfold Spec.literalByte. intros ->. simpl. rewrite orb_true_r. reflexivity. Qed.

Lemma isHexLetter_literal c : isHexLetter c = true -> Spec.literalByte c = true.
Proof.
  unfold isHexLetter. intros Hc. apply andb_true_iff in Hc as [H1 H2].
  apply Z.leb_le in H1, H2. apply letter_literal. lia.
Qed.

(** The bytes [readDigits] and [readExp] read are literal bytes. *)
Lemma readDigits_rest hex s : forall mantissa nd dp sawdot sawdigits underscores r,
  readDigits hex mantissa nd dp sawdot sawdigits underscores s = r ->
  exists pre, s = pre ++ r.2 /\ Forall (fun c => Spec.literalByte c = true) pre.
Proof.
  induction s as [|c s IH]; intros mantissa nd dp sawdot sawdigits underscores r; simpl.
  - intros <-. exists []. split; [reflexivity|constructor].
  - destruct (byte c =? 95) eqn:E1.
    { intros Hr. destruct (IH _ _ _ _ _ _ _ Hr) as (pre & -> & Hpre).
      exists (c :: pre). split; [reflexivity|]. constructor; [|exact Hpre].
      apply underscore_literal. lia. }
    destruct (byte c =? 46) eqn:E2.
    { destruct sawdot.
      - intros <-. exists []. split; [reflexivity|constructor].
      - intros Hr. destruct (IH _ _ _ _ _ _ _ Hr) as (pre & -> & Hpre).
        exists (c :: pre). split; [reflexivity|]. constructor; [|exact Hpre].
        apply point_literal. lia. }
    destruct (isDigit c) eqn:E3.
    { destruct ((byte c =? 48) && (nd =? 0)); intros Hr;
        destruct (IH _ _ _ _ _ _ _ Hr) as (pre & -> & Hpre);
        exists (c :: pre); (split; [reflexivity|]); constructor;
        auto using isDigit_literal. }
    destruct (hex && isHexLetter c) eqn:E4.
    { apply andb_true_iff in E4 as [_ E4]. intros Hr.
      destruct (IH _ _ _ _ _ _ _ Hr) as (pre & -> & Hpre).
      exists (c :: pre). split; [reflexivity|]. constructor;
        auto using isHexLetter_literal. }
    intros <-. exists []. split; [reflexivity|constructor].
Qed.

Lemma readExp_rest s : forall e underscores r,
  readExp e underscores s = r ->
  exists pre, s = pre ++ r.2 /\ Forall (fun c => Spec.literalByte c = true) pre.
Proof.
  induction s as [|c s IH]; intros e underscores r; simpl.
  - intros <-. exists []. split; [reflexivity|constructor].
  - destruct (byte c =? 95) eqn:E1.
    { intros Hr. destruct (IH _ _ _ Hr) as (pre & -> & Hpre).
      exists (c :: pre). split; [reflexivity|]. constructor; [|exact Hpre].
      apply underscore_literal. lia. }
    destruct (isDigit c) eqn:E3.
    { intros Hr. destruct (IH _ _ _ Hr) as (pre & -> & Hpre).
      exists (c :: pre). split; [reflexivity|]. constructor;
        auto using isDigit_literal. }
    intros <-. exists []. split; [reflexivity|constructor].
Qed.

Abbreviation literal := (Forall (fun c => Spec.literalByte c = true)).

(** A literal that [readFloat] reads to the end is made of literal
    bytes. *)
Lemma readFloat_bytes s neg hex mantissa exp :
  readFloat s = Some (neg, hex, mantissa, exp, []) -> literal s.
Proof.
  unfold readFloat. destruct s as [|c0 s']; [discriminate|].
  (* the sign *)
  assert (Hsign : literal (if isSign c0 then drop 1 (c0 :: s') else c0 :: s') ->
                  literal (c0 :: s')).
  { destruct (isSign c0) eqn:Es; [|auto]. simpl. rewrite drop_0.
    intros Hs'. constructor; [apply isSign_literal, Es|exact Hs']. }
  revert Hsign. generalize (if isSign c0 then drop 1 (c0 :: s') else c0 :: s').
  intros s1 Hsign.
  (* the prefix 0x *)
  set (hex0 := match s1 with
               | a :: b :: _ :: _ => (byte a =? 48) && (lower b =? 120)
               | _ => false
               end).
  assert (Hprefix : literal (if hex0 then drop 2 s1 else s1) -> literal s1).
  { subst hex0. destruct s1 as [|a [|b [|c s1]]]; auto.
    destruct ((byte a =? 48) && (lower b =? 120)) eqn:E; [|auto].
    apply andb_true_iff in E as [Ea Eb]. apply Z.eqb_eq in Ea, Eb.
    simpl. rewrite ?drop_0. intros Hs1. repeat constructor.
    - apply isDigit_literal. unfold isDigit. rewrite Ea. reflexivity.
    - apply letter_literal. lia.
    - inversion Hs1; assumption.
    - inversion Hs1; assumption. }
  revert Hprefix. generalize (if hex0 then drop 2 s1 else s1). clearbody hex0.
  intros s2 Hprefix Hread. apply Hsign, Hprefix. clear Hsign Hprefix s1.
  (* the digits *)
  destruct (readDigits hex0 0 0 0 false false false s2)
    as [[[[[[m nd] dp] sawdot] sawdigits] us] s3] eqn:Erd.
  apply readDigits_rest in Erd as (pre & -> & Hpre). simpl in *.
  destruct sawdigits; [|discriminate]. simpl in Hread.
  apply Forall_app. split; [exact Hpre|].
  destruct s3 as [|c s4].
  { constructor. }
  (* the exponent *)
  destruct (lower c =? (if hex0 then 112 else 101)) eqn:Ec.
  - assert (Hc : Spec.literalByte c = true).
    { apply letter_literal. apply Z.eqb_eq in Ec. destruct hex0; lia. }
    constructor; [exact Hc|].
    destruct s4 as [|c' s5]; [discriminate|].
    assert (Hesign : literal (if isSign c' then s5 else c' :: s5) -> literal (c' :: s5)).
    { destruct (isSign c') eqn:Es; [|auto].
      intros Hs5. constructor; [apply isSign_literal, Es|exact Hs5]. }
    revert Hesign Hread. generalize (if isSign c' then s5 else c' :: s5).
    intros s6 Hesign Hread. apply Hesign. clear Hesign.
    destruct s6 as [|d s6']; [discriminate|].
    destruct (isDigit d); [|discriminate].
    destruct (readExp 0 us (d :: s6')) as [[e us'] s7] eqn:Ere.
    apply readExp_rest in Ere as (pre' & Hs6 & Hpre'). simpl in *.
    rewrite Hs6.
    destruct (us' && _); [discriminate|]. injection Hread as _ _ _ _ ->.
    rewrite app_nil_r. exact Hpre'.
  - destruct hex0; [discriminate|].
    destruct (us && _); discriminate.
Qed.

Lemma ascii_letter_literal c :
  65 <= byte c <= 90 \/ 97 <= byte c <= 122 -> Spec.literalByte c = true.
Proof.
  destruct c as [[] [] [] [] [] [] [] []]; vm_compute; intros [[? ?]|[? ?]];
    first [reflexivity | exfalso; auto].
Qed.

Lemma commonPrefix_bytes s : forall prefix,
  Forall (fun p => 97 <= byte p <= 122) prefix ->
  0 <= commonPrefixLenIgnoreCase s prefix <= Z.of_nat (length s) /\
  literal (take (Z.to_nat (commonPrefixLenIgnoreCase s prefix)) s).
Proof.
  induction s as [|c s IH]; intros prefix Hp; simpl.
  - split; [lia|constructor].
  - destruct prefix as [|p prefix]; [simpl; split; [lia|constructor]|].
    apply Forall_cons in Hp as [Hp Hprefix].
    destruct (IH prefix Hprefix) as [Hlen Hlit].
    destruct (_ =? byte p) eqn:E.
    + split; [lia|].
      replace (Z.to_nat (1 + commonPrefixLenIgnoreCase s prefix))
        with (S (Z.to_nat (commonPrefixLenIgnoreCase s prefix))) by lia.
      simpl. constructor; [|exact Hlit].
      apply ascii_letter_literal. apply Z.eqb_eq in E.
      destruct ((65 <=? byte c) && (byte c <=? 90)) eqn:Eu.
      * apply andb_true_iff in Eu as [H1 H2]. apply Z.leb_le in H1, H2. lia.
      * lia.
    + simpl. split; [lia|constructor].
Qed.

Lemma special_bytes s val n :
  special s = Some (val, n) -> n = Z.of_nat (length s) -> literal s.
Proof.
  assert (Hinf : Forall (fun p => 97 <= byte p <= 122) (list_ascii_of_string "infinity"))
    by (repeat constructor; vm_compute; discriminate).
  assert (Hnan : Forall (fun p => 97 <= byte p <= 122) (list_ascii_of_string "nan"))
    by (repeat constructor; vm_compute; discriminate).
  assert (Htake : forall (t : list ascii) k k',
            0 <= k' <= k -> k' = Z.of_nat (length t) ->
            literal (take (Z.to_nat k) t) -> literal t).
  { intros t k k' Hk -> Hlit. rewrite take_ge in Hlit by lia. exact Hlit. }
  unfold special. destruct s as [|c s']; [discriminate|].
  destruct (isSign c) eqn:Es.
  - destruct (commonPrefix_bytes s' _ Hinf) as [Hlen Hlit].
    set (n0 := commonPrefixLenIgnoreCase s' (list_ascii_of_string "infinity")) in *.
    destruct ((3 <? n0) && (n0 <? 8)) eqn:E3.
    + simpl. intros [= _ <-] Hn. simpl in Hn.
      apply andb_true_iff in E3 as [E3 _]. apply Z.ltb_lt in E3.
      constructor; [apply isSign_literal, Es|].
      apply (Htake s' n0 3); [lia|lia|exact Hlit].
    + destruct ((n0 =? 3) || (n0 =? 8)); [|discriminate].
      intros [= _ <-] Hn. simpl in Hn.
      constructor; [apply isSign_literal, Es|].
      apply (Htake s' n0 n0); [lia|lia|exact Hlit].
  - destruct (lower c =? 105) eqn:Ei.
    + destruct (commonPrefix_bytes (c :: s') _ Hinf) as [Hlen Hlit].
      set (n0 := commonPrefixLenIgnoreCase (c :: s') (list_ascii_of_string "infinity")) in *.
      destruct ((3 <? n0) && (n0 <? 8)) eqn:E3.
      * cbv [orb Z.eqb Pos.eqb]. intros [= _ <-] Hn.
        apply andb_true_iff in E3 as [E3 _]. apply Z.ltb_lt in E3.
        apply (Htake (c :: s') n0 3); [lia|lia|exact Hlit].
      * destruct ((n0 =? 3) || (n0 =? 8)); [|discriminate].
        intros [= _ <-] Hn.
        apply (Htake (c :: s') n0 n0); [lia|lia|exact Hlit].
    + destruct (lower c =? 110); [|discriminate].
      destruct (commonPrefix_bytes (c :: s') _ Hnan) as [Hlen Hlit].
      destruct (_ =? 3) eqn:E3; [|discriminate].
      apply Z.eqb_eq in E3. intros [= _ <-] Hn.
      apply (Htake (c :: s') 3 3); [lia|lia|]. rewrite <- E3. exact Hlit.
Qed.

(** A numeric string is not empty and holds literal bytes only. *)
Lemma numeric_bytes str :
  Spec.numeric str = true ->
  str <> EmptyString /\ literal (list_ascii_of_string str).
Proof.
  intros Hnum. split; [intros ->; discriminate Hnum|].
  revert Hnum. unfold Spec.numeric, ParseFloat.
  destruct (special _) as [[val n]|] eqn:Esp.
  - destruct (n =? _) eqn:En; [|discriminate]. intros _.
    apply Z.eqb_eq in En. eapply special_bytes; eassumption.
  - destruct (readFloat _) as [[[[[neg hex] mantissa] exp] [|c rest]]|] eqn:Erf;
      try discriminate.
    intros _. eapply readFloat_bytes; eassumption.
Qed.

End strconv_facts.

(* ----------------------------------------------------------------- *)
(** ** [Zzl] and [avg] *)

Module avg_facts.

(** A syntax error comes with the value 0. *)
Lemma ParseFloat_syntax s :
  snd (strconv.ParseFloat s) = Some strconv.ErrSyntax ->
  fst (strconv.ParseFloat s) = 0%float.
Proof.
  unfold strconv.ParseFloat.
  destruct (strconv.special _) as [[val n]|].
  - destruct (n =? _); [discriminate|reflexivity].
  - destruct (strconv.readFloat _) as [[[[[neg hex] mantissa] exp] [|c rest]]|];
      try reflexivity.
    simpl. destruct (strconv.overflowed _); discriminate.
Qed.

Lemma Zzl_numeric p :
  Spec.numeric (GSZZL (ItemFund p)) = false -> Zzl p = 0%float.
Proof.
  unfold Spec.numeric, Zzl. intros E. apply ParseFloat_syntax.
  destruct (snd _) as [[]|]; try discriminate. reflexivity.
Qed.

Lemma Zzl_parse_float p : Zzl p = Spec.parse_float (GSZZL (ItemFund p)) 0%float.
Proof.
  unfold Spec.parse_float. destruct (Spec.numeric _) eqn:E; [reflexivity|].
  apply Zzl_numeric, E.
Qed.

(** The loop of [avg] carries the two sums. *)
Lemma avg_loop l total totalWeight :
  foldl avg_step (total, totalWeight) l =
  (foldl PrimFloat.add total
     ((fun item => Spec.parse_float (GSZZL (ItemFund item)) 0 * Weight item)%float <$> l),
   foldl PrimFloat.add totalWeight (Weight <$> l)).
Proof.
  revert total totalWeight. induction l as [|fund l IH]; intros; [reflexivity|].
  simpl. rewrite IH, Zzl_parse_float. reflexivity.
Qed.

Lemma avg_weighted_mean p : avg p = Spec.weighted_mean (Funds p).
Proof. unfold avg, Spec.weighted_mean, Spec.sum. rewrite avg_loop. reflexivity. Qed.

Lemma avg_zero_weight p :
  f64.eq (Spec.sum (Weight <$> Funds p)) 0%float = true ->
  f64.IsNaN (avg p) = true \/ f64.IsInf (avg p) = true.
Proof.
  intros E. unfold avg. rewrite avg_loop. apply f64_div.div_zero, E.
Qed.

End avg_facts.

(** C1. For items whose weights have a nonzero sum, the [Avg] of the
    report of [NewFundResult] is
    [sum(parse_float(changePercent, default=0) * weight) / sum(weight)]
    over the items of the report. *)
Theorem NewFundResult_Avg_weighted_mean `{sort.Pdqsort} (items : list FundItem) :
  f64.ne (Spec.sum (Weight <$> Funds (MainGo.NewFundResult items))) 0%float = true ->
  Avg (MainGo.NewFundResult items) = Spec.weighted_mean (Funds (MainGo.NewFundResult items)).
Proof.
  intros _. unfold MainGo.NewFundResult. simpl. apply avg_facts.avg_weighted_mean.
Qed.

(** The specification's example: "1.0" with weight 2 and "3.0" with
    weight 1 average to 5/3. *)
Lemma NewFundResult_Avg_weighted_mean_witness :
  let items := [sample "a" "1.0" 2%float; sample "b" "3.0" 1%float] in
  let r := MainGo.NewFundResult (H := sort_facts.insertion_Pdqsort) items in
  f64.ne (Spec.sum (Weight <$> Funds r)) 0%float = true /\
  Avg r = Spec.weighted_mean (Funds r) /\
  Avg r = (5 / 3)%float.
Proof.
  intros items r. split; [vm_compute; reflexivity|]. split.
  - apply (NewFundResult_Avg_weighted_mean (H := sort_facts.insertion_Pdqsort) items).
    vm_compute; reflexivity.
  - vm_compute; reflexivity.
Defined.

(** C7. A change percentage that is not numeric counts as 0: [Zzl]
    returns 0 for it, and nothing fails ([Zzl] is a total function that
    drops the error of [ParseFloat]).  Not numeric are the strings that
    [ParseFloat] rejects with a syntax error, among them the empty
    string and every string with a byte that no literal contains. *)
Theorem Zzl_non_numeric (p : FundItem) :
  GSZZL (ItemFund p) = EmptyString \/
  Exists (fun c => Spec.literalByte c = false) (list_ascii_of_string (GSZZL (ItemFund p))) \/
  Spec.numeric (GSZZL (ItemFund p)) = false ->
  Spec.numeric (GSZZL (ItemFund p)) = false /\
  Zzl p = 0%float /\
  Spec.parse_float (GSZZL (ItemFund p)) 0%float = 0%float /\
  (f64.IsNaN (Weight p) = false -> f64.IsInf (Weight p) = false ->
   f64.eq (Zzl p * Weight p)%float 0%float = true).
Proof.
  intros Hp.
  assert (E : Spec.numeric (GSZZL (ItemFund p)) = false).
  { destruct (Spec.numeric _) eqn:E; [exfalso|reflexivity].
    apply strconv_facts.numeric_bytes in E as [Hne Hlit].
    destruct Hp as [Hp|[Hp|Hp]]; [contradiction| |discriminate].
    apply Exists_exists in Hp as (c & Hc & Hfalse).
    rewrite Forall_forall in Hlit. rewrite (Hlit c Hc) in Hfalse. discriminate. }
  split_and!.
  - exact E.
  - apply avg_facts.Zzl_numeric, E.
  - unfold Spec.parse_float. rewrite E. reflexivity.
  - intros Hnan Hinf. rewrite (avg_facts.Zzl_numeric p E).
    apply f64_div.mul_zero; assumption.
Qed.

Lemma Zzl_non_numeric_witness :
  GSZZL (ItemFund (sample "a" "" 2%float)) = EmptyString /\
  Spec.numeric "" = false /\
  Zzl (sample "a" "" 2%float) = 0%float /\
  Spec.parse_float "" 0%float = 0%float /\
  f64.eq (Zzl (sample "a" "" 2%float) * 2)%float 0%float = true.
Proof.
  split; [reflexivity|].
  destruct (Zzl_non_numeric (sample "a" "" 2%float)) as (H1 & H2 & H3 & H4);
    [left; reflexivity|].
  split_and!; [exact H1|exact H2|exact H3|].
  apply H4; reflexivity.
Defined.

(** Strings that are not numbers, and one that is a number out of
    range: [ParseFloat] reports [ErrRange] with an infinity, which [Zzl]
    returns. *)
Example Zzl_examples :
  Zzl (sample "a" "abc" 1%float) = 0%float /\
  Zzl (sample "a" "-2.34%" 1%float) = 0%float /\
  Zzl (sample "a" "1,5" 1%float) = 0%float /\
  Zzl (sample "a" "-2.5" 1%float) = (-2.5)%float /\
  strconv.ParseFloat "1e999" = (infinity, Some strconv.ErrRange) /\
  Zzl (sample "a" "1e999" 1%float) = infinity.
Proof. vm_compute. repeat split. Qed.

(** C3, as the code has it. When the weights of the report sum to zero
    the average is NaN or an infinity; no error is raised. *)
Theorem Avg_zero_weight_sum `{sort.Pdqsort} (items : list FundItem) :
  f64.eq (Spec.sum (Weight <$> Funds (MainGo.NewFundResult items))) 0%float = true ->
  f64.IsNaN (Avg (MainGo.NewFundResult items)) = true \/
  f64.IsInf (Avg (MainGo.NewFundResult items)) = true.
Proof.
  intros E. unfold MainGo.NewFundResult in *. simpl in *.
  apply avg_facts.avg_zero_weight. exact E.
Qed.

Lemma Avg_zero_weight_sum_witness :
  let items := [sample "a" "1.0" 0%float; sample "b" "3.0" 0%float] in
  let r := MainGo.NewFundResult (H := sort_facts.insertion_Pdqsort) items in
  f64.eq (Spec.sum (Weight <$> Funds r)) 0%float = true /\
  (f64.IsNaN (Avg r) = true \/ f64.IsInf (Avg r) = true).
Proof.
  intros items r. split; [vm_compute; reflexivity|].
  apply (Avg_zero_weight_sum (H := sort_facts.insertion_Pdqsort) items).
  vm_compute; reflexivity.
Defined.

(** C3 fails as stated: two items of weight 0 give a report, with the
    average NaN. *)
Lemma Avg_zero_weights_is_NaN :
  let items := [sample "a" "1.0" 0%float; sample "b" "3.0" 0%float] in
  let r := MainGo.NewFundResult (H := sort_facts.insertion_Pdqsort) items in
  r = {| Funds := [sample "b" "3.0" 0%float; sample "a" "1.0" 0%float]; Avg := nan |} /\
  f64.IsNaN (Avg r) = true.
Proof. vm_compute. split; reflexivity. Qed.

(* ----------------------------------------------------------------- *)
(** ** The order of the report *)

Module order_facts.
Import sort.

Lemma ge_both a b : f64.ge a b = true -> f64.ge b a = true -> f64.eq a b = true.
Proof.
  intros H1 H2. destruct (f64.ne a b) eqn:N.
  - pose proof (f64_facts.ge_ne_gt _ _ H1 N) as G.
    apply f64_facts.gt_not_ge in G. congruence.
  - unfold f64.ne in N. apply negb_false_iff in N. exact N.
Qed.

(** With distinct numbers as weights, the closure of [NewFundResult]
    orders the items at distinct indices. *)
Lemma byWeight_Ordering items :
  Spec.numberWeights items -> Spec.distinctWeights items -> Ordering byWeight items.
Proof.
  intros Hnum Hdist. unfold Spec.numberWeights in Hnum. rewrite Forall_forall in Hnum. split.
  - intros i j a b Hij Hi Hj. unfold byWeight.
    pose proof (Hdist i j a b Hij Hi Hj) as Hne.
    assert (Ha : a ∈ items) by (apply list_elem_of_lookup; eauto).
    assert (Hb : b ∈ items) by (apply list_elem_of_lookup; eauto).
    destruct (f64.ge (Weight a) (Weight b)) eqn:E1, (f64.ge (Weight b) (Weight a)) eqn:E2;
      try reflexivity; exfalso.
    + pose proof (ge_both _ _ E1 E2) as E. unfold f64.ne, f64.eq in *.
      rewrite E in Hne. discriminate.
    + pose proof (f64_facts.not_ge_gt _ _ (Hnum a Ha) (Hnum b Hb) E1) as G.
      apply f64_facts.gt_ge in G. congruence.
  - intros x y z _ _ _. unfold byWeight. apply f64_facts.ge_trans.
Qed.

Lemma IsSorted_Sorted {A} (less : A -> A -> bool) l :
  IsSorted less l = true -> Sorted (fun x y => less y x = false) l.
Proof.
  induction l as [|x l IH]; [constructor|].
  destruct l as [|y l]; [repeat constructor|].
  cbn [IsSorted]. intros H. apply andb_true_iff in H as [H1 H2].
  apply negb_true_iff in H1. constructor; [apply IH, H2|].
  constructor. exact H1.
Qed.

#[local] Instance gt_weight_trans :
  Transitive (fun a b : FundItem => f64.gt (Weight a) (Weight b) = true).
Proof. intros a b c. apply f64_facts.gt_trans. Qed.

Lemma Sorted_impl_in {A} (R1 R2 : relation A) l :
  (forall x y, x ∈ l -> y ∈ l -> R1 x y -> R2 x y) -> Sorted R1 l -> Sorted R2 l.
Proof.
  intros Himpl Hl. induction Hl as [|x l Hl IH Hx]; [constructor|].
  constructor.
  - apply IH. intros u v Hu Hv. apply Himpl; right; assumption.
  - destruct Hx as [|y l Hxy]; constructor.
    apply Himpl; [left|right; left|exact Hxy].
Qed.

(** A slice of number weights that [sort.SliceIsSorted] accepts under
    [byWeight] is in descending order. *)
Lemma IsSorted_descending l :
  Spec.numberWeights l -> IsSorted byWeight l = true -> Spec.descending l.
Proof.
  intros Hnum Hs. unfold Spec.numberWeights in Hnum. rewrite Forall_forall in Hnum.
  apply Sorted_StronglySorted; [apply gt_weight_trans|].
  eapply Sorted_impl_in; [|apply IsSorted_Sorted, Hs].
  intros x y Hx Hy. unfold byWeight. apply f64_facts.not_ge_gt; auto.
Qed.

Lemma NewFundResult_descending `{Pdqsort} items :
  Spec.numberWeights items -> Spec.distinctWeights items ->
  Spec.descending (Funds (MainGo.NewFundResult items)).
Proof.
  intros Hnum Hdist. simpl. apply IsSorted_descending.
  - unfold Spec.numberWeights. rewrite sort_facts.Slice_perm. exact Hnum.
  - apply sort_facts.Slice_sorted, byWeight_Ordering; assumption.
Qed.

Lemma StronglySorted_weaken {A} (R1 R2 : relation A) l :
  (forall x y, R1 x y -> R2 x y) -> StronglySorted R1 l -> StronglySorted R2 l.
Proof.
  intros Himpl. induction 1 as [|x l Hl IH Hx]; constructor; [exact IH|].
  eapply Forall_impl; [exact Hx|]. intros y. apply Himpl.
Qed.

(** Pairwise distinct weights, whatever the order of the items. *)
Lemma pairwise_perm {A} (R : relation A) l l' :
  Symmetric R -> l ≡ₚ l' -> StronglySorted R l -> StronglySorted R l'.
Proof.
  intros Hsym Hperm. induction Hperm as [|x l l' Hperm IH|x y l|l l' l'' _ IH1 _ IH2];
    intros Hl.
  - constructor.
  - apply StronglySorted_cons in Hl as [Hx Hl]. apply StronglySorted_cons.
    split; [rewrite <- Hperm; exact Hx|apply IH, Hl].
  - apply StronglySorted_cons in Hl as [Hy Hl].
    apply StronglySorted_cons in Hl as [Hx Hl].
    apply Forall_cons in Hy as [Hyx Hy].
    repeat (apply StronglySorted_cons; split); auto.
  - auto.
Qed.

Lemma distinctWeights_pairwise items :
  Spec.distinctWeights items <->
  StronglySorted (fun a b => f64.ne (Weight a) (Weight b) = true) items.
Proof.
  split.
  - induction items as [|x items IH]; intros Hd; [constructor|].
    constructor.
    + apply IH. intros i j a b Hij Hi Hj. apply (Hd (S i) (S j)); auto.
    + apply Forall_forall. intros y Hy.
      apply list_elem_of_lookup in Hy as [k Hk]. apply (Hd 0%nat (S k)); auto.
  - induction 1 as [|x items Hs IH Hx]; intros i j a b Hij Hi Hj.
    + inversion Hi.
    + rewrite Forall_forall in Hx. destruct i as [|i], j as [|j]; simpl in *.
      * congruence.
      * injection Hi as <-. apply Hx, list_elem_of_lookup; eauto.
      * injection Hj as <-. apply f64_facts.ne_sym, Hx, list_elem_of_lookup; eauto.
      * apply (IH i j); auto.
Qed.

Lemma distinctWeights_perm items items' :
  items ≡ₚ items' -> Spec.distinctWeights items -> Spec.distinctWeights items'.
Proof.
  intros Hperm Hd. apply distinctWeights_pairwise.
  eapply pairwise_perm; [|exact Hperm|apply distinctWeights_pairwise, Hd].
  intros a b. apply f64_facts.ne_sym.
Qed.

(** Two descending arrangements of the same items are the same. *)
Lemma descending_unique l l' :
  Spec.descending l -> Spec.descending l' -> l ≡ₚ l' -> l = l'.
Proof.
  apply StronglySorted_unique_strong.
  intros x y _ _ Hxy Hyx.
  apply f64_facts.gt_not_ge in Hxy. apply f64_facts.gt_ge in Hyx. congruence.
Qed.

Lemma NewFundResult_reorder `{Pdqsort} items items' :
  items ≡ₚ items' -> Spec.numberWeights items -> Spec.distinctWeights items ->
  MainGo.NewFundResult items' = MainGo.NewFundResult items.
Proof.
  intros Hperm Hnum Hdist.
  assert (E : Funds (MainGo.NewFundResult items') = Funds (MainGo.NewFundResult items)).
  { apply descending_unique.
    - apply NewFundResult_descending.
      + unfold Spec.numberWeights. rewrite <- Hperm. exact Hnum.
      + eapply distinctWeights_perm; eassumption.
    - apply NewFundResult_descending; assumption.
    - simpl. rewrite !sort_facts.Slice_perm. symmetry. exact Hperm. }
  unfold MainGo.NewFundResult in *. simpl in E. rewrite E. reflexivity.
Qed.

End order_facts.

(** ** Items of equal weight *)

Module ties_facts.
Import sort.
Import Spec.

Lemma bubble_ascending x r :
  Spec.numberWeights (x :: r) -> ascending r -> ascending (bubble byWeight x r).
Proof.
  unfold ascending, Spec.numberWeights.
  induction r as [|p r IH]; intros Hnum Hr; simpl.
  - repeat constructor.
  - apply Forall_cons in Hnum as [Hx Hnum]. pose proof Hnum as Hnum'.
    apply Forall_cons in Hnum' as [Hp Hnum'].
    apply StronglySorted_cons in Hr as [Hpr Hr].
    unfold byWeight at 1. destruct (f64.ge (Weight x) (Weight p)) eqn:E.
    + apply StronglySorted_cons. split.
      * rewrite sort_facts.bubble_perm. constructor; assumption.
      * apply IH; [constructor; assumption|exact Hr].
    + pose proof (f64_facts.not_ge_gt _ _ Hx Hp E) as G.
      apply StronglySorted_cons. split.
      * constructor; [apply f64_facts.gt_ge, G|].
        eapply Forall_impl; [exact Hpr|]. intros q Hq. simpl in Hq.
        apply f64_facts.gt_ge. eapply f64_facts.ge_gt_trans; eassumption.
      * apply StronglySorted_cons. split; assumption.
Qed.

Lemma ofWeight_none w l :
  (forall q, q ∈ l -> f64.eq (Weight q) w = true -> False) -> Spec.ofWeight w l = [].
Proof.
  unfold Spec.ofWeight. intros Hnone.
  destruct (filter _ l) as [|y l'] eqn:E; [reflexivity|]. exfalso.
  assert (Hy : y ∈ filter (fun item => f64.eq (Weight item) w = true) l)
    by (rewrite E; left).
  apply list_elem_of_filter in Hy as [Hw Hy]. eauto.
Qed.

(** [bubble] leaves the new item behind the items of its weight. *)
Lemma ofWeight_bubble w x r :
  Spec.numberWeights (x :: r) -> ascending r ->
  Spec.ofWeight w (bubble byWeight x r) = Spec.ofWeight w r ++ Spec.ofWeight w [x].
Proof.
  unfold ascending, Spec.numberWeights, Spec.ofWeight.
  induction r as [|p r IH]; intros Hnum Hr; simpl.
  - reflexivity.
  - apply Forall_cons in Hnum as [Hx Hnum]. pose proof Hnum as Hnum'.
    apply Forall_cons in Hnum' as [Hp Hnum'].
    apply StronglySorted_cons in Hr as [Hpr Hr].
    unfold byWeight at 1. destruct (f64.ge (Weight x) (Weight p)) eqn:E.
    + rewrite !(filter_cons _ p), IH by (try constructor; assumption).
      destruct (decide _); reflexivity.
    + pose proof (f64_facts.not_ge_gt _ _ Hx Hp E) as G.
      rewrite (filter_cons _ x). destruct (decide _) as [Hw|Hw].
      * (* every item from [p] on is heavier than [x] *)
        assert (Hnone : filter (fun item => f64.eq (Weight item) w = true) (p :: r) = []).
        { apply (ofWeight_none w (p :: r)). intros q Hq Hqw.
          assert (Hqp : f64.ge (Weight q) (Weight p) = true).
          { apply elem_of_cons in Hq as [->|Hq]; [apply f64_facts.ge_refl, Hp|].
            rewrite Forall_forall in Hpr. apply Hpr, Hq. }
          pose proof (f64_facts.ge_gt_trans _ _ _ Hqp G) as Hqx.
          apply f64_facts.gt_eq_false in Hqx.
          pose proof (f64_facts.eq_trans _ _ _ Hw (f64_facts.eq_sym _ _ Hqw)).
          congruence. }
        rewrite Hnone. rewrite filter_cons, decide_True by exact Hw. reflexivity.
      * rewrite (filter_cons _ x [] ), decide_False, app_nil_r by exact Hw. reflexivity.
Qed.

Lemma fold_bubble_ties w data r :
  Spec.numberWeights (r ++ data) -> ascending r ->
  ascending (foldl (fun r x => bubble byWeight x r) r data) /\
  Spec.ofWeight w (foldl (fun r x => bubble byWeight x r) r data) =
    Spec.ofWeight w r ++ Spec.ofWeight w data.
Proof.
  revert r. induction data as [|x data IH]; intros r Hnum Hr; simpl.
  - split; [exact Hr|]. unfold Spec.ofWeight. rewrite filter_nil, app_nil_r. reflexivity.
  - assert (Hxr : Spec.numberWeights (x :: r)).
    { unfold Spec.numberWeights in *. rewrite Forall_app, Forall_cons in Hnum.
      constructor; tauto. }
    destruct (IH (bubble byWeight x r)) as [H1 H2].
    + unfold Spec.numberWeights in *.
      rewrite Forall_app, sort_facts.bubble_perm. rewrite Forall_app in Hnum.
      destruct Hnum as [Hr' Hd]. apply Forall_cons in Hd as [Hx Hd].
      split; [constructor; assumption|exact Hd].
    + apply bubble_ascending; assumption.
    + split; [exact H1|]. rewrite H2, ofWeight_bubble by assumption.
      unfold Spec.ofWeight. rewrite <- app_assoc, <- filter_app. reflexivity.
Qed.

(** The insertion sort under [byWeight]: the result does not increase
    in weight, and the items of one weight come out in the reverse of
    their order in the input. *)
Lemma isort_ties w items :
  Spec.numberWeights items ->
  Spec.nonIncreasing (isort byWeight items) /\
  Spec.ofWeight w (isort byWeight items) = reverse (Spec.ofWeight w items).
Proof.
  intros Hnum. destruct (fold_bubble_ties w items []) as [H1 H2].
  - exact Hnum.
  - constructor.
  - unfold isort. split.
    + apply sort_facts.StronglySorted_reverse. exact H1.
    + unfold Spec.ofWeight in *. rewrite filter_reverse, H2. reflexivity.
Qed.

End ties_facts.


Lemma items_distinct_weights :
  Spec.numberWeights items_distinct /\ Spec.distinctWeights items_distinct.
Proof.
  split.
  - repeat constructor.
  - apply order_facts.distinctWeights_pairwise. repeat constructor.
Qed.


Example NewFundResult_items_distinct :
  Funds (MainGo.NewFundResult (H := sort_facts.insertion_Pdqsort) items_distinct) =
  [sample "b" "2.0" 3%float; sample "c" "0.5" 2%float; sample "a" "1.0" 1%float].
Proof. vm_compute. reflexivity. Qed.


(** C5, as the code has it. [sort.Slice] is not stable. For at most 12
    items with number weights (the slices it sorts by insertion) the
    report does not increase in weight, and the items of one weight are
    in the reverse of their order in the input. *)
Theorem NewFundResult_ties_reversed `{sort.Pdqsort} (items : list FundItem) (w : float64) :
  (length items <= sort.maxInsertion)%nat -> Spec.numberWeights items ->
  Spec.nonIncreasing (Funds (MainGo.NewFundResult items)) /\
  Spec.ofWeight w (Funds (MainGo.NewFundResult items)) = reverse (Spec.ofWeight w items).
Proof.
  intros Hlen Hnum. simpl. rewrite sort_facts.Slice_short by exact Hlen.
  apply ties_facts.isort_ties, Hnum.
Qed.

Lemma NewFundResult_ties_reversed_witness :
  (length items_tie <= sort.maxInsertion)%nat /\ Spec.numberWeights items_tie /\
  Spec.nonIncreasing
    (Funds (MainGo.NewFundResult (H := sort_facts.insertion_Pdqsort) items_tie)) /\
  Spec.ofWeight 1%float
    (Funds (MainGo.NewFundResult (H := sort_facts.insertion_Pdqsort) items_tie)) =
  reverse (Spec.ofWeight 1%float items_tie).
Proof.
  assert (Hlen : (length items_tie <= sort.maxInsertion)%nat) by (vm_compute; lia).
  assert (Hnum : Spec.numberWeights items_tie) by repeat constructor.
  split; [exact Hlen|]. split; [exact Hnum|].
  apply (NewFundResult_ties_reversed (H := sort_facts.insertion_Pdqsort));
    assumption.
Defined.

(** C5 fails as stated: of two items of weight 1, the second comes out
    first. *)
Lemma equal_weights_not_stable :
  Funds (MainGo.NewFundResult (H := sort_facts.insertion_Pdqsort) items_tie) =
    [sample "b" "3.0" 1%float; sample "a" "1.0" 1%float] /\
  Spec.ofWeight 1%float
    (Funds (MainGo.NewFundResult (H := sort_facts.insertion_Pdqsort) items_tie)) <>
  Spec.ofWeight 1%float items_tie.
Proof.
  split; [vm_compute; reflexivity|]. vm_compute. intros E. discriminate E.
Qed.

(** C10, as the code has it. The items of the report are a permutation
    of the input, whatever the input; the average is the same for every
    order of the input when the weights are numbers and pairwise
    distinct. *)
Theorem NewFundResult_permutation `{sort.Pdqsort} (items items' : list FundItem) :
  items' ≡ₚ items ->
  Funds (MainGo.NewFundResult items) ≡ₚ items /\
  (Spec.numberWeights items -> Spec.distinctWeights items ->
   Avg (MainGo.NewFundResult items') = Avg (MainGo.NewFundResult items)).
Proof.
  intros Hperm. split.
  - simpl. apply sort_facts.Slice_perm.
  - intros Hnum Hdist.
    rewrite (order_facts.NewFundResult_reorder items items');
      [reflexivity|symmetry; exact Hperm|exact Hnum|exact Hdist].
Qed.

Lemma NewFundResult_permutation_witness :
  let items' := [sample "c" "0.5" 2%float; sample "a" "1.0" 1%float; sample "b" "2.0" 3%float] in
  let N := MainGo.NewFundResult (H := sort_facts.insertion_Pdqsort) in
  items' ≡ₚ items_distinct /\
  Funds (N items_distinct) ≡ₚ items_distinct /\
  Avg (N items') = Avg (N items_distinct).
Proof.
  intros items' N.
  assert (Hperm : items' ≡ₚ items_distinct).
  { apply (Permutation_cons_append
             [sample "a" "1.0" 1%float; sample "b" "2.0" 3%float]). }
  split; [exact Hperm|].
  destruct (NewFundResult_permutation (H := sort_facts.insertion_Pdqsort)
              items_distinct items' Hperm) as [H1 H2].
  split; [exact H1|]. apply H2; apply items_distinct_weights.
Defined.

(** C10 fails as stated: [items_round'] is [items_round] in another
    order, the weights are equal, so the sort hands the items to [avg]
    in two different orders, and 0.3 + 0.2 + 0.1 and 0.1 + 0.2 + 0.3
    differ in float64. *)
Lemma Avg_depends_on_order :
  let N := MainGo.NewFundResult (H := sort_facts.insertion_Pdqsort) in
  items_round' ≡ₚ items_round /\
  Avg (N items_round) = fst (strconv.ParseFloat "0.19999999999999998") /\
  Avg (N items_round') = fst (strconv.ParseFloat "0.20000000000000004") /\
  f64.ne (Avg (N items_round')) (Avg (N items_round)) = true.
Proof.
  intros N. split; [exact (reverse_Permutation items_round)|].
  vm_compute. repeat split.
Qed.

(* ----------------------------------------------------------------- *)
(** ** ConfigSource *)

Module config_facts.

Lemma Split_nonempty s sep : strings.Split s sep <> [].
Proof.
  destruct s as [|c s]; simpl; [discriminate|].
  destruct (Ascii.eqb c sep); [discriminate|].
  destruct (strings.Split s sep); discriminate.
Qed.

(** Splitting at an occurrence of the separator. *)
Lemma Split_app s1 s2 sep :
  strings.Split (s1 ++ String sep s2) sep = strings.Split s1 sep ++ strings.Split s2 sep.
Proof.
  induction s1 as [|c s1 IH]; simpl.
  - rewrite Ascii.eqb_refl. reflexivity.
  - destruct (Ascii.eqb c sep); [rewrite IH; reflexivity|].
    rewrite IH. pose proof (Split_nonempty s1 sep).
    destruct (strings.Split s1 sep); [congruence|reflexivity].
Qed.

(** A separator-free string is one field. *)
Lemma Split_no_sep s sep :
  (forall c, In c (list_ascii_of_string s) -> c <> sep) -> strings.Split s sep = [s].
Proof.
  induction s as [|c s IH]; intros Hno; simpl; [reflexivity|].
  destruct (Ascii.eqb_spec c sep) as [->|_].
  - exfalso. apply (Hno sep); [left|]; reflexivity.
  - rewrite IH; [reflexivity|]. intros c' Hc'. apply Hno. right. exact Hc'.
Qed.


(** The loop sees the lines that are not empty only. *)
Lemma loop_filter split fundIds :
  MainGo_Config.LoadFundIds_loop split fundIds =
  MainGo_Config.LoadFundIds_loop (filter (fun v => v <> EmptyString) split) fundIds.
Proof.
  revert fundIds. induction split as [|v split IH]; intros fundIds; [reflexivity|].
  rewrite filter_cons. simpl. destruct (String.eqb_spec v "") as [->|Hv].
  - rewrite decide_False by congruence. apply IH.
  - rewrite decide_True by exact Hv. simpl.
    destruct (String.eqb_spec v "") as [?|_]; [contradiction|].
    destruct (parseLine v); [apply IH|reflexivity].
Qed.

(** The loop parses each line that is not empty on its own, and keeps
    the results in the order of the lines. *)
Lemma loop_lines split fundIds xs :
  Forall2 (fun v x => parseLine v = Returns x) (filter (fun v => v <> EmptyString) split) xs ->
  MainGo_Config.LoadFundIds_loop split fundIds = Returns (fundIds ++ xs).
Proof.
  revert fundIds xs. induction split as [|v split IH]; intros fundIds xs Hall; simpl.
  - simpl in Hall. inversion Hall. rewrite app_nil_r. reflexivity.
  - rewrite filter_cons in Hall. destruct (String.eqb_spec v "") as [->|Hv].
    + rewrite decide_False in Hall by congruence. apply IH, Hall.
    + rewrite decide_True in Hall by exact Hv.
      inversion Hall as [|? x ? xs' Hx Hxs]; subst. rewrite Hx.
      rewrite (IH _ xs') by exact Hxs. rewrite <- app_assoc. reflexivity.
Qed.

Lemma parseLine_fields v id w rest :
  strings.Split v comma = id :: w :: rest ->
  parseLine v = Returns (FundId.mk id (fst (strconv.ParseFloat w))).
Proof. unfold parseLine. intros ->. reflexivity. Qed.

(** A line without a comma has one field, and [i[1]] is out of range. *)
Lemma parseLine_no_comma v :
  (forall c, In c (list_ascii_of_string v) -> c <> comma) -> parseLine v = Panics.
Proof. intros Hno. unfold parseLine. rewrite Split_no_sep by exact Hno. reflexivity. Qed.

(** A line with a comma has its two fields. *)
Lemma Split_has_sep s sep :
  In sep (list_ascii_of_string s) ->
  exists f1 f2 rest, strings.Split s sep = f1 :: f2 :: rest.
Proof.
  induction s as [|c s IH]; simpl; [contradiction|]. intros Hin.
  destruct (Ascii.eqb_spec c sep) as [->|Hc].
  - pose proof (Split_nonempty s sep).
    destruct (strings.Split s sep) as [|f2 rest]; [congruence|]. eauto.
  - destruct Hin as [Hin|Hin]; [congruence|].
    destruct (IH Hin) as (f1 & f2 & rest & ->). eauto.
Qed.

Lemma parseLine_comma v :
  In comma (list_ascii_of_string v) -> exists x, parseLine v = Returns x.
Proof.
  intros Hin. destruct (Split_has_sep v comma Hin) as (f1 & f2 & rest & E).
  rewrite (parseLine_fields v f1 f2 rest E). eauto.
Qed.




End config_facts.



(** The specification's test: one line with a weight that is not a
    number among valid lines, and an empty line. *)
Example LoadFundIds_example :
  MainGo_Config.LoadFundIds
    (Some ("161725,1.5" ++ String newline ("000001,abc" ++ String newline
       (String newline ("110022,2" ++ String newline EmptyString))))%string) =
  Returns [FundId.mk "161725" 1.5%float; FundId.mk "000001" 0%float;
           FundId.mk "110022" 2%float].
Proof. vm_compute. reflexivity. Qed.

(** "NaN" is a weight that [ParseFloat] reads, and so is "0". *)
Example LoadFundIds_NaN_weight :
  MainGo_Config.LoadFundIds
    (Some ("a,1" ++ String newline ("b,NaN" ++ String newline
       ("c,2" ++ String newline EmptyString)))%string) =
  Returns [FundId.mk "a" 1%float; FundId.mk "b" nan; FundId.mk "c" 2%float] /\
  MainGo_Config.LoadFundIds
    (Some ("a,0" ++ String newline ("b,0" ++ String newline EmptyString))%string) =
  Returns [FundId.mk "a" 0%float; FundId.mk "b" 0%float].
Proof. vm_compute. split; reflexivity. Qed.

(** [src/Fund.go] has no test for the empty line: its [LoadFundIds]
    panics on an absent or empty resource, and on a final newline. *)
Example FundGo_LoadFundIds_empty :
  FundGo_Config.LoadFundIds None = Panics /\
  FundGo_Config.LoadFundIds (Some EmptyString) = Panics /\
  FundGo_Config.LoadFundIds (Some ("161725,1.5" ++ String newline EmptyString)%string) = Panics.
Proof. vm_compute. repeat split. Qed.

(** C9 fails on the code: a non-empty line without a comma makes
    [LoadFundIds] panic at [i[1]] (index out of range [1] with length
    1), in both files; the line is not dropped. *)
Theorem LoadFundIds_no_comma_panics :
  strings.Split "161725" comma = ["161725"%string] /\
  parseLine "161725" = Panics /\
  MainGo_Config.LoadFundIds (Some ("161725" ++ String newline EmptyString)%string) = Panics /\
  FundGo_Config.LoadFundIds (Some "161725"%string) = Panics /\
  MainGo_Config.LoadFundIds
    (Some ("110022,2" ++ String newline ("161725" ++ String newline EmptyString))%string) = Panics.
Proof. vm_compute. repeat split. Qed.

(* ----------------------------------------------------------------- *)
(** ** The run of [GetFundResult] in [main.go] *)

Module run_facts.
Import MainGo_Run.

Section Lists.
Context {A B : Type}.

(** Replacing the element at an index, seen through a [bind] and
    through a sum. *)
Lemma bind_insert (g : A -> list B) (l : list A) i x y :
  l !! i = Some x ->
  exists rest, l ≫= g ≡ₚ g x ++ rest /\ <[i:=y]> l ≫= g ≡ₚ g y ++ rest.
Proof.
  intros Hi. exists ((take i l ++ drop (S i) l) ≫= g).
  rewrite insert_take_drop by (eapply lookup_lt_Some; exact Hi).
  rewrite <- (take_drop_middle l i x Hi) at 1.
  rewrite !bind_app, !bind_cons. split; solve_Permutation.
Qed.

Lemma sum_insert (g : A -> nat) (l : list A) i x y :
  l !! i = Some x ->
  exists n, sum_list_with g l = (g x + n)%nat /\
            sum_list_with g (<[i:=y]> l) = (g y + n)%nat.
Proof.
  intros Hi. exists (sum_list_with g (take i l ++ drop (S i) l)).
  rewrite insert_take_drop by (eapply lookup_lt_Some; exact Hi).
  rewrite <- (take_drop_middle l i x Hi) at 1.
  rewrite !sum_list_with_app. simpl. lia.
Qed.

End Lists.

(** The workers that have called [wg.Done()]: those that exited, and
    those that panicked and are about to end the process. *)
Lemma sum_alive_zero (ws : list worker) :
  sum_list_with alive ws = O -> Forall (fun w => alive w = O) ws.
Proof.
  induction ws as [|w ws IH]; intros Hsum; [constructor|].
  simpl in Hsum. constructor; [lia|apply IH; lia].
Qed.

Lemma alive_exists (ws : list worker) :
  (0 < sum_list_with alive ws)%nat -> exists i w, ws !! i = Some w /\ alive w = 1%nat.
Proof.
  induction ws as [|w ws IH]; simpl; [lia|]. intros Hsum.
  destruct (alive w) eqn:Ew.
  - destruct IH as (i & w' & Hi & Hw); [lia|]. exists (S i), w'. split; assumption.
  - exists O, w. split; [reflexivity|]. destruct w; simpl in *; congruence.
Qed.

Lemma exited_nothing (ws : list worker) :
  Forall (fun w => alive w = O) ws ->
  ws ≫= worker_item = [] /\ ws ≫= worker_request = [].
Proof.
  induction 1 as [|w ws Hw _ [IH1 IH2]]; [split; reflexivity|].
  rewrite !bind_cons, IH1, IH2. destruct w; try discriminate; split; reflexivity.
Qed.

(** Without a worker that panicked they have all exited. *)
Lemma exited_all (ws : list worker) :
  Forall (fun w => alive w = O) ws -> ws ≫= worker_lost = [] ->
  ws = replicate (length ws) WExited.
Proof.
  induction 1 as [|w ws Hw _ IH]; [reflexivity|].
  rewrite bind_cons. destruct w; try discriminate; simpl.
  intros Hlost. f_equal. apply IH, Hlost.
Qed.

Section Run.
Context `{sort.Pdqsort}.
Variable GetFund : string -> fetched.
Variable fundIds : list FundId.

Abbreviation invariant := (invariant GetFund fundIds).
Abbreviation step := (step GetFund).
Abbreviation steps := (steps GetFund).

Lemma invariant_init : invariant (init fundIds).
Proof.
  constructor; unfold delivered, outstanding, lost; simpl; rewrite ?app_nil_r;
    try reflexivity; try discriminate.
  - apply Forall_forall. auto.
  - constructor.
  - auto.
Qed.

(** A worker that moves on leaves the rest of the state alone. *)
Ltac worker_moves Hi :=
  let rest := fresh "rest" in
  let rest' := fresh "rest'" in
  let rest'' := fresh "rest''" in
  let n := fresh "n" in
  match type of Hi with
  | _ !! _ = Some ?x =>
      match goal with
      | |- context [<[_ := ?y]> _] =>
          destruct (bind_insert worker_item _ _ x y Hi) as (rest & ? & ?);
          destruct (bind_insert worker_request _ _ x y Hi) as (rest' & ? & ?);
          destruct (bind_insert worker_lost _ _ x y Hi) as (rest'' & ? & ?);
          destruct (sum_insert alive _ _ x y Hi) as (n & ? & ?)
      end
  end.

(** Membership in a list put together from others. *)
Ltac members H :=
  repeat rewrite bind_app in H; repeat rewrite bind_app; simpl in H |- *;
  repeat (rewrite elem_of_app in H || rewrite elem_of_cons in H
          || rewrite elem_of_nil in H);
  repeat (rewrite elem_of_app || rewrite elem_of_cons || rewrite elem_of_nil).

Lemma invariant_step s s' : invariant s -> step s (Running s') -> invariant s'.
Proof.
  intros [Hitems Hreq Hlost Hfatal Hwg Hcg Hsp Hj Hcl Hlv Hret] Hstep.
  unfold delivered, outstanding, lost in Hitems, Hreq, Hlost, Hfatal.
  inversion Hstep; subst; clear Hstep;
    repeat match goal with
    | E : pc s = _ |- _ => rewrite E in *
    | E : cons s = _ |- _ => rewrite E in *
    | E : closed s = _ |- _ => rewrite E in *
    end; simpl in *;
    constructor; unfold delivered, outstanding, lost; simpl;
    repeat match goal with
    | E : pc s = _ |- _ => rewrite E in *
    | E : cons s = _ |- _ => rewrite E in *
    | E : closed s = _ |- _ => rewrite E in *
    end; simpl in *;
    try assumption; try discriminate; try reflexivity; try lia; try (intros; discriminate).
  (* the report is returned by the last step only *)
  all: try (intros r E; destruct (Hret r E) as [? ?]; discriminate).
  (* a request whose fetch ends the process is not fetched *)
  all: try match goal with
       | |- forall f, f ∈ fundIds -> _ =>
           let x := fresh "x" in let Hx := fresh "Hx" in let Hf := fresh "Hf" in
           intros x Hx Hf; specialize (Hfatal x Hx Hf)
       end.
  (* a worker moved *)
  all: try match goal with
       | Hi : workers _ !! _ = Some _ |- _ => worker_moves Hi
       end.
  all: repeat match goal with
       | E : <[_:=_]> _ ≫= _ ≡ₚ _ |- _ => rewrite E; clear E
       | E : sum_list_with _ (<[_:=_]> _) = _ |- _ => rewrite E; clear E
       | E : workers _ ≫= _ ≡ₚ _ |- _ =>
           try rewrite E in Hitems; try rewrite E in Hreq; try rewrite E in Hlost;
           try rewrite E in Hfatal; clear E
       | E : sum_list_with _ (workers _) = _ |- _ => rewrite E in Hwg; clear E
       end; simpl in *.
  all: try lia.
  all: try (intros Ej; specialize (Hj Ej); lia).
  all: try assumption.
  all: try match goal with
       | |- Forall (fun _ => GetFund _ = NilResponse) _ =>
           rewrite ?bind_app in *; simpl in *;
           rewrite ?Forall_app, ?Forall_cons, ?Forall_nil in *; tauto
       end.
  all: try (rewrite <- Hitems; rewrite ?bind_app; simpl;
            rewrite ?fmap_app, ?fmap_cons;
            repeat match goal with
            | E : fetchItem _ _ = Some _ |- _ => rewrite E
            end;
            solve_Permutation).
  all: try (rewrite sum_list_with_app; simpl; lia).
  all: try (intros r E; injection E as <-; split; [reflexivity|];
            destruct (cons s); simpl in *; try reflexivity; lia).
  all: try (rewrite Forall_forall in Hreq |- *;
            let y := fresh "y" in let Hy := fresh "Hy" in
            intros y Hy; apply Hreq; members Hy; tauto).
  all: members Hfatal; try tauto.
  all: destruct Hfatal as [->|?]; try tauto.
  all: exfalso; unfold fetchItem in *; rewrite Hf in *; discriminate.
Qed.

(** [act] and [step] are the same steps. *)
Lemma act_step a s c : act GetFund a s = Some c -> step s c.
Proof.
  destruct a; simpl; intros Hact;
    repeat match type of Hact with
    | match ?x with _ => _ end = Some _ => destruct x eqn:?; try discriminate
    | (if ?x then _ else _) = Some _ => destruct x eqn:?; try discriminate
    end;
    injection Hact as <-; try (econstructor; eassumption).
  eapply step_fetch; [eassumption|]. unfold fetchItem.
  match goal with E : GetFund _ = Quote _ |- _ => rewrite E end. reflexivity.
Qed.

Lemma step_act s c : step s c -> exists a, act GetFund a s = Some c.
Proof.
  intros Hstep.
  inversion Hstep as [? ? ? Epc|? Epc Ec|? i ? ? Ei Ef|? i ? Ei Ef|? i ? Ei Ef
                     |? i ? Ei Ec Ecl|? i ? Ei Ecl|? ? Ec|? i ? Ei Ewg|? i Ei Ewg
                     |? i ? ? Ei Ewg|? i ? Ei Ewg|? i ? Ei|? Epc Ewg|? Epc
                     |? Ec Ecl|? ? Ec Ecg|? Ec Ecg|? Epc Ecg]; subst;
    [exists ASpawn|exists ASpawnConsumer|exists (AFetch i)|exists (AFetch i)
    |exists (AFetch i)|exists (ASend i)|exists (ASend i)|exists AAppend
    |exists (AWorkerDone i)|exists (AWorkerDone i)|exists (AWorkerDone i)
    |exists (AWorkerDone i)|exists (ACrash i)|exists AWaitWorkers|exists AClose
    |exists ARangeEnd|exists AConsumerDone|exists AConsumerDone|exists AReturn];
    simpl;
    try (unfold fetchItem in Ef; destruct (GetFund _) eqn:Eg; try discriminate;
         injection Ef as <-);
    repeat match goal with
    | E : _ = _ |- _ => rewrite E; clear E
    end; reflexivity.
Qed.

Lemma exec_steps schedule c c' : exec GetFund schedule c = Some c' -> steps c c'.
Proof.
  revert c. induction schedule as [|a schedule IH]; intros c; simpl.
  - intros [= <-]. apply steps_refl.
  - destruct c as [s| |]; try discriminate.
    destruct (act GetFund a s) as [c1|] eqn:Ea; [|discriminate].
    intros Hexec. eapply steps_step; [eapply act_step; exact Ea|apply IH, Hexec].
Qed.

(** A schedule that ends with a report is a run that returns it. *)
Lemma exec_returns schedule r :
  exec GetFund schedule (Running (init fundIds)) ≫= report = Some r ->
  GetFundResult_returns GetFund fundIds r.
Proof.
  destruct (exec GetFund schedule (Running (init fundIds))) as [c|] eqn:E;
    [|discriminate].
  apply exec_steps in E. simpl. destruct c as [s| |]; try discriminate. simpl.
  destruct (pc s) as [| | | |r'] eqn:Epc; try discriminate.
  intros [= <-]. exists s. split; assumption.
Qed.

(** A worker that has not called [wg.Done()] keeps the counter of the
    group above zero. *)
Lemma alive_worker s i w :
  invariant s -> workers s !! i = Some w -> alive w = 1%nat ->
  (0 < workerGroup s)%nat /\ joined (pc s) = false /\ closed s = false.
Proof.
  intros Hinv Hi Hw.
  destruct (sum_insert alive _ _ w WExited Hi) as (n & Hn & _).
  assert (Hpos : (0 < workerGroup s)%nat).
  { rewrite (inv_workerGroup _ _ _ Hinv), Hn, Hw. lia. }
  assert (Hj : joined (pc s) = false).
  { destruct (joined (pc s)) eqn:E; [|reflexivity].
    pose proof (inv_joined _ _ _ Hinv E). lia. }
  split_and!; [exact Hpos|exact Hj|].
  rewrite (inv_closed _ _ _ Hinv). destruct (pc s); try reflexivity; discriminate.
Qed.

(** The request of a worker that panicked is one whose fetch had no
    response. *)
Lemma lost_request s f :
  invariant s -> f ∈ lost s ->
  f ∈ fundIds /\ GetFund (FundId.Id f) = NilResponse.
Proof.
  intros Hinv Hin. split.
  - pose proof (inv_requests _ _ _ Hinv) as Hreq. rewrite Forall_forall in Hreq.
    apply Hreq, elem_of_app. right. exact Hin.
  - pose proof (inv_lost _ _ _ Hinv) as Hl. rewrite Forall_forall in Hl.
    apply Hl, Hin.
Qed.

Lemma worker_lost_in s i w f :
  workers s !! i = Some w -> f ∈ worker_lost w -> f ∈ lost s.
Proof.
  intros Hi Hf. unfold lost. apply list_elem_of_bind. exists w.
  split; [exact Hf|]. apply list_elem_of_lookup. eauto.
Qed.

(** A request with a quote is not one without a response, nor one with
    an undecodable body. *)
Lemma quote_all f :
  Forall (fun f => is_Some (fetchItem GetFund f)) fundIds -> f ∈ fundIds ->
  exists fund, GetFund (FundId.Id f) = Quote fund.
Proof.
  intros Hall Hin. rewrite Forall_forall in Hall.
  destruct (Hall f Hin) as [item E]. unfold fetchItem in E.
  destruct (GetFund (FundId.Id f)) as [fund| |]; try discriminate. eauto.
Qed.

(** The one panic is that of a worker whose fetch had no response: no
    send meets the closed channel, no counter goes below zero. *)
Lemma panic_crash s :
  invariant s -> step s Panicked ->
  exists i f, workers s !! i = Some (WCrashing f) /\
              f ∈ fundIds /\ GetFund (FundId.Id f) = NilResponse.
Proof.
  intros Hinv Hstep. inversion Hstep as [| | | | | |? i ? Hi Hcl| |
                                         |? i Hi Hwg| |? i ? Hi Hwg|? i f Hi| | | |
                                         |? Hc Hcg|]; subst.
  - edestruct alive_worker as (_ & _ & Hcl'); [exact Hinv|exact Hi|reflexivity|].
    congruence.
  - edestruct alive_worker as (Hpos & _ & _); [exact Hinv|exact Hi|reflexivity|].
    lia.
  - edestruct alive_worker as (Hpos & _ & _); [exact Hinv|exact Hi|reflexivity|].
    lia.
  - exists i, f. split; [exact Hi|]. apply (lost_request s f Hinv).
    apply (worker_lost_in s i _ f Hi). left.
  - pose proof (inv_consumerGroup _ _ _ Hinv) as Hcg'.
    rewrite Hc in Hcg'. lia.
Qed.

(** The process exits in the fetch of a request whose body cannot be
    decoded. *)
Lemma exit_fatal s :
  invariant s -> step s Exited ->
  exists f, f ∈ fundIds /\ GetFund (FundId.Id f) = LogFatal.
Proof.
  intros Hinv Hstep.
  inversion Hstep as [| | |? i f Hi Hf| | | | | | | | | | | | | | |]; subst.
  exists f. split; [|exact Hf].
  pose proof (inv_requests _ _ _ Hinv) as Hreq. rewrite Forall_forall in Hreq.
  apply Hreq, elem_of_app. left. unfold outstanding. apply elem_of_app. left.
  apply list_elem_of_bind. exists (WStart f). split; [left|].
  apply list_elem_of_lookup. eauto.
Qed.

(** When every request has a quote, no goroutine panics and no fetch
    ends the process. *)
Lemma no_panic s :
  Forall (fun f => is_Some (fetchItem GetFund f)) fundIds ->
  invariant s -> ~ step s Panicked.
Proof.
  intros Hall Hinv Hstep.
  destruct (panic_crash s Hinv Hstep) as (i & f & _ & Hin & Hf).
  destruct (quote_all f Hall Hin) as [fund E]. congruence.
Qed.

Lemma no_exit s :
  Forall (fun f => is_Some (fetchItem GetFund f)) fundIds ->
  invariant s -> ~ step s Exited.
Proof.
  intros Hall Hinv Hstep.
  destruct (exit_fatal s Hinv Hstep) as (f & Hin & Hf).
  destruct (quote_all f Hall Hin) as [fund E]. congruence.
Qed.

(** No deadlock: a state in which [GetFundResult] has not returned can
    take a step. *)
Lemma progress s :
  invariant s -> (forall r, pc s <> MReturned r) -> exists c, step s c.
Proof.
  intros Hinv Hpc.
  pose proof (inv_workerGroup _ _ _ Hinv) as Hwg.
  pose proof (inv_consumerGroup _ _ _ Hinv) as Hcg.
  pose proof (inv_spawning _ _ _ Hinv) as Hsp.
  pose proof (inv_closed _ _ _ Hinv) as Hcl.
  pose proof (inv_leaving _ _ _ Hinv) as Hlv.
  destruct (pc s) as [[|f rest]| | | |r] eqn:Epc; simpl in *.
  - destruct (cons s) eqn:Ec; try discriminate.
    eexists. apply step_spawn_consumer; assumption.
  - eexists. eapply step_spawn. exact Epc.
  - (* workerGroup.Wait() *)
    destruct (workerGroup s) as [|n] eqn:Ewg.
    + eexists. apply step_wait_workers; assumption.
    + destruct (alive_exists (workers s)) as (i & w & Hi & Hw); [lia|].
      destruct w as [f|item| | |f|f]; try discriminate.
      * destruct (GetFund (FundId.Id f)) as [fund| |] eqn:Ef.
        -- eexists. eapply step_fetch; [exact Hi|].
           unfold fetchItem. rewrite Ef. reflexivity.
        -- eexists. eapply step_fetch_fatal; eassumption.
        -- eexists. eapply step_fetch_panic; eassumption.
      * destruct (cons s) eqn:Ec; simpl in *; try discriminate.
        -- eexists. eapply step_send; eassumption.
        -- eexists. eapply step_append. exact Ec.
        -- specialize (Hlv eq_refl). congruence.
        -- specialize (Hlv eq_refl). congruence.
      * eexists. eapply step_worker_done; eassumption.
      * eexists. eapply step_panic_done; eassumption.
  - eexists. apply step_close. exact Epc.
  - (* consumerGroup.Wait() *)
    destruct (cons s) eqn:Ec; simpl in *; try discriminate.
    + eexists. apply step_range_end; assumption.
    + eexists. eapply step_append. exact Ec.
    + eexists. eapply step_consumer_done; eassumption.
    + eexists. apply step_return; assumption.
  - exfalso. eapply Hpc. reflexivity.
Qed.

(** Every step uses up some of the rank: runs are finite. *)
Lemma step_rank s c : step s c -> (config_rank c < rank s)%nat.
Proof.
  intros Hstep. inversion Hstep; subst; clear Hstep;
    unfold config_rank, rank, set_pc, set_cons, set_worker; simpl;
    repeat match goal with
    | E : pc _ = _ |- _ => rewrite E
    | E : cons _ = _ |- _ => rewrite E
    end; simpl;
    try match goal with
    | Hi : workers _ !! _ = Some ?x |- context [<[_:=?y]> _] =>
        destruct (sum_insert worker_rank _ _ x y Hi) as (n' & -> & ->)
    | Hi : workers _ !! _ = Some ?x |- _ =>
        destruct (sum_insert worker_rank _ _ x x Hi) as (n' & -> & _)
    end; simpl; rewrite ?sum_list_with_app; simpl; lia.
Qed.

(** Along a run the invariant holds; the process exits only on a
    request whose body cannot be decoded, and panics only on a request
    whose fetch had no response. *)
Lemma steps_safe c c' :
  steps c c' -> forall s, c = Running s -> invariant s ->
  match c' with
  | Running s' => invariant s'
  | Exited => exists f, f ∈ fundIds /\ GetFund (FundId.Id f) = LogFatal
  | Panicked => exists f, f ∈ fundIds /\ GetFund (FundId.Id f) = NilResponse
  end.
Proof.
  induction 1 as [c|s0 c c' Hstep Hsteps IH]; intros s E Hinv.
  - subst c. exact Hinv.
  - injection E as ->. destruct c as [s1| |].
    + apply (IH s1 eq_refl). eapply invariant_step; eassumption.
    + inversion Hsteps; subst. eapply exit_fatal; eassumption.
    + inversion Hsteps; subst.
      destruct (panic_crash s Hinv Hstep) as (i & f & _ & Hf). eauto.
Qed.

Lemma invariant_reachable s :
  steps (Running (init fundIds)) (Running s) -> invariant s.
Proof.
  intros Hsteps. apply (steps_safe _ _ Hsteps (init fundIds) eq_refl invariant_init).
Qed.


(** At the return every worker has called [wg.Done()], and nothing is
    on its way. *)
Lemma returned_workers s r :
  invariant s -> pc s = MReturned r ->
  Forall (fun w => alive w = O) (workers s) /\
  delivered s = items s /\ outstanding s = [].
Proof.
  intros Hinv Epc.
  destruct (inv_returned _ _ _ Hinv r Epc) as [_ Ec].
  pose proof (inv_workerGroup _ _ _ Hinv) as Hwg.
  rewrite (inv_joined _ _ _ Hinv) in Hwg by (rewrite Epc; reflexivity).
  assert (Hall : Forall (fun w => alive w = O) (workers s))
    by (apply sum_alive_zero; lia).
  destruct (exited_nothing _ Hall) as [E1 E2].
  unfold delivered, outstanding. rewrite E1, E2, Ec, Epc. simpl.
  rewrite !app_nil_r. split_and!; [exact Hall|reflexivity..].
Qed.

(** Reading the items off the list of fetches. *)
Lemma omap_Some {A} (l : list A) : omap id (Some <$> l) = l.
Proof.
  induction l as [|x l IH]; [reflexivity|]. rewrite fmap_cons. simpl. f_equal. exact IH.
Qed.

Lemma omap_id {A B} (f : A -> option B) (ids : list A) :
  omap id (f <$> ids) = omap f ids.
Proof.
  induction ids as [|x ids IH]; [reflexivity|].
  rewrite fmap_cons. simpl. destruct (f x); simpl; [f_equal|]; exact IH.
Qed.

Lemma omap_None {A B} (f : A -> option B) (l : list A) :
  Forall (fun x => f x = None) l -> omap f l = [].
Proof.
  induction 1 as [|x l Hx _ IH]; [reflexivity|]. simpl. rewrite Hx. exact IH.
Qed.

Lemma fetched_items {A B} (f : A -> option B) (l : list B) (ids : list A) :
  Some <$> l ≡ₚ f <$> ids -> l ≡ₚ omap f ids /\ length l = length ids.
Proof.
  intros Hperm. split.
  - transitivity (omap id (Some <$> l)); [rewrite omap_Some; reflexivity|].
    rewrite Hperm, omap_id. reflexivity.
  - apply Permutation_length in Hperm. rewrite !length_fmap in Hperm. exact Hperm.
Qed.

Lemma fetched_items_lost {A B} (f : A -> option B) (l : list B) (ids lost : list A) :
  Forall (fun x => f x = None) lost ->
  (Some <$> l) ++ (f <$> lost) ≡ₚ f <$> ids ->
  l ≡ₚ omap f ids /\ (length l + length lost = length ids)%nat.
Proof.
  intros Hlost Hperm. split.
  - transitivity (omap id ((Some <$> l) ++ (f <$> lost))).
    + rewrite omap_app, omap_Some, omap_id, (omap_None f lost Hlost), app_nil_r.
      reflexivity.
    + rewrite Hperm, omap_id. reflexivity.
  - apply Permutation_length in Hperm.
    rewrite length_app, !length_fmap in Hperm. exact Hperm.
Qed.

(** The items of a returned report, before the sort: the item of each
    request that has a quote, once.  The other requests are those of
    the workers that panicked. *)
Lemma returned_items s r :
  invariant s -> pc s = MReturned r ->
  r = MainGo.NewFundResult (items s) /\
  (Some <$> items s) ++ (fetchItem GetFund <$> lost s) ≡ₚ fetchItem GetFund <$> fundIds /\
  items s ≡ₚ omap (fetchItem GetFund) fundIds /\
  (length (items s) + length (lost s) = length fundIds)%nat.
Proof.
  intros Hinv Epc.
  destruct (inv_returned _ _ _ Hinv r Epc) as [-> Ec]. split; [reflexivity|].
  pose proof (inv_items _ _ _ Hinv) as Hitems.
  destruct (returned_workers s _ Hinv Epc) as (_ & E1 & E2).
  rewrite E1, E2 in Hitems. simpl in Hitems.
  split; [exact Hitems|].
  apply fetched_items_lost; [|exact Hitems].
  eapply Forall_impl; [apply (inv_lost _ _ _ Hinv)|].
  intros f Hf. unfold fetchItem. simpl in Hf. rewrite Hf. reflexivity.
Qed.

(** When every request has a quote no worker panics. *)
Lemma nothing_lost s :
  Forall (fun f => is_Some (fetchItem GetFund f)) fundIds ->
  invariant s -> lost s = [].
Proof.
  intros Hall Hinv. destruct (lost s) as [|f l] eqn:E; [reflexivity|].
  destruct (lost_request s f Hinv) as [Hin Hf]; [rewrite E; left|].
  destruct (quote_all f Hall Hin) as [fund Ef]. congruence.
Qed.

Lemma returned_all s r :
  Forall (fun f => is_Some (fetchItem GetFund f)) fundIds ->
  invariant s -> pc s = MReturned r ->
  Some <$> items s ≡ₚ fetchItem GetFund <$> fundIds.
Proof.
  intros Hall Hinv Epc.
  destruct (returned_items s r Hinv Epc) as (_ & Hitems & _).
  rewrite (nothing_lost s Hall Hinv) in Hitems. simpl in Hitems.
  rewrite app_nil_r in Hitems. exact Hitems.
Qed.

(** [GetFundResult] does not return once a body cannot be decoded. *)
Lemma fatal_no_return s r f :
  invariant s -> f ∈ fundIds -> GetFund (FundId.Id f) = LogFatal ->
  pc s <> MReturned r.
Proof.
  intros Hinv Hin Hf Epc.
  pose proof (inv_fatal _ _ _ Hinv f Hin Hf) as Hout.
  destruct (returned_workers s r Hinv Epc) as (_ & _ & E).
  rewrite E in Hout. inversion Hout.
Qed.

(** From any state of a run, when every request has a quote, the run
    can be completed. *)
Lemma complete_run s :
  Forall (fun f => is_Some (fetchItem GetFund f)) fundIds ->
  invariant s ->
  exists s' r, steps (Running s) (Running s') /\ pc s' = MReturned r.
Proof.
  intros Hall. remember (rank s) as n eqn:En. revert s En.
  induction n as [n IH] using lt_wf_ind. intros s -> Hinv.
  destruct (pc s) as [rest| | | |r] eqn:Epc;
    try (exists s, r; split; [apply steps_refl|exact Epc]).
  all: destruct (progress s Hinv) as [c Hstep];
    [rewrite Epc; discriminate|].
  all: destruct c as [s1| |];
    [|exfalso; eapply no_exit; eassumption|exfalso; eapply no_panic; eassumption].
  all: destruct (IH (rank s1) (step_rank _ _ Hstep) s1 eq_refl) as (s' & r & Hsteps & Er);
    [eapply invariant_step; eassumption|].
  all: exists s', r; split; [eapply steps_step; eassumption|exact Er].
Qed.

End Run.

(** [src/Fund.go]: the items in the order of the requests. *)
Lemma FundGo_loop GetFund fundIds fundItems l :
  FundGo_Run.GetFundResult_loop GetFund fundIds fundItems = Some l ->
  l = fundItems ++ omap (fetchItem GetFund) fundIds /\
  Some <$> l = (Some <$> fundItems) ++ (fetchItem GetFund <$> fundIds).
Proof.
  revert fundItems. induction fundIds as [|f fundIds IH]; intros fundItems; simpl.
  - intros [= <-]. rewrite !app_nil_r. split; reflexivity.
  - destruct (fetchItem GetFund f) as [item|] eqn:E; [|discriminate].
    intros Hl. destruct (IH _ Hl) as [-> E2]. rewrite E2.
    rewrite fmap_app, <- !app_assoc. simpl. split; reflexivity.
Qed.

End run_facts.



(** Two runs for the requests "a" of weight 1 and "b" of weight 2: in
    the second one the item of "b" reaches the collector first.  The
    report is the same. *)
Example GetFundResult_two_schedules :
  let run schedule :=
    MainGo_Run.exec (H := sort_facts.insertion_Pdqsort) provider schedule
      (MainGo_Run.Running (MainGo_Run.init requests_ascending)) in
  let r := {| Funds := [{| ItemFund := {| FCODE := "b"; SHORTNAME := ""; GZTIME := "";
                                         GSZZL := "1.0" |}; Weight := 2%float |};
                        {| ItemFund := {| FCODE := "a"; SHORTNAME := ""; GZTIME := "";
                                         GSZZL := "1.0" |}; Weight := 1%float |}];
              Avg := 1%float |} in
  (run Schedules.in_order ≫= MainGo_Run.report) = Some r /\
  (run Schedules.out_of_order ≫= MainGo_Run.report) = Some r /\
  MainGo_Run.GetFundResult_returns (H := sort_facts.insertion_Pdqsort)
    provider requests_ascending r.
Proof.
  intros run r. split_and!; [vm_compute; reflexivity..|].
  apply (run_facts.exec_returns _ _ Schedules.in_order). vm_compute. reflexivity.
Qed.

(** What the two [GetFundResult] have in common. *)
Lemma GetFundResult_main_and_FundGo `{sort.Pdqsort} GetFund fundIds r r' :
  MainGo_Run.GetFundResult_returns GetFund fundIds r ->
  FundGo_Run.GetFundResult GetFund fundIds = Some r' ->
  exists items,
    items ≡ₚ Funds r' /\ r = MainGo.NewFundResult items /\
    r' = FundGo.NewFundResult (Funds r').
Proof.
  intros (s & Hsteps & Epc) Hr'.
  apply run_facts.invariant_reachable in Hsteps.
  destruct (run_facts.returned_items _ _ _ _ Hsteps Epc) as (-> & _ & Hitems & _).
  unfold FundGo_Run.GetFundResult in Hr'.
  destruct (FundGo_Run.GetFundResult_loop GetFund fundIds []) as [l|] eqn:El;
    [|discriminate].
  injection Hr' as <-. apply run_facts.FundGo_loop in El as [-> _]. simpl.
  exists (MainGo_Run.items s). split_and!; try reflexivity.
  exact Hitems.
Qed.

(** C6, as the code has it. The two reports hold the same items:
    [src/Fund.go] in the order of the requests, [main.go] sorted, each
    with the weighted mean of its own sequence.  They are equal when the
    requests come in descending order of weight. *)
Theorem GetFundResult_same_items `{sort.Pdqsort}
    (GetFund : string -> fetched) (fundIds : list FundId) (r r' : FundResult) :
  MainGo_Run.GetFundResult_returns GetFund fundIds r ->
  FundGo_Run.GetFundResult GetFund fundIds = Some r' ->
  Funds r ≡ₚ Funds r' /\
  Funds r' = omap (fetchItem GetFund) fundIds /\
  Avg r = Spec.weighted_mean (Funds r) /\
  Avg r' = Spec.weighted_mean (Funds r') /\
  (Spec.numberWeights (Funds r') -> Spec.descending (Funds r') -> r = r').
Proof.
  intros Hr Hr'.
  destruct (GetFundResult_main_and_FundGo _ _ _ _ Hr Hr') as (items & Hperm & -> & Er').
  split_and!.
  - simpl. rewrite sort_facts.Slice_perm. exact Hperm.
  - unfold FundGo_Run.GetFundResult in Hr'.
    destruct (FundGo_Run.GetFundResult_loop GetFund fundIds []) as [l|] eqn:El;
      [|discriminate].
    injection Hr' as <-. apply run_facts.FundGo_loop in El as [-> _]. reflexivity.
  - unfold MainGo.NewFundResult. simpl.
    apply (avg_facts.avg_weighted_mean {| Funds := _; Avg := _ |}).
  - rewrite Er' at 1. unfold FundGo.NewFundResult. simpl.
    apply (avg_facts.avg_weighted_mean {| Funds := _; Avg := _ |}).
  - intros Hnum Hdesc.
    assert (Hdist : Spec.distinctWeights (Funds r')).
    { apply order_facts.distinctWeights_pairwise.
      eapply order_facts.StronglySorted_weaken; [|exact Hdesc].
      intros a b. apply f64_facts.gt_ne. }
    rewrite (order_facts.NewFundResult_reorder (Funds r') items);
      [|symmetry; exact Hperm|exact Hnum|exact Hdist].
    assert (E : Funds (MainGo.NewFundResult (Funds r')) = Funds r').
    { apply order_facts.descending_unique;
        [apply order_facts.NewFundResult_descending; assumption|exact Hdesc|].
      simpl. apply sort_facts.Slice_perm. }
    destruct r' as [funds average]. unfold FundGo.NewFundResult in Er'. simpl in *.
    injection Er' as Eavg. unfold MainGo.NewFundResult in *. simpl in E.
    rewrite E, <- Eavg. reflexivity.
Qed.

(** With distinct weights the report of [main.go] does not depend on
    the order in which the fetches complete. *)
Lemma GetFundResult_deterministic `{sort.Pdqsort} GetFund fundIds :
  Forall (fun f => is_Some (fetchItem GetFund f)) fundIds ->
  Spec.numberWeights (omap (fetchItem GetFund) fundIds) ->
  Spec.distinctWeights (omap (fetchItem GetFund) fundIds) ->
  forall r, MainGo_Run.GetFundResult_returns GetFund fundIds r <->
            r = MainGo.NewFundResult (omap (fetchItem GetFund) fundIds).
Proof.
  intros Hall Hnum Hdist.
  assert (Hdet : forall r, MainGo_Run.GetFundResult_returns GetFund fundIds r ->
                   r = MainGo.NewFundResult (omap (fetchItem GetFund) fundIds)).
  { intros r (s & Hsteps & Epc).
    apply run_facts.invariant_reachable in Hsteps.
    destruct (run_facts.returned_items _ _ _ _ Hsteps Epc) as (-> & _ & Hitems & _).
    apply order_facts.NewFundResult_reorder; [|exact Hnum|exact Hdist].
    symmetry. exact Hitems. }
  intros r. split; [apply Hdet|]. intros ->.
  destruct (run_facts.complete_run GetFund fundIds _ Hall
              (run_facts.invariant_init GetFund fundIds)) as (s & r & Hsteps & Epc).
  assert (Hr : MainGo_Run.GetFundResult_returns GetFund fundIds r)
    by (exists s; split; assumption).
  rewrite <- (Hdet r Hr). exact Hr.
Qed.

Lemma provider_requests :
  (Forall (fun f => is_Some (fetchItem provider f)) requests_descending /\
   Spec.numberWeights (omap (fetchItem provider) requests_descending) /\
   Spec.distinctWeights (omap (fetchItem provider) requests_descending)) /\
  (Forall (fun f => is_Some (fetchItem provider f)) requests_ascending /\
   Spec.numberWeights (omap (fetchItem provider) requests_ascending) /\
   Spec.distinctWeights (omap (fetchItem provider) requests_ascending)).
Proof.
  split; split_and!; try (repeat constructor; eexists; reflexivity);
    try (repeat constructor);
    apply order_facts.distinctWeights_pairwise; repeat constructor.
Qed.

Lemma GetFundResult_same_items_witness :
  let r := MainGo.NewFundResult (H := sort_facts.insertion_Pdqsort)
             (omap (fetchItem provider) requests_descending) in
  let r' := FundGo.NewFundResult (omap (fetchItem provider) requests_descending) in
  MainGo_Run.GetFundResult_returns (H := sort_facts.insertion_Pdqsort)
    provider requests_descending r /\
  FundGo_Run.GetFundResult provider requests_descending = Some r' /\
  Funds r ≡ₚ Funds r' /\ r = r'.
Proof.
  intros r r'.
  assert (Hr : MainGo_Run.GetFundResult_returns (H := sort_facts.insertion_Pdqsort)
                 provider requests_descending r).
  { apply (run_facts.exec_returns _ _ Schedules.out_of_order). vm_compute. reflexivity. }
  assert (Hr' : FundGo_Run.GetFundResult provider requests_descending = Some r')
    by reflexivity.
  destruct (GetFundResult_same_items (H := sort_facts.insertion_Pdqsort)
              provider requests_descending r r' Hr Hr') as (Hperm & _ & _ & _ & Heq).
  split_and!; [exact Hr|exact Hr'|exact Hperm|].
  apply Heq.
  - repeat constructor.
  - repeat constructor.
Defined.

(** C6 fails as stated: for the requests "a" of weight 1 and "b" of
    weight 2, [main.go] returns "b" before "a" in every run, and
    [src/Fund.go] returns "a" before "b". *)
Lemma GetFundResult_differ :
  (exists r, MainGo_Run.GetFundResult_returns (H := sort_facts.insertion_Pdqsort)
               provider requests_ascending r) /\
  (forall r, MainGo_Run.GetFundResult_returns (H := sort_facts.insertion_Pdqsort)
               provider requests_ascending r ->
     FCODE ∘ ItemFund <$> Funds r = ["b"; "a"]%string /\
     FundGo_Run.GetFundResult provider requests_ascending <> Some r) /\
  (exists r', FundGo_Run.GetFundResult provider requests_ascending = Some r' /\
     FCODE ∘ ItemFund <$> Funds r' = ["a"; "b"]%string).
Proof.
  destruct provider_requests as [_ (Hall & Hnum & Hdist)].
  pose proof (GetFundResult_deterministic (H := sort_facts.insertion_Pdqsort)
                provider requests_ascending Hall Hnum Hdist) as Hdet.
  split_and!.
  - eexists. apply Hdet. reflexivity.
  - intros r Hr. apply Hdet in Hr. subst r. split; [vm_compute; reflexivity|].
    vm_compute. intros E. discriminate E.
  - eexists. split; [reflexivity|]. vm_compute. reflexivity.
Qed.

(* ================================================================= *)
(** * Part II, continued: the rest of the two files *)

(* ----------------------------------------------------------------- *)
(** ** [LoadFundIds]: the lines it rejects, the lines it reads *)

Module resource_facts.

Lemma In_app (s1 s2 : string) c :
  In c (list_ascii_of_string (s1 ++ s2)%string) <->
  In c (list_ascii_of_string s1) \/ In c (list_ascii_of_string s2).
Proof.
  induction s1 as [|a s1 IH]; simpl; [tauto|]. rewrite IH. tauto.
Qed.

Lemma free_empty sep : free sep EmptyString.
Proof. intros []. Qed.

Lemma free_app sep (s1 s2 : string) :
  free sep (s1 ++ s2)%string <-> free sep s1 /\ free sep s2.
Proof. unfold free. rewrite In_app. tauto. Qed.

Lemma free_Split s sep : free sep s -> strings.Split s sep = [s].
Proof.
  intros Hfree. apply config_facts.Split_no_sep. intros c Hc ->. exact (Hfree Hc).
Qed.

(** [i[1]] is out of range exactly on a line without a comma. *)
Lemma parseLine_Panics v : parseLine v = Panics <-> free comma v.
Proof.
  split.
  - intros E Hin. destruct (config_facts.parseLine_comma v Hin) as [x Hx]. congruence.
  - intros Hfree. apply config_facts.parseLine_no_comma. intros c Hc ->. exact (Hfree Hc).
Qed.

(** The loop of [main.go] panics at the first line that is not empty and
    has no comma. *)
Lemma MainGo_loop_Panics split fundIds :
  MainGo_Config.LoadFundIds_loop split fundIds = Panics <->
  Exists (fun v => v <> EmptyString /\ free comma v) split.
Proof.
  revert fundIds. induction split as [|v split IH]; intros fundIds; simpl.
  - split; [discriminate|]. intros Hex. inversion Hex.
  - rewrite Exists_cons. destruct (String.eqb_spec v "") as [->|Hv].
    + rewrite IH. split; [tauto|]. intros [[Hne _]|Hex]; [congruence|exact Hex].
    + destruct (parseLine v) as [x|] eqn:E.
      * rewrite IH. split; [tauto|]. intros [[_ Hfree]|Hex]; [|exact Hex].
        apply parseLine_Panics in Hfree. congruence.
      * split; [|reflexivity]. intros _. left. split; [exact Hv|].
        apply parseLine_Panics, E.
Qed.

(** The loop of [src/Fund.go] panics at the first line without a comma. *)
Lemma FundGo_loop_Panics split fundIds :
  FundGo_Config.LoadFundIds_loop split fundIds = Panics <->
  Exists (free comma) split.
Proof.
  revert fundIds. induction split as [|v split IH]; intros fundIds; simpl.
  - split; [discriminate|]. intros Hex. inversion Hex.
  - rewrite Exists_cons. destruct (parseLine v) as [x|] eqn:E.
    + rewrite IH. split; [tauto|]. intros [Hfree|Hex]; [|exact Hex].
      apply parseLine_Panics in Hfree. congruence.
    + split; [|reflexivity]. intros _. left. apply parseLine_Panics, E.
Qed.

(** Where the loop of [src/Fund.go] returns, the loop of [main.go]
    returns the same. *)
Lemma FundGo_loop_MainGo split fundIds xs :
  FundGo_Config.LoadFundIds_loop split fundIds = Returns xs ->
  MainGo_Config.LoadFundIds_loop split fundIds = Returns xs.
Proof.
  revert fundIds. induction split as [|v split IH]; intros fundIds; simpl; [tauto|].
  destruct (parseLine v) as [x|] eqn:E; [|discriminate].
  destruct (String.eqb_spec v "") as [->|Hv]; [discriminate E|]. apply IH.
Qed.

Lemma FundGo_loop_length split fundIds xs :
  FundGo_Config.LoadFundIds_loop split fundIds = Returns xs ->
  length xs = (length fundIds + length split)%nat.
Proof.
  revert fundIds. induction split as [|v split IH]; intros fundIds; simpl.
  - intros [= <-]. lia.
  - destruct (parseLine v) as [x|] eqn:E; [|discriminate].
    intros Hxs. apply IH in Hxs. rewrite length_app in Hxs. simpl in Hxs. lia.
Qed.

(** The requests of [main.go]: one per line that is not empty. *)
Lemma MainGo_loop_length split fundIds xs :
  MainGo_Config.LoadFundIds_loop split fundIds = Returns xs ->
  length xs = (length fundIds + length (filter (fun v => v <> EmptyString) split))%nat.
Proof.
  revert fundIds. induction split as [|v split IH]; intros fundIds; simpl.
  - intros [= <-]. simpl. lia.
  - rewrite filter_cons. destruct (String.eqb_spec v "") as [->|Hv].
    + rewrite decide_False by congruence. apply IH.
    + rewrite decide_True by exact Hv. destruct (parseLine v) as [x|]; [|discriminate].
      intros Hxs. apply IH in Hxs. rewrite length_app in Hxs. simpl in *. lia.
Qed.

Lemma LoadFundIds_length file xs :
  MainGo_Config.LoadFundIds file = Returns xs ->
  length xs = length (filter (fun v => v <> EmptyString)
                        (strings.Split (default EmptyString file) newline)).
Proof.
  unfold MainGo_Config.LoadFundIds. intros Hxs%MainGo_loop_length.
  destruct file; exact Hxs.
Qed.

(** *** Joining and splitting *)

Lemma concat_cons sep x y l :
  String.concat (String sep EmptyString) (x :: y :: l) =
  (x ++ String sep (String.concat (String sep EmptyString) (y :: l)))%string.
Proof. reflexivity. Qed.

(** [strings.Split] undoes the join of fields that hold no separator. *)
Lemma Split_concat sep fields :
  fields <> [] -> Forall (free sep) fields ->
  strings.Split (String.concat (String sep EmptyString) fields) sep = fields.
Proof.
  induction fields as [|x [|y l] IH]; intros Hne Hall; [congruence| |].
  - simpl. apply free_Split. inversion Hall; assumption.
  - rewrite concat_cons, config_facts.Split_app. inversion Hall as [|? ? Hx Hl]; subst.
    rewrite (free_Split x sep Hx), IH by (congruence || assumption). reflexivity.
Qed.

(** A byte other than the separator occurs in the join only where it
    occurs in a field. *)
Lemma free_concat c sep fields :
  c <> sep -> Forall (free c) fields ->
  free c (String.concat (String sep EmptyString) fields).
Proof.
  intros Hc. induction fields as [|x [|y l] IH]; intros Hall.
  - apply free_empty.
  - inversion Hall; assumption.
  - rewrite concat_cons. inversion Hall as [|? ? Hx Hl]; subst.
    apply free_app. split; [exact Hx|].
    change (String sep ?s) with (String sep EmptyString ++ s)%string.
    apply free_app. split; [|apply IH, Hl].
    intros [E|[]]. congruence.
Qed.

Lemma filter_all {A} (P : A -> Prop) `{forall x, Decision (P x)} (l : list A) :
  Forall P l -> filter P l = l.
Proof.
  induction 1 as [|x l Hx _ IH]; [reflexivity|].
  rewrite filter_cons, decide_True by exact Hx. f_equal. exact IH.
Qed.

Lemma filter_nil_Forall (l : list string) :
  filter (fun v => v <> EmptyString) l = [] <-> Forall (fun v => v = EmptyString) l.
Proof.
  induction l as [|v l IH]; [split; constructor|].
  rewrite filter_cons, Forall_cons. destruct (decide (v <> EmptyString)) as [Hv|Hv].
  - split; [discriminate|]. intros [? _]. contradiction.
  - rewrite IH. apply dec_stable in Hv. tauto.
Qed.

Import Resource.

Lemma wellFormed_free e :
  wellFormed e -> Forall (free comma) (fields e) /\ Forall (free newline) (fields e).
Proof.
  unfold wellFormed. intros Hwf.
  split; (eapply Forall_impl; [exact Hwf|]); simpl; tauto.
Qed.

Lemma parseLine_line e : wellFormed e -> parseLine (line e) = Returns (request e).
Proof.
  intros [Hc _]%wellFormed_free.
  apply (config_facts.parseLine_fields _ e.1.1 e.1.2 e.2).
  apply Split_concat; [discriminate|exact Hc].
Qed.

Lemma line_nonempty e : line e <> EmptyString.
Proof.
  unfold line, fields. rewrite concat_cons. destruct e.1.1; discriminate.
Qed.

Lemma line_free e : wellFormed e -> free newline (line e).
Proof.
  intros [_ Hn]%wellFormed_free. apply free_concat; [discriminate|exact Hn].
Qed.

(** The lines of the resource that holds the lines of [entries]. *)
Lemma Split_lines entries :
  Forall wellFormed entries ->
  filter (fun v => v <> EmptyString) (strings.Split (lines entries) newline)
  = line <$> entries.
Proof.
  intros Hall. destruct entries as [|e entries]; [reflexivity|].
  unfold lines. rewrite Split_concat.
  - apply filter_all. apply Forall_fmap, Forall_forall. intros x _. apply line_nonempty.
  - discriminate.
  - apply Forall_fmap. eapply Forall_impl; [exact Hall|]. apply line_free.
Qed.

Lemma loop_entries entries :
  Forall wellFormed entries ->
  MainGo_Config.LoadFundIds_loop (line <$> entries) [] = Returns (request <$> entries).
Proof.
  intros Hall.
  change (Returns (request <$> entries)) with (Returns ([] ++ (request <$> entries))).
  apply config_facts.loop_lines.
  rewrite filter_all
    by (apply Forall_fmap, Forall_forall; intros x _; apply line_nonempty).
  apply Forall2_fmap, Forall_Forall2_diag.
  eapply Forall_impl; [exact Hall|]. apply parseLine_line.
Qed.

(** The resource with the lines of [entries], with and without a final
    newline. *)
Lemma LoadFundIds_entries entries :
  Forall wellFormed entries ->
  MainGo_Config.LoadFundIds (Some (lines entries)) = Returns (request <$> entries) /\
  MainGo_Config.LoadFundIds (Some (lines entries ++ String newline EmptyString)%string) =
    Returns (request <$> entries).
Proof.
  intros Hall. unfold MainGo_Config.LoadFundIds. split.
  - rewrite config_facts.loop_filter, Split_lines by exact Hall.
    apply loop_entries, Hall.
  - rewrite config_facts.Split_app, config_facts.loop_filter, filter_app.
    rewrite Split_lines by exact Hall. simpl. rewrite app_nil_r.
    apply loop_entries, Hall.
Qed.

(** A string with a byte that no literal holds is not numeric: its
    value is 0. *)
Lemma ParseFloat_byte s c :
  In c (list_ascii_of_string s) -> Spec.literalByte c = false ->
  fst (strconv.ParseFloat s) = 0%float.
Proof.
  intros Hin Hc. apply avg_facts.ParseFloat_syntax.
  destruct (Spec.numeric s) eqn:E.
  - apply strconv_facts.numeric_bytes in E as [_ Hlit].
    rewrite Forall_forall in Hlit. rewrite (Hlit c) in Hc; [discriminate|].
    apply list_elem_of_In, Hin.
  - unfold Spec.numeric in E. destruct (snd _) as [[]|]; try discriminate. reflexivity.
Qed.

End resource_facts.

(** X1. [LoadFundIds] of [main.go] panics exactly when the resource
    has a line that is not empty and holds no comma (the read of [i[1]]
    is then out of range); an absent resource counts as the empty
    one. *)
Theorem LoadFundIds_panics_iff (file : option string) :
  MainGo_Config.LoadFundIds file = Panics <->
  Exists (fun v => v <> EmptyString /\ free comma v)
    (strings.Split (default EmptyString file) newline).
Proof.
  unfold MainGo_Config.LoadFundIds. rewrite resource_facts.MainGo_loop_Panics.
  destruct file; reflexivity.
Qed.

(** X2. [LoadFundIds] of [src/Fund.go] panics exactly when some line,
    empty ones included, holds no comma: so it panics on an absent
    resource, on every resource that ends with a newline, and on every
    resource with an empty line. *)
Theorem FundGo_LoadFundIds_panics_iff :
  (forall file : option string,
     FundGo_Config.LoadFundIds file = Panics <->
     Exists (free comma) (strings.Split (default EmptyString file) newline)) /\
  FundGo_Config.LoadFundIds None = Panics /\
  (forall s : string,
     FundGo_Config.LoadFundIds (Some (s ++ String newline EmptyString)%string) = Panics) /\
  (forall s1 s2 : string,
     FundGo_Config.LoadFundIds
       (Some (s1 ++ String newline (String newline s2))%string) = Panics).
Proof.
  assert (Hiff : forall file : option string,
     FundGo_Config.LoadFundIds file = Panics <->
     Exists (free comma) (strings.Split (default EmptyString file) newline)).
  { intros file. unfold FundGo_Config.LoadFundIds.
    rewrite resource_facts.FundGo_loop_Panics. destruct file; reflexivity. }
  split_and!.
  - exact Hiff.
  - reflexivity.
  - intros s. apply Hiff. simpl. rewrite config_facts.Split_app.
    apply Exists_app. right. simpl. left. apply resource_facts.free_empty.
  - intros s1 s2. apply Hiff. simpl. rewrite config_facts.Split_app.
    apply Exists_app. right.
    change (strings.Split (String newline s2) newline)
      with (EmptyString :: strings.Split s2 newline).
    left. apply resource_facts.free_empty.
Qed.

(** X3. [main.go] reads every resource that [src/Fund.go] reads, to the
    same requests: whenever [LoadFundIds] of [src/Fund.go] returns,
    [LoadFundIds] of [main.go] returns the same list, which has one
    request per line of the resource. *)
Theorem FundGo_LoadFundIds_refined (file : option string) (xs : list FundId) :
  FundGo_Config.LoadFundIds file = Returns xs ->
  MainGo_Config.LoadFundIds file = Returns xs /\
  length xs = length (strings.Split (default EmptyString file) newline).
Proof.
  unfold FundGo_Config.LoadFundIds, MainGo_Config.LoadFundIds. intros Hxs. split.
  - apply resource_facts.FundGo_loop_MainGo, Hxs.
  - apply resource_facts.FundGo_loop_length in Hxs. destruct file; exact Hxs.
Qed.

Lemma FundGo_LoadFundIds_refined_witness :
  let file := Some ("a,1" ++ String newline "b,2")%string in
  let xs := [FundId.mk "a" 1%float; FundId.mk "b" 2%float] in
  FundGo_Config.LoadFundIds file = Returns xs /\
  MainGo_Config.LoadFundIds file = Returns xs /\
  length xs = 2%nat.
Proof.
  intros file xs. split; [vm_compute; reflexivity|].
  apply (FundGo_LoadFundIds_refined file xs). vm_compute; reflexivity.
Defined.

(** X4. The format of the resource, as a round trip: for lines made of
    an identifier, a weight and any further fields, joined by commas
    (no field holding a comma or a newline), and the lines joined by
    newlines, with or without a final newline, [LoadFundIds] returns one
    request per line, in the order of the lines: the identifier as it
    is written, and the weight that [ParseFloat] reads from the second
    field.  The further fields are ignored. *)
Theorem LoadFundIds_round_trip (entries : list Resource.entry) :
  Forall Resource.wellFormed entries ->
  MainGo_Config.LoadFundIds (Some (Resource.lines entries)) =
    Returns (Resource.request <$> entries) /\
  MainGo_Config.LoadFundIds
    (Some (Resource.lines entries ++ String newline EmptyString)%string) =
    Returns (Resource.request <$> entries).
Proof. apply resource_facts.LoadFundIds_entries. Qed.

Lemma LoadFundIds_round_trip_witness :
  let entries := [("161725", "1.5", ["liquor"]); ("110022", "2", [])]%string in
  Forall Resource.wellFormed entries /\
  Resource.lines entries = ("161725,1.5,liquor" ++ String newline "110022,2")%string /\
  MainGo_Config.LoadFundIds (Some (Resource.lines entries)) =
    Returns [FundId.mk "161725" 1.5%float; FundId.mk "110022" 2%float].
Proof.
  intros entries.
  assert (Hwf : Forall Resource.wellFormed entries).
  { repeat constructor; unfold free; simpl; intuition discriminate. }
  split; [exact Hwf|]. split; [reflexivity|].
  exact (proj1 (LoadFundIds_round_trip entries Hwf)).
Defined.

(** X5. A resource with Windows line ends gives every request the
    weight 0: when each line is [id,weight] followed by a carriage
    return and a newline, the weight field keeps the carriage return,
    which [ParseFloat] rejects, and the dropped error leaves 0. *)
Theorem LoadFundIds_CRLF (entries : list (string * string)) :
  Forall (fun e => (free comma e.1 /\ free newline e.1) /\
                   (free comma e.2 /\ free newline e.2)) entries ->
  let line e := (e.1 ++ String comma e.2 ++ String carriageReturn EmptyString)%string in
  let s := String.concat (String newline EmptyString) (line <$> entries) in
  MainGo_Config.LoadFundIds (Some (s ++ String newline EmptyString)%string) =
  Returns ((fun e => FundId.mk e.1 0%float) <$> entries).
Proof.
  intros Hall line s.
  pose (entries' := (fun e : string * string =>
                       (e.1, (e.2 ++ String carriageReturn EmptyString)%string,
                        @nil string)) <$> entries).
  assert (Hwf : Forall Resource.wellFormed entries').
  { apply Forall_fmap. eapply Forall_impl; [exact Hall|].
    intros [id w] ([H1 H2] & [H3 H4]). unfold Resource.wellFormed, Resource.fields.
    simpl in *. repeat constructor; try assumption.
    - apply resource_facts.free_app. split; [exact H3|]. intros [E|[]]. discriminate.
    - apply resource_facts.free_app. split; [exact H4|]. intros [E|[]]. discriminate. }
  destruct (resource_facts.LoadFundIds_entries entries' Hwf) as [_ E].
  subst s entries'. unfold Resource.lines in E. rewrite <- !list_fmap_compose in E.
  etransitivity; [exact E|].
  f_equal. apply list_fmap_ext. intros _ [id w] _. simpl.
  unfold Resource.request. simpl. f_equal.
  apply (resource_facts.ParseFloat_byte _ carriageReturn); [|reflexivity].
  apply resource_facts.In_app. right. left. reflexivity.
Qed.

Lemma LoadFundIds_CRLF_witness :
  let entries := [("161725", "1.5"); ("110022", "2")]%string in
  Forall (fun e => (free comma e.1 /\ free newline e.1) /\
                   (free comma e.2 /\ free newline e.2)) entries /\
  MainGo_Config.LoadFundIds
    (Some ("161725,1.5" ++ String carriageReturn (String newline
             ("110022,2" ++ String carriageReturn (String newline EmptyString))))%string) =
  Returns [FundId.mk "161725" 0%float; FundId.mk "110022" 0%float].
Proof.
  intros entries.
  assert (Hok : Forall (fun e => (free comma e.1 /\ free newline e.1) /\
                                 (free comma e.2 /\ free newline e.2)) entries).
  { repeat constructor; unfold free; simpl; intuition discriminate. }
  split; [exact Hok|]. exact (LoadFundIds_CRLF entries Hok).
Defined.

(* ----------------------------------------------------------------- *)
(** ** [avg]: NaN, and quotes that are not numbers *)

Module nan_facts.
Import f64.

Lemma IsNaN_iff f : IsNaN f = true <-> Prim2SF f = S754_nan.
Proof.
  split; [|apply f64_div.IsNaN_spec].
  unfold IsNaN, PrimFloat.is_nan. rewrite FloatAxioms.eqb_spec.
  destruct (Prim2SF f) as [s|s| |s m e]; try reflexivity; unfold SFeqb; simpl.
  - discriminate.
  - destruct s; discriminate.
  - destruct s; rewrite Z.compare_refl, Pos.compare_cont_refl; discriminate.
Qed.

Lemma add_NaN a b : IsNaN a = true \/ IsNaN b = true -> IsNaN (a + b)%float = true.
Proof.
  rewrite !IsNaN_iff, add_spec. unfold SF64add.
  intros [->| ->]; [reflexivity|]. destruct (Prim2SF a); reflexivity.
Qed.

Lemma mul_NaN a b : IsNaN a = true \/ IsNaN b = true -> IsNaN (a * b)%float = true.
Proof.
  rewrite !IsNaN_iff, mul_spec. unfold SF64mul.
  intros [->| ->]; [reflexivity|]. destruct (Prim2SF a); reflexivity.
Qed.

Lemma div_NaN a b : IsNaN a = true \/ IsNaN b = true -> IsNaN (a / b)%float = true.
Proof.
  rewrite !IsNaN_iff, div_spec. unfold SF64div.
  intros [->| ->]; [reflexivity|]. destruct (Prim2SF a); reflexivity.
Qed.

(** Once [total] is NaN it stays NaN. *)
Lemma avg_loop_NaN l total totalWeight :
  IsNaN total = true -> IsNaN (foldl avg_step (total, totalWeight) l).1 = true.
Proof.
  revert total totalWeight. induction l as [|fund l IH]; intros total totalWeight Hnan.
  - exact Hnan.
  - simpl. apply IH, add_NaN. left. exact Hnan.
Qed.

Lemma avg_loop_Exists l total totalWeight :
  Exists (fun item => IsNaN (Weight item) = true \/ IsNaN (Zzl item) = true) l ->
  IsNaN (foldl avg_step (total, totalWeight) l).1 = true.
Proof.
  intros Hex. revert total totalWeight.
  induction Hex as [fund l Hfund|fund l _ IH]; intros total totalWeight; simpl.
  - apply avg_loop_NaN, add_NaN. right. apply mul_NaN. tauto.
  - apply IH.
Qed.

Lemma avg_NaN p :
  Exists (fun item => IsNaN (Weight item) = true \/ IsNaN (Zzl item) = true) (Funds p) ->
  IsNaN (avg p) = true.
Proof.
  intros Hex. unfold avg.
  pose proof (avg_loop_Exists (Funds p) 0%float 0%float Hex) as Hnan.
  destruct (foldl avg_step _ _) as [total totalWeight]. simpl in Hnan.
  apply div_NaN. left. exact Hnan.
Qed.

End nan_facts.

(** *** Sums of finite numbers *)

Module round_facts.

Lemma shr_1_nonneg mrs : 0 <= shr_m mrs -> 0 <= shr_m (shr_1 mrs).
Proof.
  destruct mrs as [m r s]. simpl. destruct m as [|[p|p|]|p]; simpl; lia.
Qed.

Lemma iter_pos_nonneg p : forall mrs,
  0 <= shr_m mrs -> 0 <= shr_m (SpecFloat.iter_pos shr_1 p mrs).
Proof.
  induction p as [p IH|p IH|]; intros mrs Hm; simpl.
  - apply IH, IH, shr_1_nonneg, Hm.
  - apply IH, IH, Hm.
  - apply shr_1_nonneg, Hm.
Qed.

Lemma shr_fexp_nonneg prec emax m e l :
  0 <= m -> 0 <= shr_m (shr_fexp prec emax m e l).1.
Proof.
  intros Hm. unfold shr_fexp, shr.
  assert (H0 : 0 <= shr_m (shr_record_of_loc m l))
    by (destruct l as [|[]]; exact Hm).
  destruct (fexp prec emax (Zdigits2 m + e) - e); simpl; try exact H0.
  apply iter_pos_nonneg, H0.
Qed.

Lemma round_nearest_even_nonneg mx lx : 0 <= mx -> 0 <= round_nearest_even mx lx.
Proof.
  intros Hm. unfold round_nearest_even.
  destruct lx as [|[]]; try lia. destruct (IntDef.Z.even mx); lia.
Qed.

(** The rounding of a magnitude is a zero, a finite number or an
    infinity. *)
Lemma binary_round_aux_number prec emax sx mx ex lx :
  0 <= mx -> binary_round_aux prec emax sx mx ex lx <> S754_nan.
Proof.
  intros Hm. unfold binary_round_aux.
  pose proof (shr_fexp_nonneg prec emax mx ex lx Hm) as H1.
  destruct (shr_fexp prec emax mx ex lx) as [mrs' e']. simpl in H1.
  pose proof (shr_fexp_nonneg prec emax _ e' loc_Exact
                (round_nearest_even_nonneg _ (loc_of_shr_record mrs') H1)) as H2.
  destruct (shr_fexp prec emax _ e' loc_Exact) as [mrs'' e'']. simpl in H2.
  destruct (shr_m mrs''); [discriminate| |lia].
  destruct (_ <=? _); discriminate.
Qed.

Lemma binary_normalize_number prec emax m e szero :
  binary_normalize prec emax m e szero <> S754_nan.
Proof.
  unfold binary_normalize, binary_round.
  destruct m; [discriminate| |];
    destruct (shl_align _ _ _); apply binary_round_aux_number; lia.
Qed.

(** A number plus a finite number is a number. *)
Lemma add_number a w :
  f64.IsNaN a = false -> f64.IsNaN w = false -> f64.IsInf w = false ->
  f64.IsNaN (a + w)%float = false.
Proof.
  intros Ha Hnan Hinf.
  destruct (f64.IsNaN (a + w)%float) eqn:E; [exfalso|reflexivity].
  apply nan_facts.IsNaN_iff in E. rewrite add_spec in E. unfold SF64add in E.
  destruct (Prim2SF a) as [sa|sa| |sa ma ea] eqn:Ea;
    destruct (Prim2SF w) as [sw|sw| |sw mw ew] eqn:Ew;
    try (rewrite (f64_div.IsNaN_spec _ Ea) in Ha; discriminate);
    try (rewrite (f64_div.IsNaN_spec _ Ew) in Hnan; discriminate);
    try (rewrite (f64_div.IsInf_spec _ _ Ew) in Hinf; discriminate);
    simpl in E; try discriminate.
  - destruct sa, sw; discriminate.
  - exact (binary_normalize_number _ _ _ _ _ E).
Qed.

Lemma sum_number ws a :
  f64.IsNaN a = false ->
  Forall (fun w => f64.IsNaN w = false /\ f64.IsInf w = false) ws ->
  f64.IsNaN (foldl PrimFloat.add a ws) = false.
Proof.
  intros Ha Hws. revert a Ha. induction Hws as [|w ws [Hnan Hinf] _ IH]; intros a Ha.
  - exact Ha.
  - simpl. apply IH, add_number; assumption.
Qed.

End round_facts.

Module zero_facts.
Import f64.

(** With quotes that all read as 0 and finite weights, [total] stays
    the zero it starts as. *)
Lemma avg_loop_zero l totalWeight total :
  Prim2SF total = S754_zero false ->
  Forall (fun item => Zzl item = 0%float) l ->
  Forall (fun item => IsNaN (Weight item) = false /\ IsInf (Weight item) = false) l ->
  Prim2SF (foldl avg_step (total, totalWeight) l).1 = S754_zero false.
Proof.
  revert total totalWeight. induction l as [|fund l IH]; intros total totalWeight Ht Hz Hw.
  - exact Ht.
  - simpl. inversion Hz as [|? ? Hz1 Hz2]; inversion Hw as [|? ? [Hnan Hinf] Hw2]; subst.
    apply IH; [|exact Hz2|exact Hw2].
    rewrite add_spec, mul_spec, Ht, Hz1.
    change (Prim2SF 0%float) with (S754_zero false).
    destruct (Prim2SF (Weight fund)) as [s|s| |s m e] eqn:E.
    + destruct s; reflexivity.
    + rewrite (f64_div.IsInf_spec _ s E) in Hinf. discriminate.
    + rewrite (f64_div.IsNaN_spec _ E) in Hnan. discriminate.
    + destruct s; reflexivity.
Qed.

(** A zero divided by a number: NaN when the number is a zero, a zero
    otherwise. *)
Lemma zero_div t tw :
  Prim2SF t = S754_zero false -> IsNaN tw = false ->
  if eq tw 0%float then IsNaN (t / tw)%float = true
  else eq (t / tw)%float 0%float = true.
Proof.
  intros Ht Hnan.
  assert (Hd : Prim2SF (t / tw) = SFdiv prec emax (S754_zero false) (Prim2SF tw))
    by (rewrite div_spec, Ht; reflexivity).
  unfold eq. rewrite !FloatAxioms.eqb_spec.
  change (Prim2SF 0%float) with (S754_zero false).
  destruct (Prim2SF tw) as [s|s| |s m e] eqn:E; simpl in Hd.
  - apply f64_div.IsNaN_spec, Hd.
  - rewrite Hd. destruct s; reflexivity.
  - rewrite (f64_div.IsNaN_spec _ E) in Hnan. discriminate.
  - rewrite Hd. destruct s; reflexivity.
Qed.

Lemma avg_zero p :
  Forall (fun item => Spec.numeric (GSZZL (ItemFund item)) = false) (Funds p) ->
  Forall (fun item => IsNaN (Weight item) = false /\ IsInf (Weight item) = false) (Funds p) ->
  if eq (Spec.sum (Weight <$> Funds p)) 0%float then IsNaN (avg p) = true
  else eq (avg p) 0%float = true.
Proof.
  intros Hz Hw. unfold avg.
  assert (Hz' : Forall (fun item => Zzl item = 0%float) (Funds p)).
  { eapply Forall_impl; [exact Hz|]. apply avg_facts.Zzl_numeric. }
  pose proof (avg_loop_zero (Funds p) 0%float 0%float eq_refl Hz' Hw) as Ht.
  pose proof (avg_facts.avg_loop (Funds p) 0%float 0%float) as Hloop.
  destruct (foldl avg_step _ _) as [total totalWeight]. simpl in Ht.
  injection Hloop as _ ->. apply zero_div; [exact Ht|].
  apply round_facts.sum_number; [reflexivity|]. apply Forall_fmap. exact Hw.
Qed.

End zero_facts.

(** X6. One NaN spoils the average: when an item has the weight NaN
    (the line [b,NaN] of the resource) or a change percentage that
    [ParseFloat] reads as NaN, the [Avg] of the report is NaN, in both
    files and whatever the other items are. *)
Theorem Avg_NaN_poisons `{sort.Pdqsort} (items : list FundItem) :
  Exists (fun item => f64.IsNaN (Weight item) = true \/ f64.IsNaN (Zzl item) = true) items ->
  f64.IsNaN (Avg (MainGo.NewFundResult items)) = true /\
  f64.IsNaN (Avg (FundGo.NewFundResult items)) = true.
Proof.
  intros Hex. split.
  - unfold MainGo.NewFundResult. simpl. apply nan_facts.avg_NaN. simpl.
    apply Exists_exists in Hex as (item & Hin & Hitem).
    apply Exists_exists. exists item. split; [|exact Hitem].
    rewrite sort_facts.Slice_perm. exact Hin.
  - unfold FundGo.NewFundResult. simpl. apply nan_facts.avg_NaN. exact Hex.
Qed.

Lemma Avg_NaN_poisons_witness :
  Exists (fun item => f64.IsNaN (Weight item) = true \/ f64.IsNaN (Zzl item) = true)
    items_nan /\
  f64.IsNaN (Avg (MainGo.NewFundResult (H := sort_facts.insertion_Pdqsort) items_nan)) = true /\
  f64.IsNaN (Avg (FundGo.NewFundResult items_nan)) = true.
Proof.
  assert (Hex : Exists (fun item => f64.IsNaN (Weight item) = true \/
                                    f64.IsNaN (Zzl item) = true) items_nan).
  { right. left. left. reflexivity. }
  split; [exact Hex|].
  exact (Avg_NaN_poisons (H := sort_facts.insertion_Pdqsort) items_nan Hex).
Defined.

(** X7. When no item has a numeric change percentage (every [Zzl] is
    the 0 of a dropped error) and the weights are finite, the [Avg] of
    the report is 0 if the weights do not sum to zero, and NaN if they
    do: quotes that cannot be read show as an average of 0, not as an
    error. *)
Theorem Avg_no_numeric_quote `{sort.Pdqsort} (items : list FundItem) :
  Forall (fun item => Spec.numeric (GSZZL (ItemFund item)) = false) items ->
  Forall (fun item => f64.IsNaN (Weight item) = false /\ f64.IsInf (Weight item) = false)
    items ->
  if f64.eq (Spec.sum (Weight <$> Funds (MainGo.NewFundResult items))) 0%float
  then f64.IsNaN (Avg (MainGo.NewFundResult items)) = true
  else f64.eq (Avg (MainGo.NewFundResult items)) 0%float = true.
Proof.
  intros Hz Hw. unfold MainGo.NewFundResult. simpl.
  apply (zero_facts.avg_zero {| Funds := sort.Slice items byWeight; Avg := 0%float |});
    simpl; rewrite sort_facts.Slice_perm; assumption.
Qed.

Lemma Avg_no_numeric_quote_witness :
  let items := [sample "a" "--" 2%float; sample "b" "" 1%float] in
  Forall (fun item => Spec.numeric (GSZZL (ItemFund item)) = false) items /\
  Forall (fun item => f64.IsNaN (Weight item) = false /\ f64.IsInf (Weight item) = false)
    items /\
  f64.eq (Avg (MainGo.NewFundResult (H := sort_facts.insertion_Pdqsort) items)) 0%float = true.
Proof.
  intros items.
  assert (Hz : Forall (fun item => Spec.numeric (GSZZL (ItemFund item)) = false) items)
    by (repeat constructor).
  assert (Hw : Forall (fun item => f64.IsNaN (Weight item) = false /\
                                   f64.IsInf (Weight item) = false) items)
    by (repeat constructor).
  split; [exact Hz|]. split; [exact Hw|].
  exact (Avg_no_numeric_quote (H := sort_facts.insertion_Pdqsort) items Hz Hw).
Defined.

(* ----------------------------------------------------------------- *)
(** ** [GetFundResult]: the return, the failed fetch, ties *)

Module run_more.
Import MainGo_Run.

Section Run.
Context `{sort.Pdqsort}.
Variable GetFund : string -> fetched.
Variable fundIds : list FundId.

Lemma spawned_step s s' :
  spawned fundIds s -> step GetFund s (Running s') -> spawned fundIds s'.
Proof.
  unfold spawned. intros Hs Hstep.
  inversion Hstep; subst; clear Hstep; simpl;
    repeat match goal with
    | E : pc s = _ |- _ => rewrite E in *
    end; simpl in *; rewrite ?length_app, ?length_insert; simpl; lia.
Qed.

Lemma spawned_steps c c' :
  steps GetFund c c' -> forall s s', c = Running s -> c' = Running s' ->
  spawned fundIds s -> spawned fundIds s'.
Proof.
  induction 1 as [c|s0 c c' Hstep Hsteps IH]; intros s s' E E' Hs.
  - congruence.
  - injection E as ->. destruct c as [s1| |].
    + apply (IH s1 s' eq_refl E'). eapply spawned_step; eassumption.
    + inversion Hsteps; subst. discriminate.
    + inversion Hsteps; subst. discriminate.
Qed.

Lemma spawned_reachable s :
  steps GetFund (Running (init fundIds)) (Running s) -> spawned fundIds s.
Proof.
  intros Hsteps.
  apply (spawned_steps _ _ Hsteps (init fundIds) s eq_refl eq_refl).
  unfold spawned. simpl. lia.
Qed.

(** A worker that has called [wg.Done()] has exited, or it panicked on
    a request whose fetch had no response. *)
Lemma done_worker s i w :
  invariant GetFund fundIds s -> workers s !! i = Some w -> alive w = O ->
  w = WExited \/
  exists f, w = WCrashing f /\ f ∈ fundIds /\ GetFund (FundId.Id f) = NilResponse.
Proof.
  intros Hinv Hi Hw. destruct w as [f|item| | |f|f]; try discriminate.
  - left. reflexivity.
  - right. exists f. split; [reflexivity|].
    apply (run_facts.lost_request GetFund fundIds s f Hinv).
    apply (run_facts.worker_lost_in s i _ f Hi). left.
Qed.

(** After the return every goroutine has called [Done()]. *)
Lemma returned_quiescent s r :
  invariant GetFund fundIds s -> spawned fundIds s -> pc s = MReturned r ->
  length (workers s) = length fundIds /\
  Forall (fun w => w = WExited \/
            exists f, w = WCrashing f /\ f ∈ fundIds /\
                      GetFund (FundId.Id f) = NilResponse) (workers s) /\
  cons s = CExited /\
  closed s = true /\ workerGroup s = O /\ consumerGroup s = O.
Proof.
  intros Hinv Hs Epc.
  destruct (inv_returned _ _ _ Hinv r Epc) as [_ Ec].
  assert (Hwg : workerGroup s = O)
    by (apply (inv_joined _ _ _ Hinv); rewrite Epc; reflexivity).
  destruct (run_facts.returned_workers GetFund fundIds s r Hinv Epc) as (Hall & _).
  unfold spawned in Hs. rewrite Epc in Hs. simpl in Hs.
  split_and!.
  - lia.
  - apply Forall_lookup. intros i w Hi.
    apply (done_worker s i w Hinv Hi).
    rewrite Forall_lookup in Hall. exact (Hall i w Hi).
  - exact Ec.
  - rewrite (inv_closed _ _ _ Hinv), Epc. reflexivity.
  - exact Hwg.
  - rewrite (inv_consumerGroup _ _ _ Hinv), Ec. reflexivity.
Qed.

(** The one step left after the return is the end of the process by
    the panic of a worker. *)
Lemma returned_step s r c :
  invariant GetFund fundIds s -> pc s = MReturned r -> step GetFund s c ->
  c = Panicked /\ exists i f, workers s !! i = Some (WCrashing f).
Proof.
  intros Hinv Epc Hstep.
  destruct (inv_returned _ _ _ Hinv r Epc) as [_ Ec].
  destruct (run_facts.returned_workers GetFund fundIds s r Hinv Epc) as (Hall & _).
  assert (Hex : forall i w, workers s !! i = Some w -> alive w = O)
    by (intros i w Hi; rewrite Forall_lookup in Hall; exact (Hall i w Hi)).
  inversion Hstep; subst;
    try (exfalso;
         match goal with
         | Hi : workers s !! _ = Some _ |- _ => apply Hex in Hi; discriminate
         end);
    try (exfalso; congruence).
  split; eauto.
Qed.

(** When every request has a quote all workers have exited, and no
    step is left. *)
Lemma returned_final s r :
  Forall (fun f => is_Some (fetchItem GetFund f)) fundIds ->
  invariant GetFund fundIds s -> spawned fundIds s -> pc s = MReturned r ->
  workers s = replicate (length fundIds) WExited /\ forall c, ~ step GetFund s c.
Proof.
  intros Hquotes Hinv Hs Epc.
  destruct (run_facts.returned_workers GetFund fundIds s r Hinv Epc) as (Hall & _).
  pose proof (run_facts.nothing_lost GetFund fundIds s Hquotes Hinv) as Hlost.
  destruct (returned_quiescent s r Hinv Hs Epc) as (Hlen & _).
  assert (Hw : workers s = replicate (length fundIds) WExited)
    by (rewrite <- Hlen; apply run_facts.exited_all; assumption).
  split; [exact Hw|]. intros c Hstep.
  destruct (returned_step s r c Hinv Epc Hstep) as (_ & i & f & Hi).
  rewrite Hw in Hi. apply lookup_replicate in Hi as [Hi _]. discriminate.
Qed.

(** A request whose body cannot be decoded stays to be fetched, and
    its fetch ends the process: from every state of the run the exit can
    be reached. *)
Lemma spawn_exits f : forall rest s,
  pc s = MSpawn rest -> f ∈ rest -> GetFund (FundId.Id f) = LogFatal ->
  steps GetFund (Running s) Exited.
Proof.
  induction rest as [|f' rest IH]; intros s Epc Hin Hf; [inversion Hin|].
  eapply steps_step; [apply step_spawn; exact Epc|].
  apply elem_of_cons in Hin as [->|Hin].
  - eapply steps_step; [|apply steps_refl].
    apply (step_fetch_fatal GetFund _ (length (workers s)) f'); [|exact Hf].
    simpl. rewrite lookup_app_r by lia. rewrite Nat.sub_diag. reflexivity.
  - apply IH; [reflexivity|exact Hin|exact Hf].
Qed.

Lemma fatal_exits s f :
  invariant GetFund fundIds s -> f ∈ fundIds -> GetFund (FundId.Id f) = LogFatal ->
  steps GetFund (Running s) Exited.
Proof.
  intros Hinv Hin Hf.
  pose proof (inv_fatal _ _ _ Hinv f Hin Hf) as Hout.
  unfold outstanding in Hout. apply elem_of_app in Hout as [Hw|Hrest].
  - apply list_elem_of_bind in Hw as (w & Hfw & Hw).
    apply list_elem_of_lookup in Hw as [i Hi].
    destruct w; simpl in Hfw; try (inversion Hfw; fail).
    apply list_elem_of_singleton in Hfw as <-.
    eapply steps_step; [|apply steps_refl].
    eapply step_fetch_fatal; eassumption.
  - destruct (pc s) as [rest| | | |r] eqn:Epc; simpl in Hrest;
      try (inversion Hrest; fail).
    eapply spawn_exits; eassumption.
Qed.

End Run.

(** The item of a request carries the weight of the request. *)
Lemma fetchItem_Weight GetFund f item :
  fetchItem GetFund f = Some item ->
  GetFund (FundId.Id f) = Quote (ItemFund item) /\ Weight item = FundId.Weight f.
Proof.
  unfold fetchItem. destruct (GetFund (FundId.Id f)); try discriminate.
  intros [= <-]. split; reflexivity.
Qed.

Lemma fetch_all GetFund fundIds :
  Forall (fun f => exists fund, GetFund (FundId.Id f) = Quote fund) fundIds ->
  Forall (fun f => is_Some (fetchItem GetFund f)) fundIds.
Proof.
  intros Hall. eapply Forall_impl; [exact Hall|].
  intros f [fund E]. unfold fetchItem. rewrite E. eauto.
Qed.

(** When every request has a quote, the items are the requests, one
    for one. *)
Lemma fetched_Forall2 GetFund fundIds :
  Forall (fun f => is_Some (fetchItem GetFund f)) fundIds ->
  Forall2 (fun f item => fetchItem GetFund f = Some item)
    fundIds (omap (fetchItem GetFund) fundIds).
Proof.
  induction 1 as [|f fundIds [item Ef] _ IH]; simpl; [constructor|].
  rewrite Ef. constructor; assumption.
Qed.

Lemma fetched_numberWeights GetFund fundIds :
  Forall (fun f => is_Some (fetchItem GetFund f)) fundIds ->
  Forall (fun f => f64.IsNaN (FundId.Weight f) = false) fundIds ->
  Spec.numberWeights (omap (fetchItem GetFund) fundIds).
Proof.
  intros Hall%fetched_Forall2 Hnum. unfold Spec.numberWeights.
  eapply Forall2_Forall_r; [exact Hall|].
  eapply Forall_impl; [exact Hnum|].
  intros f Hf item [_ E]%fetchItem_Weight. rewrite E. exact Hf.
Qed.

Lemma fetched_distinctWeights GetFund fundIds :
  Forall (fun f => is_Some (fetchItem GetFund f)) fundIds ->
  (forall i j a b, i <> j -> fundIds !! i = Some a -> fundIds !! j = Some b ->
     f64.ne (FundId.Weight a) (FundId.Weight b) = true) ->
  Spec.distinctWeights (omap (fetchItem GetFund) fundIds).
Proof.
  intros Hall%fetched_Forall2 Hdist i j a b Hij Hi Hj.
  destruct (Forall2_lookup_r _ _ _ _ _ Hall Hi) as (fa & Hfa & [_ Ea]%fetchItem_Weight).
  destruct (Forall2_lookup_r _ _ _ _ _ Hall Hj) as (fb & Hfb & [_ Eb]%fetchItem_Weight).
  rewrite Ea, Eb. apply (Hdist i j); assumption.
Qed.

(** [src/Fund.go]: the loop stops at the first request without a
    quote. *)
Lemma FundGo_loop_None GetFund fundIds fundItems :
  FundGo_Run.GetFundResult_loop GetFund fundIds fundItems = None <->
  Exists (fun f => GetFund (FundId.Id f) = LogFatal \/
                   GetFund (FundId.Id f) = NilResponse) fundIds.
Proof.
  revert fundItems. induction fundIds as [|f fundIds IH]; intros fundItems; simpl.
  - split; [discriminate|]. intros Hex. inversion Hex.
  - rewrite Exists_cons. unfold fetchItem at 1.
    destruct (GetFund (FundId.Id f)) as [fund| |] eqn:E.
    + rewrite IH. split; [tauto|]. intros [[?|?]|?]; [discriminate..|assumption].
    + split; [tauto|reflexivity].
    + split; [tauto|reflexivity].
Qed.

Lemma FundGo_loop_items GetFund fundIds fundItems l :
  FundGo_Run.GetFundResult_loop GetFund fundIds fundItems = Some l ->
  exists items, l = fundItems ++ items /\
    Forall2 (fun f item => GetFund (FundId.Id f) = Quote (ItemFund item) /\
                           Weight item = FundId.Weight f) fundIds items.
Proof.
  revert fundItems. induction fundIds as [|f fundIds IH]; intros fundItems; simpl.
  - intros [= <-]. exists []. rewrite app_nil_r. split; [reflexivity|constructor].
  - destruct (fetchItem GetFund f) as [item|] eqn:E; [|discriminate].
    intros Hl. destruct (IH _ Hl) as (items & -> & Hall).
    exists (item :: items). rewrite <- app_assoc. split; [reflexivity|].
    constructor; [|exact Hall]. apply fetchItem_Weight, E.
Qed.

End run_more.

(** X8. When [GetFundResult] of [main.go] returns, every goroutine it
    started, one per request, has called [wg.Done()]: it has exited
    after its send, or it panicked in [GetFund] on a fetch without a
    response, and the runtime is about to end the process.  The
    collector has exited, the channel is closed and both counters are
    zero; the report was made from the slice [items] after the
    collector's last append, and [items] and the requests of the workers
    that panicked add up to the requests.  The one step left is the end
    of the process by such a panic: when every request has a quote all
    workers have exited and no goroutine can take a further step. *)
Theorem GetFundResult_return_quiescent `{sort.Pdqsort}
    (GetFund : string -> fetched) (fundIds : list FundId)
    (s : MainGo_Run.state) (r : FundResult) :
  MainGo_Run.steps GetFund (MainGo_Run.Running (MainGo_Run.init fundIds))
    (MainGo_Run.Running s) ->
  MainGo_Run.pc s = MainGo_Run.MReturned r ->
  length (MainGo_Run.workers s) = length fundIds /\
  Forall (fun w => w = MainGo_Run.WExited \/
            exists f, w = MainGo_Run.WCrashing f /\ f ∈ fundIds /\
                      GetFund (FundId.Id f) = NilResponse) (MainGo_Run.workers s) /\
  MainGo_Run.cons s = MainGo_Run.CExited /\
  MainGo_Run.closed s = true /\
  MainGo_Run.workerGroup s = O /\ MainGo_Run.consumerGroup s = O /\
  r = MainGo.NewFundResult (MainGo_Run.items s) /\
  (length (MainGo_Run.items s) + length (MainGo_Run.lost s) = length fundIds)%nat /\
  (forall c, MainGo_Run.step GetFund s c ->
     c = MainGo_Run.Panicked /\
     exists i f, MainGo_Run.workers s !! i = Some (MainGo_Run.WCrashing f)) /\
  (Forall (fun f => is_Some (fetchItem GetFund f)) fundIds ->
   MainGo_Run.workers s = replicate (length fundIds) MainGo_Run.WExited /\
   forall c, ~ MainGo_Run.step GetFund s c).
Proof.
  intros Hsteps Epc.
  pose proof (run_facts.invariant_reachable GetFund fundIds s Hsteps) as Hinv.
  pose proof (run_more.spawned_reachable GetFund fundIds s Hsteps) as Hs.
  destruct (run_more.returned_quiescent GetFund fundIds s r Hinv Hs Epc)
    as (H1 & H2 & H3 & H4 & H5 & H6).
  split_and!; try assumption.
  - exact (proj1 (MainGo_Run.inv_returned GetFund fundIds s Hinv r Epc)).
  - apply (run_facts.returned_items GetFund fundIds s r Hinv Epc).
  - intros c. apply (run_more.returned_step GetFund fundIds s r c Hinv Epc).
  - intros Hquotes. apply (run_more.returned_final GetFund fundIds s r); assumption.
Qed.

Lemma GetFundResult_return_quiescent_witness :
  exists s r,
    MainGo_Run.exec (H := sort_facts.insertion_Pdqsort) provider_unreachable_b schedule_lost
      (MainGo_Run.Running (MainGo_Run.init requests_ascending))
    = Some (MainGo_Run.Running s) /\
    MainGo_Run.pc s = MainGo_Run.MReturned r /\
    MainGo_Run.workers s =
      [MainGo_Run.WExited; MainGo_Run.WCrashing (FundId.mk "b" 2%float)] /\
    MainGo_Run.cons s = MainGo_Run.CExited /\ MainGo_Run.closed s = true /\
    (length (MainGo_Run.items s) + length (MainGo_Run.lost s) = 2)%nat.
Proof.
  eexists _, _. split; [vm_compute; reflexivity|]. split; [reflexivity|].
  split; [reflexivity|].
  edestruct (GetFundResult_return_quiescent (H := sort_facts.insertion_Pdqsort)
               provider_unreachable_b requests_ascending)
    as (_ & _ & H3 & H4 & _ & _ & _ & H8 & _).
  - apply (run_facts.exec_steps provider_unreachable_b schedule_lost).
    vm_compute. reflexivity.
  - reflexivity.
  - split_and!; [exact H3|exact H4|exact H8].
Defined.

(** X9. A body that cannot be decoded ends the process ([log.Fatal] in
    [GetFund]): when the fetch of some request comes to that, no run of
    [GetFundResult] returns a report, whatever the order of the
    goroutines.  Every configuration of a run is the exit, or the end of
    the process by the panic of a worker whose fetch had no response, or
    a state that can take a step (the run is not stuck) and from which
    the exit can be reached. *)
Theorem GetFundResult_failed_fetch `{sort.Pdqsort}
    (GetFund : string -> fetched) (fundIds : list FundId) :
  Exists (fun f => GetFund (FundId.Id f) = LogFatal) fundIds ->
  (forall r, ~ MainGo_Run.GetFundResult_returns GetFund fundIds r) /\
  (forall c,
     MainGo_Run.steps GetFund (MainGo_Run.Running (MainGo_Run.init fundIds)) c ->
     c = MainGo_Run.Exited \/
     (c = MainGo_Run.Panicked /\
      Exists (fun f => GetFund (FundId.Id f) = NilResponse) fundIds) \/
     exists s, c = MainGo_Run.Running s /\
               (exists c', MainGo_Run.step GetFund s c') /\
               MainGo_Run.steps GetFund (MainGo_Run.Running s) MainGo_Run.Exited).
Proof.
  intros (f & Hin & Hf)%Exists_exists. split.
  - intros r (s & Hsteps & Epc).
    apply (run_facts.fatal_no_return GetFund fundIds s r f
             (run_facts.invariant_reachable GetFund fundIds s Hsteps) Hin Hf Epc).
  - intros c Hsteps.
    pose proof (run_facts.steps_safe GetFund fundIds _ _ Hsteps (MainGo_Run.init fundIds)
                  eq_refl (run_facts.invariant_init GetFund fundIds)) as Hc.
    destruct c as [s| |]; [right; right|left; reflexivity|right; left].
    + exists s. split; [reflexivity|]. split.
      * apply (run_facts.progress GetFund fundIds s Hc).
        intros r. apply (run_facts.fatal_no_return GetFund fundIds s r f Hc Hin Hf).
      * apply (run_more.fatal_exits GetFund fundIds s f Hc Hin Hf).
    + split; [reflexivity|]. apply Exists_exists. exact Hc.
Qed.

Lemma GetFundResult_failed_fetch_witness :
  Exists (fun f => provider_undecodable_b (FundId.Id f) = LogFatal) requests_ascending /\
  (forall r, ~ MainGo_Run.GetFundResult_returns (H := sort_facts.insertion_Pdqsort)
                 provider_undecodable_b requests_ascending r) /\
  MainGo_Run.steps (H := sort_facts.insertion_Pdqsort) provider_undecodable_b
    (MainGo_Run.Running (MainGo_Run.init requests_ascending)) MainGo_Run.Exited.
Proof.
  assert (Hex : Exists (fun f => provider_undecodable_b (FundId.Id f) = LogFatal)
                  requests_ascending)
    by (right; left; reflexivity).
  destruct (GetFundResult_failed_fetch (H := sort_facts.insertion_Pdqsort)
              provider_undecodable_b requests_ascending Hex) as [Hno Hrun].
  split; [exact Hex|]. split; [exact Hno|].
  destruct (Hrun _ (MainGo_Run.steps_refl _ _)) as [E|[[E _]|(s & E & _ & Hexit)]];
    [discriminate E..|].
  injection E as <-. exact Hexit.
Defined.

(** X10. With two requests of equal weight the report depends on the
    order in which the fetches complete: one run returns the second
    request's item first, another run the first request's item first.
    (The item that reaches the collector last comes out first, as the
    sort moves it in front of its equal.) *)
Theorem GetFundResult_tie_order `{sort.Pdqsort}
    (GetFund : string -> fetched) (f1 f2 : FundId) (item1 item2 : FundItem) :
  fetchItem GetFund f1 = Some item1 -> fetchItem GetFund f2 = Some item2 ->
  f64.eq (FundId.Weight f1) (FundId.Weight f2) = true ->
  exists r r',
    MainGo_Run.GetFundResult_returns GetFund [f1; f2] r /\
    MainGo_Run.GetFundResult_returns GetFund [f1; f2] r' /\
    Funds r = [item2; item1] /\ Funds r' = [item1; item2].
Proof.
  intros E1 E2 Hw.
  destruct (run_more.fetchItem_Weight _ _ _ E1) as [G1 Hw1].
  destruct (run_more.fetchItem_Weight _ _ _ E2) as [G2 Hw2].
  assert (Hge : byWeight item2 item1 = true /\ byWeight item1 item2 = true).
  { unfold byWeight, f64.ge. rewrite Hw1, Hw2.
    apply f64_facts.eqb_key in Hw as (x & Hx1 & Hx2).
    split; apply f64_facts.leb_key; exists x, x; auto. }
  destruct Hge as [Hge21 Hge12].
  destruct item1 as [fund1 w1], item2 as [fund2 w2]. simpl in G1, G2, Hw1, Hw2.
  subst w1 w2.
  exists (MainGo.NewFundResult [{| ItemFund := fund1; Weight := FundId.Weight f1 |};
                                {| ItemFund := fund2; Weight := FundId.Weight f2 |}]),
         (MainGo.NewFundResult [{| ItemFund := fund2; Weight := FundId.Weight f2 |};
                                {| ItemFund := fund1; Weight := FundId.Weight f1 |}]).
  split_and!.
  - apply (run_facts.exec_returns GetFund [f1; f2] Schedules.in_order).
    simpl. rewrite G1. simpl. rewrite G2. reflexivity.
  - apply (run_facts.exec_returns GetFund [f1; f2] Schedules.out_of_order).
    simpl. rewrite G1. simpl. rewrite G2. reflexivity.
  - unfold MainGo.NewFundResult, sort.Slice. simpl.
    unfold sort.insertionSortLessFunc. simpl. unfold sort.Less. simpl.
    rewrite Hge21. reflexivity.
  - unfold MainGo.NewFundResult, sort.Slice. simpl.
    unfold sort.insertionSortLessFunc. simpl. unfold sort.Less. simpl.
    rewrite Hge12. reflexivity.
Qed.

Lemma GetFundResult_tie_order_witness :
  exists r r',
    MainGo_Run.GetFundResult_returns (H := sort_facts.insertion_Pdqsort)
      provider requests_tie r /\
    MainGo_Run.GetFundResult_returns (H := sort_facts.insertion_Pdqsort)
      provider requests_tie r' /\
    FCODE ∘ ItemFund <$> Funds r = ["b"; "a"]%string /\
    FCODE ∘ ItemFund <$> Funds r' = ["a"; "b"]%string.
Proof.
  destruct (GetFundResult_tie_order (H := sort_facts.insertion_Pdqsort) provider
              (FundId.mk "a" 1%float) (FundId.mk "b" 1%float) _ _ eq_refl eq_refl eq_refl)
    as (r & r' & Hr & Hr' & E & E').
  exists r, r'. rewrite E, E'. repeat split; assumption.
Defined.

(** X11. With a quote for every request and weights that are numbers
    and pairwise distinct, [GetFundResult] of [main.go] has one result,
    whatever the order in which the goroutines run: the report made of
    the items in the order of the requests. *)
Theorem GetFundResult_schedule_independent `{sort.Pdqsort}
    (GetFund : string -> fetched) (fundIds : list FundId) :
  Forall (fun f => exists fund, GetFund (FundId.Id f) = Quote fund) fundIds ->
  Forall (fun f => f64.IsNaN (FundId.Weight f) = false) fundIds ->
  (forall i j a b, i <> j -> fundIds !! i = Some a -> fundIds !! j = Some b ->
     f64.ne (FundId.Weight a) (FundId.Weight b) = true) ->
  forall r, MainGo_Run.GetFundResult_returns GetFund fundIds r <->
            r = MainGo.NewFundResult (omap (fetchItem GetFund) fundIds).
Proof.
  intros Hall%run_more.fetch_all Hnum Hdist.
  apply GetFundResult_deterministic.
  - exact Hall.
  - apply run_more.fetched_numberWeights; assumption.
  - apply run_more.fetched_distinctWeights; assumption.
Qed.

Lemma GetFundResult_schedule_independent_witness :
  Forall (fun f => exists fund, provider (FundId.Id f) = Quote fund) requests_ascending /\
  Forall (fun f => f64.IsNaN (FundId.Weight f) = false) requests_ascending /\
  forall r, MainGo_Run.GetFundResult_returns (H := sort_facts.insertion_Pdqsort)
              provider requests_ascending r ->
            FCODE ∘ ItemFund <$> Funds r = ["b"; "a"]%string.
Proof.
  assert (H1 : Forall (fun f => exists fund, provider (FundId.Id f) = Quote fund)
                 requests_ascending)
    by (repeat constructor; eexists; reflexivity).
  assert (H2 : Forall (fun f => f64.IsNaN (FundId.Weight f) = false) requests_ascending)
    by (repeat constructor).
  split; [exact H1|]. split; [exact H2|]. intros r Hr.
  apply (GetFundResult_schedule_independent (H := sort_facts.insertion_Pdqsort)
           provider requests_ascending H1 H2) in Hr.
  - rewrite Hr. reflexivity.
  - intros [|[|i]] [|[|j]] a b Hij; simpl; intros [= <-] [= <-];
      try congruence; reflexivity.
Defined.

(** X12. [GetFundResult] of [src/Fund.go] fetches one request after
    the other: it gives no report exactly when some request has no
    quote (the body of the response cannot be decoded, or there is no
    response), and a report it gives lists the quote of each request
    with the weight of the request, in the order of the requests. *)
Theorem FundGo_GetFundResult_in_order
    (GetFund : string -> fetched) (fundIds : list FundId) :
  (FundGo_Run.GetFundResult GetFund fundIds = None <->
   Exists (fun f => GetFund (FundId.Id f) = LogFatal \/
                    GetFund (FundId.Id f) = NilResponse) fundIds) /\
  (forall r, FundGo_Run.GetFundResult GetFund fundIds = Some r ->
     Forall2 (fun f item => GetFund (FundId.Id f) = Quote (ItemFund item) /\
                            Weight item = FundId.Weight f) fundIds (Funds r)).
Proof.
  unfold FundGo_Run.GetFundResult. split.
  - rewrite <- (run_more.FundGo_loop_None GetFund fundIds []).
    destruct (FundGo_Run.GetFundResult_loop _ _ _); split; congruence.
  - intros r. destruct (FundGo_Run.GetFundResult_loop _ _ _) as [l|] eqn:E; [|discriminate].
    intros [= <-]. apply run_more.FundGo_loop_items in E as (items & -> & Hall). exact Hall.
Qed.

(* ----------------------------------------------------------------- *)
(** ** [getResult] and [handler] *)

Module web_facts.

Section Encoder.
Variable stringEncoder : string -> string.
Variable floatBytes : float64 -> string.

Lemma floatEncoder_None f :
  json.floatEncoder floatBytes f = None <-> unsupported f.
Proof.
  unfold json.floatEncoder, unsupported.
  destruct (f64.IsInf f), (f64.IsNaN f); simpl; split; try tauto; try discriminate;
    intros [?|?]; discriminate.
Qed.

Lemma encodeFundItem_None p :
  json.encodeFundItem stringEncoder floatBytes p = None <-> unsupported (Weight p).
Proof.
  unfold json.encodeFundItem. rewrite <- floatEncoder_None.
  destruct (json.floatEncoder floatBytes (Weight p)); split; congruence.
Qed.

Lemma encodeFunds_None funds :
  json.encodeFunds stringEncoder floatBytes funds = None <->
  Exists (fun p => unsupported (Weight p)) funds.
Proof.
  induction funds as [|p funds IH]; simpl.
  - split; [discriminate|]. intros Hex. inversion Hex.
  - rewrite Exists_cons, <- IH, <- encodeFundItem_None.
    destruct (json.encodeFundItem _ _ p); [|tauto].
    destruct (json.encodeFunds _ _ funds); split; try tauto; try discriminate.
    intros [?|?]; discriminate.
Qed.

(** [Marshal] fails exactly on a report with a float that has no text. *)
Lemma Marshal_None v :
  json.Marshal stringEncoder floatBytes v = None <->
  Exists (fun p => unsupported (Weight p)) (Funds v) \/ unsupported (Avg v).
Proof.
  unfold json.Marshal. rewrite <- encodeFunds_None, <- floatEncoder_None.
  destruct (json.encodeFunds _ _ _); [|tauto].
  destruct (json.floatEncoder _ _); split; try tauto; try discriminate.
  intros [?|?]; discriminate.
Qed.

(** The text of a report starts with a brace. *)
Lemma Marshal_Some v b :
  json.Marshal stringEncoder floatBytes v = Some b -> exists b', b = String "{" b'.
Proof.
  unfold json.Marshal. destruct (json.encodeFunds _ _ _); [|discriminate].
  destruct (json.floatEncoder _ _); [|discriminate].
  intros [= <-]. eexists. reflexivity.
Qed.

End Encoder.

End web_facts.

(** X13. [getResult] takes the requests from the body of the HTTP
    request only when the resource has no line that is not empty
    (absent, empty or made of newlines): then the requests are the ones
    decoded from the body.  As soon as the resource has such a line the
    body is not consulted: the outcome is that of [LoadFundIds], a
    panic included. *)
Theorem getResult_body_fallback (file : option string) (decoded : list FundId) :
  (Forall (fun v => v = EmptyString) (strings.Split (default EmptyString file) newline) ->
   MainGo_Web.getResult_ids file decoded = Returns decoded) /\
  (Exists (fun v => v <> EmptyString) (strings.Split (default EmptyString file) newline) ->
   MainGo_Web.getResult_ids file decoded = MainGo_Config.LoadFundIds file).
Proof.
  unfold MainGo_Web.getResult_ids.
  destruct (MainGo_Config.LoadFundIds file) as [ids|] eqn:E.
  - apply resource_facts.LoadFundIds_length in E. split.
    + intros Hall%resource_facts.filter_nil_Forall. rewrite Hall in E.
      destruct ids; [reflexivity|discriminate].
    + intros Hex. destruct ids as [|x ids]; [|reflexivity].
      symmetry in E. apply length_zero_iff_nil, resource_facts.filter_nil_Forall in E.
      apply Exists_exists in Hex as (v & Hv & Hne).
      rewrite Forall_forall in E. specialize (E v Hv). contradiction.
  - split; [|reflexivity]. intros Hall.
    unfold MainGo_Config.LoadFundIds in E.
    apply resource_facts.MainGo_loop_Panics, Exists_exists in E as (v & Hv & Hne & _).
    rewrite Forall_forall in Hall. destruct file; specialize (Hall v Hv); contradiction.
Qed.

(** X14. From the resource to the report: [getResult] calls
    [GetFundResult] with one request per line of the resource that is
    not empty, or, when there is no such line, with the requests decoded
    from the body.  A report that it returns holds the item of each of
    these requests that has a quote, once: at most one item per request,
    and one item per request when every request has a quote. *)
Theorem getResult_one_item_per_line `{sort.Pdqsort}
    (GetFund : string -> fetched) (file : option string) (decoded : list FundId)
    (result : FundResult) :
  MainGo_Web.getResult_returns GetFund file decoded result ->
  exists ids,
    MainGo_Web.getResult_ids file decoded = Returns ids /\
    length ids =
      match length (filter (fun v => v <> EmptyString)
                      (strings.Split (default EmptyString file) newline)) with
      | O => length decoded
      | n => n
      end /\
    Funds result ≡ₚ omap (fetchItem GetFund) ids /\
    (length (Funds result) <= length ids)%nat /\
    (Forall (fun f => is_Some (fetchItem GetFund f)) ids ->
     length (Funds result) = length ids).
Proof.
  intros (ids & Hids & s & Hsteps & Epc). exists ids.
  apply run_facts.invariant_reachable in Hsteps.
  destruct (run_facts.returned_items _ _ _ _ Hsteps Epc) as (-> & _ & Hitems & Hlen).
  assert (Hperm : Funds (MainGo.NewFundResult (MainGo_Run.items s))
                  ≡ₚ MainGo_Run.items s) by apply sort_facts.Slice_perm.
  split_and!.
  - exact Hids.
  - unfold MainGo_Web.getResult_ids in Hids.
    destruct (MainGo_Config.LoadFundIds file) as [xs|] eqn:E; [|discriminate].
    apply resource_facts.LoadFundIds_length in E. rewrite <- E.
    injection Hids as <-. destruct xs; reflexivity.
  - rewrite Hperm. exact Hitems.
  - rewrite Hperm. lia.
  - intros Hall. rewrite Hperm.
    pose proof (run_facts.returned_all _ _ _ _ Hall Hsteps Epc) as Hsome.
    apply (run_facts.fetched_items _ _ _ Hsome).
Qed.

Lemma getResult_one_item_per_line_witness :
  let file := Some ("a,1" ++ String newline (String newline ("b,2" ++ String newline "")))%string in
  exists result,
    MainGo_Web.getResult_returns (H := sort_facts.insertion_Pdqsort)
      provider file [] result /\
    length (Funds result) = 2%nat.
Proof.
  intros file.
  assert (Hr : exists result,
             MainGo_Web.getResult_returns (H := sort_facts.insertion_Pdqsort)
               provider file [] result).
  { eexists. exists requests_ascending. split; [vm_compute; reflexivity|].
    apply (run_facts.exec_returns provider requests_ascending Schedules.in_order).
    vm_compute. reflexivity. }
  destruct Hr as [result Hr]. exists result. split; [exact Hr|].
  destruct (getResult_one_item_per_line (H := sort_facts.insertion_Pdqsort)
              provider file [] result Hr) as (ids & Hids & Hlen & _ & _ & Hall).
  rewrite Hall, Hlen; [reflexivity|].
  vm_compute in Hids. injection Hids as <-.
  repeat constructor; eexists; reflexivity.
Defined.

(** X15. [handler] writes a body exactly when [encoding/json] has a
    text for every float of the report: when the average or a weight is
    NaN or an infinity, the dropped error of [Encode] leaves the body of
    the response empty (the header is set all the same), and
    [src/Fund.go] writes a lone newline.  In the other case both files
    write the same body, the text of the report and a newline. *)
Theorem handler_body_empty_iff (stringEncoder : string -> string)
    (floatBytes : float64 -> string) (result : FundResult) :
  let main := MainGo_Web.handler stringEncoder floatBytes result in
  let legacy := FundGo_Web.handler stringEncoder floatBytes result in
  let fails := Exists (fun p => unsupported (Weight p)) (Funds result) \/
               unsupported (Avg result) in
  (Body main = EmptyString <-> fails) /\
  (Body legacy = String newline EmptyString <-> fails) /\
  (~ fails -> Body main = Body legacy) /\
  Header main = [("Content-Type", "application/json")%string] /\
  Header legacy = [("Content-Type", "application/json")%string].
Proof.
  intros main legacy fails. subst main legacy fails.
  unfold MainGo_Web.handler, FundGo_Web.handler, json.Encode. simpl.
  rewrite <- (web_facts.Marshal_None stringEncoder floatBytes).
  destruct (json.Marshal stringEncoder floatBytes result) as [b|] eqn:E.
  - destruct (web_facts.Marshal_Some _ _ _ _ E) as [b' ->]. simpl.
    split_and!; try reflexivity; split; discriminate.
  - simpl. split_and!; try reflexivity; tauto.
Qed.

(** X16. When the weights of the report sum to zero, [handler] of
    [main.go] answers with an empty body; so it does when there is no
    request at all, as the sum of no weight is 0 and the average 0/0. *)
Theorem handler_zero_weights `{sort.Pdqsort} (stringEncoder : string -> string)
    (floatBytes : float64 -> string) (items : list FundItem) :
  f64.eq (Spec.sum (Weight <$> Funds (MainGo.NewFundResult items))) 0%float = true ->
  Body (MainGo_Web.handler stringEncoder floatBytes (MainGo.NewFundResult items))
  = EmptyString.
Proof.
  intros Hzero.
  assert (Hnone : json.Marshal stringEncoder floatBytes (MainGo.NewFundResult items) = None).
  { apply web_facts.Marshal_None. right. unfold unsupported.
    unfold MainGo.NewFundResult in *. simpl in *.
    destruct (avg_facts.avg_zero_weight
                {| Funds := sort.Slice items byWeight; Avg := 0%float |} Hzero); tauto. }
  unfold MainGo_Web.handler, json.Encode. simpl. rewrite Hnone. reflexivity.
Qed.

Lemma handler_zero_weights_witness :
  f64.eq (Spec.sum (Weight <$> Funds (MainGo.NewFundResult
                                        (H := sort_facts.insertion_Pdqsort) []))) 0%float
  = true /\
  Body (MainGo_Web.handler sample_stringEncoder sample_floatBytes
          (MainGo.NewFundResult (H := sort_facts.insertion_Pdqsort) [])) = EmptyString.
Proof.
  split; [reflexivity|].
  apply (handler_zero_weights (H := sort_facts.insertion_Pdqsort)). reflexivity.
Defined.

(* ----------------------------------------------------------------- *)
(** ** The sort and a weight that is NaN *)

Module barrier_facts.
Import sort.

Section Barrier.
Context {A : Type}.
Variable less : A -> A -> bool.
Variable n : A.

(** [n] is less than nothing, and nothing is less than [n]. *)
Hypothesis less_n : forall x, less x n = false.
Hypothesis n_less : forall x, less n x = false.

Lemma bubble_n r : bubble less n r = n :: r.
Proof. destruct r as [|p r]; simpl; [reflexivity|]. rewrite n_less. reflexivity. Qed.

(** An element that moves towards the front stops behind [n]. *)
Lemma bubble_barrier x r r1 :
  bubble less x (r ++ n :: r1) = bubble less x r ++ n :: r1.
Proof.
  induction r as [|p r IH]; simpl.
  - rewrite less_n. reflexivity.
  - destruct (less x p); [rewrite IH|]; reflexivity.
Qed.

Lemma fold_barrier l : forall r r1,
  foldl (fun r x => bubble less x r) (r ++ n :: r1) l =
  foldl (fun r x => bubble less x r) r l ++ n :: r1.
Proof.
  induction l as [|x l IH]; intros r r1; simpl; [reflexivity|].
  rewrite bubble_barrier. apply IH.
Qed.

(** The insertion sort sorts the two sides of [n] apart. *)
Lemma isort_barrier l1 l2 :
  isort less (l1 ++ n :: l2) = isort less l1 ++ n :: isort less l2.
Proof.
  unfold isort. rewrite foldl_app. simpl. rewrite bubble_n.
  pose proof (fold_barrier l2 [] (foldl (fun r x => bubble less x r) [] l1)) as E.
  simpl in E. rewrite E.
  rewrite reverse_app, reverse_cons, <- app_assoc. reflexivity.
Qed.

End Barrier.

(** NaN is on neither side of [>=]. *)
Lemma ge_NaN a b : f64.IsNaN a = true -> f64.ge a b = false /\ f64.ge b a = false.
Proof.
  intros Hnan. unfold f64.ge.
  split; (destruct (PrimFloat.leb _ _) eqn:E; [exfalso|reflexivity]);
    apply f64_facts.leb_key in E as (x & y & Hx & Hy & _);
    assert (Hnum : f64.IsNaN a = false) by (apply f64_facts.IsNaN_key; eauto);
    congruence.
Qed.

End barrier_facts.

(** X17. The sort does not move an item whose weight is NaN, and moves
    no item across it: for at most 12 items (the slices [sort.Slice]
    sorts by insertion), the items before it and the items after it are
    sorted apart, each side as [NewFundResult] sorts it on its own. *)
Theorem NewFundResult_NaN_barrier `{sort.Pdqsort}
    (before after : list FundItem) (item : FundItem) :
  f64.IsNaN (Weight item) = true ->
  (length (before ++ item :: after) <= sort.maxInsertion)%nat ->
  Funds (MainGo.NewFundResult (before ++ item :: after)) =
  Funds (MainGo.NewFundResult before) ++ item :: Funds (MainGo.NewFundResult after).
Proof.
  intros Hnan Hlen. unfold MainGo.NewFundResult. simpl.
  rewrite length_app in Hlen. simpl in Hlen.
  rewrite !sort_facts.Slice_short by (rewrite ?length_app; simpl; lia).
  apply barrier_facts.isort_barrier; intros x; unfold byWeight;
    apply (barrier_facts.ge_NaN _ _ Hnan).
Qed.

Lemma NewFundResult_NaN_barrier_witness :
  let N := MainGo.NewFundResult (H := sort_facts.insertion_Pdqsort) in
  f64.IsNaN (Weight (sample "b" "2.0" nan)) = true /\
  Funds (N items_nan) = items_nan.
Proof.
  intros N. split; [reflexivity|].
  apply (NewFundResult_NaN_barrier (H := sort_facts.insertion_Pdqsort)
           [sample "a" "1.0" 1%float] [sample "c" "0.5" 2%float] (sample "b" "2.0" nan)).
  - reflexivity.
  - simpl. unfold sort.maxInsertion. lia.
Defined.

(* ----------------------------------------------------------------- *)
(** ** Floats without a text *)

Module nonfinite_facts.

Lemma IsInf_iff f : f64.IsInf f = true <-> exists s, Prim2SF f = S754_infinity s.
Proof.
  split; [|intros [s E]; exact (f64_div.IsInf_spec f s E)].
  unfold f64.IsInf, PrimFloat.is_infinity. rewrite FloatAxioms.eqb_spec, abs_spec.
  destruct (Prim2SF f) as [s|s| |s m e]; simpl; try discriminate; eauto.
Qed.

Lemma unsupported_spec f :
  unsupported f <-> Prim2SF f = S754_nan \/ exists s, Prim2SF f = S754_infinity s.
Proof. unfold unsupported. rewrite IsInf_iff, nan_facts.IsNaN_iff. tauto. Qed.

Ltac cases :=
  repeat match goal with
  | |- context [match ?x with _ => _ end] => destruct x
  end;
  first [left; reflexivity | right; eexists; reflexivity].

Lemma add_unsupported a b :
  unsupported a \/ unsupported b -> unsupported (a + b)%float.
Proof.
  rewrite !unsupported_spec, add_spec. unfold SF64add, SFadd.
  intros [[->|[s ->]]|[->|[s ->]]]; cases.
Qed.

Lemma mul_unsupported a b :
  unsupported a \/ unsupported b -> unsupported (a * b)%float.
Proof.
  rewrite !unsupported_spec, mul_spec. unfold SF64mul, SFmul.
  intros [[->|[s ->]]|[->|[s ->]]]; cases.
Qed.

Lemma div_unsupported a b : unsupported a -> unsupported (a / b)%float.
Proof.
  rewrite !unsupported_spec, div_spec. unfold SF64div, SFdiv.
  intros [->|[s ->]]; cases.
Qed.

Lemma avg_loop_unsupported l total totalWeight :
  unsupported total \/
  Exists (fun item => unsupported (Weight item) \/ unsupported (Zzl item)) l ->
  unsupported (foldl avg_step (total, totalWeight) l).1.
Proof.
  revert total totalWeight. induction l as [|fund l IH]; intros total totalWeight Hun.
  - destruct Hun as [Hun|Hex]; [exact Hun|inversion Hex].
  - simpl. apply IH. rewrite Exists_cons in Hun.
    destruct Hun as [Hun|[Hfund|Hex]]; [left|left|right; exact Hex].
    + apply add_unsupported. left. exact Hun.
    + apply add_unsupported. right. apply mul_unsupported. tauto.
Qed.

Lemma avg_unsupported p :
  Exists (fun item => unsupported (Weight item) \/ unsupported (Zzl item)) (Funds p) ->
  unsupported (avg p).
Proof.
  intros Hex. unfold avg.
  pose proof (avg_loop_unsupported (Funds p) 0%float 0%float (or_intror Hex)) as Hun.
  destruct (foldl avg_step _ _) as [total totalWeight]. simpl in Hun.
  apply div_unsupported, Hun.
Qed.

End nonfinite_facts.

(** X18. A weight or a change percentage that is NaN or an infinity
    (the weight field [inf], the change percentage [1e999]) leaves the
    average without a JSON text: the [Avg] of the report is NaN or an
    infinity, and [handler] answers with an empty body. *)
Theorem handler_not_finite `{sort.Pdqsort} (stringEncoder : string -> string)
    (floatBytes : float64 -> string) (items : list FundItem) :
  Exists (fun item => unsupported (Weight item) \/ unsupported (Zzl item)) items ->
  unsupported (Avg (MainGo.NewFundResult items)) /\
  Body (MainGo_Web.handler stringEncoder floatBytes (MainGo.NewFundResult items))
  = EmptyString.
Proof.
  intros Hex.
  assert (Hun : unsupported (Avg (MainGo.NewFundResult items))).
  { unfold MainGo.NewFundResult. simpl.
    apply (nonfinite_facts.avg_unsupported
             {| Funds := sort.Slice items byWeight; Avg := 0%float |}). simpl.
    apply Exists_exists in Hex as (item & Hin & Hitem).
    apply Exists_exists. exists item. split; [|exact Hitem].
    rewrite sort_facts.Slice_perm. exact Hin. }
  split; [exact Hun|].
  assert (Hnone : json.Marshal stringEncoder floatBytes (MainGo.NewFundResult items) = None)
    by (apply web_facts.Marshal_None; right; exact Hun).
  unfold MainGo_Web.handler, json.Encode. simpl. rewrite Hnone. reflexivity.
Qed.

Lemma handler_not_finite_witness :
  let items := [sample "a" "1e999" 1%float; sample "b" "1.0" 2%float] in
  Exists (fun item => unsupported (Weight item) \/ unsupported (Zzl item)) items /\
  Avg (MainGo.NewFundResult (H := sort_facts.insertion_Pdqsort) items) = infinity /\
  Body (MainGo_Web.handler sample_stringEncoder sample_floatBytes
          (MainGo.NewFundResult (H := sort_facts.insertion_Pdqsort) items)) = EmptyString.
Proof.
  intros items.
  assert (Hex : Exists (fun item => unsupported (Weight item) \/ unsupported (Zzl item))
                  items).
  { left. right. left. vm_compute. reflexivity. }
  split; [exact Hex|]. split; [vm_compute; reflexivity|].
  exact (proj2 (handler_not_finite (H := sort_facts.insertion_Pdqsort)
                  sample_stringEncoder sample_floatBytes items Hex)).
Defined.

(* ----------------------------------------------------------------- *)
(** ** No request at all *)

(** X19. With no request (a resource without a line that is not empty,
    and nothing decoded from the body) [handler] of [main.go] responds,
    and in one way only: the report has no item and the average 0/0, so
    the body of the response is empty. *)
Theorem handler_no_request `{sort.Pdqsort} (stringEncoder : string -> string)
    (floatBytes : float64 -> string) (GetFund : string -> fetched)
    (file : option string) :
  Forall (fun v => v = EmptyString) (strings.Split (default EmptyString file) newline) ->
  (exists w, MainGo_Web.handler_responds stringEncoder floatBytes GetFund file [] w) /\
  (forall w, MainGo_Web.handler_responds stringEncoder floatBytes GetFund file [] w ->
     w = {| Header := [("Content-Type", "application/json")%string];
            Body := EmptyString |}).
Proof.
  intros Hblank.
  assert (Hids : MainGo_Web.getResult_ids file [] = Returns []).
  { unfold MainGo_Web.getResult_ids.
    destruct (MainGo_Config.LoadFundIds file) as [ids|] eqn:E.
    - apply resource_facts.LoadFundIds_length in E.
      apply resource_facts.filter_nil_Forall in Hblank. rewrite Hblank in E.
      destruct ids; [reflexivity|discriminate].
    - unfold MainGo_Config.LoadFundIds in E.
      apply resource_facts.MainGo_loop_Panics, Exists_exists in E as (v & Hv & Hne & _).
      rewrite Forall_forall in Hblank. destruct file; specialize (Hblank v Hv); contradiction. }
  split.
  - destruct (run_facts.complete_run GetFund [] (MainGo_Run.init []) (Forall_nil_2 _)
                (run_facts.invariant_init GetFund [])) as (s & r & Hsteps & Epc).
    exists (MainGo_Web.handler stringEncoder floatBytes r), r. split; [|reflexivity].
    exists []. split; [exact Hids|]. exists s. split; assumption.
  - intros w (result & (ids & Eids & s & Hsteps & Epc) & ->).
    rewrite Hids in Eids. injection Eids as <-.
    apply run_facts.invariant_reachable in Hsteps.
    destruct (run_facts.returned_items _ _ _ _ Hsteps Epc) as (-> & _ & Hitems & _).
    simpl in Hitems. apply Permutation_nil_r in Hitems. rewrite Hitems. reflexivity.
Qed.

Lemma handler_no_request_witness :
  Forall (fun v => v = EmptyString)
    (strings.Split (String newline (String newline EmptyString)) newline) /\
  exists w, MainGo_Web.handler_responds (H := sort_facts.insertion_Pdqsort)
              sample_stringEncoder sample_floatBytes provider
              (Some (String newline (String newline EmptyString))) [] w /\
            Body w = EmptyString.
Proof.
  assert (Hblank : Forall (fun v => v = EmptyString)
            (strings.Split (default EmptyString
                              (Some (String newline (String newline EmptyString))))
               newline))
    by (repeat constructor).
  split; [exact Hblank|].
  destruct (handler_no_request (H := sort_facts.insertion_Pdqsort)
              sample_stringEncoder sample_floatBytes provider _ Hblank) as [[w Hw] Hall].
  exists w. split; [exact Hw|]. rewrite (Hall w Hw). reflexivity.
Defined.

(* ----------------------------------------------------------------- *)
(** ** The identifiers [LoadFundIds] returns *)

Module ids_facts.

(** A field of [strings.Split] holds no separator, and only bytes of
    the string. *)
Lemma Split_fields s sep f :
  f ∈ strings.Split s sep ->
  free sep f /\ forall c, In c (list_ascii_of_string f) -> In c (list_ascii_of_string s).
Proof.
  revert f. induction s as [|a s IH]; intros f; simpl.
  - intros ->%list_elem_of_singleton. split; [apply resource_facts.free_empty|tauto].
  - destruct (Ascii.eqb_spec a sep) as [->|Ha].
    + intros [->|Hf]%elem_of_cons.
      * split; [apply resource_facts.free_empty|intros c []].
      * destruct (IH f Hf) as [Hfree Hin]. split; [exact Hfree|]. intros c Hc. right. auto.
    + pose proof (config_facts.Split_nonempty s sep) as Hne.
      destruct (strings.Split s sep) as [|f0 fs]; [congruence|].
      intros [->|Hf]%elem_of_cons.
      * destruct (IH f0 (list_elem_of_here _ _)) as [Hfree Hin]. split.
        -- intros [E|Hc]; [congruence|exact (Hfree Hc)].
        -- intros c [E|Hc]; [left; exact E|right; auto].
      * destruct (IH f (list_elem_of_further _ _ _ Hf)) as [Hfree Hin].
        split; [exact Hfree|]. intros c Hc. right. auto.
Qed.

Lemma parseLine_Id v x :
  parseLine v = Returns x ->
  free comma (FundId.Id x) /\
  forall c, In c (list_ascii_of_string (FundId.Id x)) -> In c (list_ascii_of_string v).
Proof.
  unfold parseLine. pose proof (Split_fields v comma) as Hf.
  destruct (strings.Split v comma) as [|i0 [|i1 rest]]; simpl; try discriminate.
  intros [= <-]. simpl. apply Hf. left.
Qed.

Lemma MainGo_loop_Ids (P : FundId -> Prop) split fundIds xs :
  (forall v x, v ∈ split -> parseLine v = Returns x -> P x) ->
  Forall P fundIds ->
  MainGo_Config.LoadFundIds_loop split fundIds = Returns xs -> Forall P xs.
Proof.
  revert fundIds. induction split as [|v split IH]; intros fundIds Hline Hacc; simpl.
  - intros [= <-]. exact Hacc.
  - assert (Hline' : forall v' x, v' ∈ split -> parseLine v' = Returns x -> P x)
      by (intros v' x Hv'; apply Hline; right; exact Hv').
    destruct (String.eqb v ""); [apply IH; assumption|].
    destruct (parseLine v) as [x|] eqn:E; [|discriminate].
    apply IH; [exact Hline'|]. apply Forall_app. split; [exact Hacc|].
    constructor; [|constructor]. apply (Hline v x); [left|exact E].
Qed.

End ids_facts.

(** X20. No identifier that [LoadFundIds] returns holds a comma or a
    newline: each one is the text of a line up to its first comma. *)
Theorem LoadFundIds_Ids (file : option string) (xs : list FundId) :
  MainGo_Config.LoadFundIds file = Returns xs ->
  Forall (fun x => free comma (FundId.Id x) /\ free newline (FundId.Id x)) xs.
Proof.
  unfold MainGo_Config.LoadFundIds.
  apply ids_facts.MainGo_loop_Ids; [|constructor].
  intros v x Hv Hx. destruct (ids_facts.parseLine_Id v x Hx) as [Hcomma Hin].
  split; [exact Hcomma|].
  destruct (ids_facts.Split_fields _ _ _ Hv) as [Hfree _].
  intros Hc. apply Hfree, Hin, Hc.
Qed.

Lemma LoadFundIds_Ids_witness :
  let file := Some ("161725,1.5" ++ String newline "110022,2")%string in
  MainGo_Config.LoadFundIds file =
    Returns [FundId.mk "161725" 1.5%float; FundId.mk "110022" 2%float] /\
  Forall (fun x => free comma (FundId.Id x) /\ free newline (FundId.Id x))
    [FundId.mk "161725" 1.5%float; FundId.mk "110022" 2%float].
Proof.
  intros file.
  assert (E : MainGo_Config.LoadFundIds file =
              Returns [FundId.mk "161725" 1.5%float; FundId.mk "110022" 2%float])
    by (vm_compute; reflexivity).
  split; [exact E|]. exact (LoadFundIds_Ids file _ E).
Defined.

(* ----------------------------------------------------------------- *)
(** ** [ParseFloat] on plain decimals *)

Module decimal_facts.
Import strconv.
Import Decimal.

(** What a digit is not. *)
Lemma digit_byte c :
  isDigit c = true ->
  48 <= byte c <= 57 /\ lower c = byte c /\ isSign c = false.
Proof.
  destruct c as [[] [] [] [] [] [] [] []]; try discriminate; intros _;
    vm_compute; repeat split; discriminate.
Qed.

Lemma readDigits_digit c mantissa nd dp sawdot sawdigits underscores s :
  isDigit c = true ->
  readDigits false mantissa nd dp sawdot sawdigits underscores (c :: s) =
  let '(mantissa', nd', dp') := digit_step (mantissa, nd, dp) c in
  readDigits false mantissa' nd' dp' sawdot true underscores s.
Proof.
  intros Hc. destruct (digit_byte c Hc) as ([H1 H2] & _ & _). simpl.
  replace (byte c =? 95) with false by (symmetry; apply Z.eqb_neq; lia).
  replace (byte c =? 46) with false by (symmetry; apply Z.eqb_neq; lia).
  rewrite Hc. destruct ((byte c =? 48) && (nd =? 0)); reflexivity.
Qed.

Lemma readDigits_digits ds : forall mantissa nd dp sawdot sawdigits underscores s,
  digits ds ->
  readDigits false mantissa nd dp sawdot sawdigits underscores (ds ++ s) =
  let '(mantissa', nd', dp') := foldl digit_step (mantissa, nd, dp) ds in
  readDigits false mantissa' nd' dp' sawdot
    (match ds with [] => sawdigits | _ => true end) underscores s.
Proof.
  induction ds as [|c ds IH]; intros mantissa nd dp sawdot sawdigits underscores s Hds.
  - reflexivity.
  - inversion Hds as [|? ? Hc Hds']; subst.
    change ((c :: ds) ++ s) with (c :: (ds ++ s)).
    rewrite (readDigits_digit c) by exact Hc.
    change (foldl digit_step (mantissa, nd, dp) (c :: ds))
      with (foldl digit_step (digit_step (mantissa, nd, dp) c) ds).
    destruct (digit_step (mantissa, nd, dp) c) as [[mantissa' nd'] dp'].
    rewrite IH by exact Hds'.
    destruct (foldl digit_step (mantissa', nd', dp') ds) as [[m2 nd2] dp2].
    destruct ds; reflexivity.
Qed.

Lemma readDigits_digits_end ds mantissa nd dp sawdot sawdigits underscores :
  digits ds ->
  readDigits false mantissa nd dp sawdot sawdigits underscores ds =
  let '(mantissa', nd', dp') := foldl digit_step (mantissa, nd, dp) ds in
  (mantissa', nd', dp', sawdot,
   match ds with [] => sawdigits | _ => true end, underscores, []).
Proof.
  intros Hds.
  pose proof (readDigits_digits ds mantissa nd dp sawdot sawdigits underscores [] Hds) as E.
  rewrite app_nil_r in E. rewrite E.
  destruct (foldl digit_step (mantissa, nd, dp) ds) as [[m' nd'] dp']. reflexivity.
Qed.

(** What the loop has after the digits: the number they spell, with as
    many digits counted after [dp] as were read. *)
Lemma digit_steps ds : forall mantissa nd dp,
  digits ds -> (nd = 0 -> mantissa = 0) -> 0 <= nd ->
  exists nd' dp',
    foldl digit_step (mantissa, nd, dp) ds = (decimal_from mantissa ds, nd', dp') /\
    nd' - dp' = nd - dp + Z.of_nat (length ds) /\
    (nd' = 0 -> decimal_from mantissa ds = 0) /\ 0 <= nd'.
Proof.
  induction ds as [|c ds IH]; intros mantissa nd dp Hds Hzero Hnd.
  - exists nd, dp. simpl. repeat split; [lia|exact Hzero|exact Hnd].
  - inversion Hds as [|? ? Hc Hds']; subst.
    destruct (digit_byte c Hc) as ([H1 H2] & _ & _).
    change (foldl digit_step (mantissa, nd, dp) (c :: ds))
      with (foldl digit_step (digit_step (mantissa, nd, dp) c) ds).
    change (decimal_from mantissa (c :: ds))
      with (decimal_from (10 * mantissa + (byte c - 48)) ds).
    unfold digit_step at 2.
    destruct ((byte c =? 48) && (nd =? 0)) eqn:E.
    + apply andb_true_iff in E as [E1%Z.eqb_eq E2%Z.eqb_eq].
      rewrite (Hzero E2), E1. change (10 * 0 + (48 - 48)) with 0.
      destruct (IH 0 nd (dp - 1) Hds') as (nd' & dp' & E & Hdiff & Hz & Hpos);
        [reflexivity|exact Hnd|].
      exists nd', dp'. rewrite length_cons, Nat2Z.inj_succ.
      repeat split; [exact E|lia|exact Hz|exact Hpos].
    + destruct (IH (mantissa * 10 + (byte c - 48)) (nd + 1) dp Hds')
        as (nd' & dp' & E' & Hdiff & Hz & Hpos); [lia|lia|].
      replace (10 * mantissa) with (mantissa * 10) by lia.
      exists nd', dp'. rewrite length_cons, Nat2Z.inj_succ.
      repeat split; [exact E'|lia|exact Hz|exact Hpos].
Qed.

Lemma decimal_app ip fp : decimal (ip ++ fp) = decimal_from (decimal ip) fp.
Proof. unfold decimal, decimal_from. apply foldl_app. Qed.

(** The digit loop on [ip], a point and [fp], and on [ip] alone. *)
Lemma readDigits_point ip fp :
  digits ip -> digits fp -> ip <> [] ->
  exists nd dp,
    readDigits false 0 0 0 false false false (ip ++ point :: fp) =
      (decimal (ip ++ fp), nd, dp, true, true, false, []) /\
    nd - dp = Z.of_nat (length fp) /\ (nd = 0 -> decimal (ip ++ fp) = 0).
Proof.
  intros Hip Hfp Hne.
  rewrite (readDigits_digits ip) by exact Hip.
  destruct (digit_steps ip 0 0 0 Hip) as (nd1 & dp1 & -> & _ & Hz1 & Hpos1);
    [reflexivity|lia|].
  fold (decimal ip) in *.
  assert (Estep : forall sd,
            readDigits false (decimal ip) nd1 dp1 false sd false (point :: fp) =
            readDigits false (decimal ip) nd1 nd1 true sd false fp) by reflexivity.
  rewrite Estep, (readDigits_digits_end fp) by exact Hfp.
  destruct (digit_steps fp (decimal ip) nd1 nd1 Hfp Hz1 Hpos1)
    as (nd2 & dp2 & -> & Hdiff & Hz2 & _).
  rewrite <- decimal_app in *.
  exists nd2, dp2. split; [|split; [lia|exact Hz2]].
  destruct ip; [congruence|]. destruct fp; reflexivity.
Qed.

Lemma readDigits_integer ip :
  digits ip -> ip <> [] ->
  exists nd dp,
    readDigits false 0 0 0 false false false ip =
      (decimal ip, nd, dp, false, true, false, []).
Proof.
  intros Hip Hne.
  rewrite (readDigits_digits_end ip) by exact Hip.
  destruct (digit_steps ip 0 0 0 Hip) as (nd1 & dp1 & -> & _ & _ & _);
    [reflexivity|lia|].
  exists nd1, dp1. destruct ip; [congruence|reflexivity].
Qed.

(** [readFloat] and [special] on a string that starts with a digit, or
    with a minus sign and a digit, and holds digits and points only. *)
Lemma plain_lower c : plain c -> (lower c =? 120) = false.
Proof.
  intros [Hc| ->]; [|reflexivity].
  destruct (digit_byte c Hc) as ([H1 H2] & -> & _). apply Z.eqb_neq. lia.
Qed.

Lemma not_hex (body : list ascii) :
  Forall plain body ->
  match body with
  | a :: b :: _ :: _ => (byte a =? 48) && (lower b =? 120)
  | _ => false
  end = false.
Proof.
  intros Hbody. destruct body as [|a [|b [|c body]]]; try reflexivity.
  inversion Hbody as [|? ? _ Hb]; subst. inversion Hb as [|? ? Hb' _]; subst.
  rewrite (plain_lower b Hb'). apply andb_false_r.
Qed.

Lemma readFloat_plain (neg : bool) c0 body mantissa nd dp sawdot :
  isDigit c0 = true -> Forall plain (c0 :: body) ->
  readDigits false 0 0 0 false false false (c0 :: body) =
    (mantissa, nd, dp, sawdot, true, false, []) ->
  readFloat ((if neg then [minus] else []) ++ c0 :: body) =
  Some (neg, false, mantissa,
        if mantissa =? 0 then 0 else (if sawdot then dp else nd) - nd, []).
Proof.
  intros Hc0 Hbody Hread. destruct (digit_byte c0 Hc0) as ([H1 H2] & _ & Hsign).
  pose proof (not_hex (c0 :: body) Hbody) as Hhex.
  destruct neg; unfold readFloat; cbn [app].
  - change (isSign minus) with true. change (byte minus =? 45) with true.
    cbn [drop]. rewrite Hhex. cbn iota. rewrite Hread. cbn [negb andb].
    destruct (mantissa =? 0); reflexivity.
  - rewrite Hsign.
    replace (byte c0 =? 45) with false by (symmetry; apply Z.eqb_neq; lia).
    rewrite Hhex. cbn iota. rewrite Hread. cbn [negb andb].
    destruct (mantissa =? 0); reflexivity.
Qed.

Lemma special_plain (neg : bool) c0 body :
  isDigit c0 = true ->
  special ((if neg then [minus] else []) ++ c0 :: body) = None.
Proof.
  intros Hc0. destruct (digit_byte c0 Hc0) as ([H1 H2] & Hlower & Hsign).
  assert (Hprefix : forall p prefix,
            97 <= byte p -> commonPrefixLenIgnoreCase (c0 :: body) (p :: prefix) = 0).
  { intros p prefix Hp. simpl.
    replace ((65 <=? byte c0) && (byte c0 <=? 90)) with false
      by (symmetry; apply andb_false_iff; left; apply Z.leb_gt; lia).
    replace (byte c0 =? byte p) with false by (symmetry; apply Z.eqb_neq; lia).
    reflexivity. }
  destruct neg; unfold special; cbn [app].
  - change (isSign minus) with true. cbn iota.
    change (list_ascii_of_string "infinity")
      with ("i"%char :: list_ascii_of_string "nfinity").
    rewrite Hprefix by (vm_compute; discriminate). reflexivity.
  - rewrite Hsign, Hlower.
    replace (byte c0 =? 105) with false by (symmetry; apply Z.eqb_neq; lia).
    replace (byte c0 =? 110) with false by (symmetry; apply Z.eqb_neq; lia).
    reflexivity.
Qed.

(** [ParseFloat] on such a string. *)
Lemma ParseFloat_plain (neg : bool) c0 body mantissa nd dp sawdot :
  isDigit c0 = true -> Forall plain (c0 :: body) ->
  readDigits false 0 0 0 false false false (c0 :: body) =
    (mantissa, nd, dp, sawdot, true, false, []) ->
  let f := roundDecimal neg mantissa
             (if mantissa =? 0 then 0 else (if sawdot then dp else nd) - nd) in
  ParseFloat (string_of_list_ascii ((if neg then [minus] else []) ++ c0 :: body)) =
  (SF2Prim f, if overflowed f then Some ErrRange else None).
Proof.
  intros Hc0 Hbody Hread f. unfold ParseFloat.
  rewrite list_ascii_of_string_of_list_ascii.
  rewrite (special_plain neg c0 body Hc0).
  rewrite (readFloat_plain neg c0 body mantissa nd dp sawdot Hc0 Hbody Hread).
  reflexivity.
Qed.

Lemma roundDecimal_zero neg mantissa exp :
  roundDecimal neg mantissa (if mantissa =? 0 then 0 else exp) = roundDecimal neg mantissa exp.
Proof. destruct (Z.eqb_spec mantissa 0) as [->|]; reflexivity. Qed.

Lemma digits_plain ds : digits ds -> Forall plain ds.
Proof. intros Hds. eapply Forall_impl; [exact Hds|]. intros c Hc. left. exact Hc. Qed.

End decimal_facts.

(** X21. [ParseFloat] reads a plain decimal as the number it spells:
    for a string made of an optional minus sign, digits, and possibly a
    point and further digits, with N the number that all the digits
    spell and k the number of digits after the point, the value is the
    float64 nearest to N / 10^k with the sign (an infinity, with
    [ErrRange], past the largest float64), and the error is never a
    syntax error; so [Zzl] and the weights of [LoadFundIds] never take
    such a string for 0 by mistake. *)
Theorem ParseFloat_decimal (neg : bool) (ip fp : list ascii) :
  digits ip -> digits fp -> ip <> [] ->
  let sign := if neg then [minus] else [] in
  let f := strconv.roundDecimal neg (decimal (ip ++ fp)) (- Z.of_nat (length fp)) in
  let g := strconv.roundDecimal neg (decimal ip) 0 in
  strconv.ParseFloat (string_of_list_ascii (sign ++ ip ++ point :: fp)) =
    (SF2Prim f, if strconv.overflowed f then Some strconv.ErrRange else None) /\
  strconv.ParseFloat (string_of_list_ascii (sign ++ ip)) =
    (SF2Prim g, if strconv.overflowed g then Some strconv.ErrRange else None).
Proof.
  intros Hip Hfp Hne sign f g. subst sign f g.
  destruct ip as [|c0 ip]; [congruence|].
  inversion Hip as [|? ? Hc0 Hip']; subst.
  split.
  - destruct (decimal_facts.readDigits_point (c0 :: ip) fp Hip Hfp Hne)
      as (nd & dp & Hread & Hdiff & Hz).
    change ((c0 :: ip) ++ point :: fp)
      with (c0 :: (ip ++ point :: fp)) in *.
    assert (Hplain : Forall Decimal.plain (c0 :: (ip ++ point :: fp))).
    { constructor; [left; exact Hc0|]. apply Forall_app. split.
      - apply decimal_facts.digits_plain, Hip'.
      - constructor; [right; reflexivity|apply decimal_facts.digits_plain, Hfp]. }
    rewrite (decimal_facts.ParseFloat_plain neg c0 _ _ nd dp true Hc0 Hplain Hread).
    cbv zeta. replace (dp - nd) with (- Z.of_nat (length fp)) by lia.
    rewrite decimal_facts.roundDecimal_zero. reflexivity.
  - destruct (decimal_facts.readDigits_integer (c0 :: ip) Hip Hne) as (nd & dp & Hread).
    rewrite (decimal_facts.ParseFloat_plain neg c0 _ _ nd dp false Hc0
               (decimal_facts.digits_plain _ Hip) Hread).
    cbv zeta. rewrite Z.sub_diag, decimal_facts.roundDecimal_zero. reflexivity.
Qed.

Lemma ParseFloat_decimal_witness :
  digits (list_ascii_of_string "2") /\ digits (list_ascii_of_string "34") /\
  strconv.ParseFloat "-2.34" =
    (SF2Prim (strconv.roundDecimal true 234 (-2)), None) /\
  Zzl (sample "a" "-2.34" 1%float) = SF2Prim (strconv.roundDecimal true 234 (-2)).
Proof.
  assert (H1 : digits (list_ascii_of_string "2")) by (repeat constructor).
  assert (H2 : digits (list_ascii_of_string "34")) by (repeat constructor).
  assert (E : strconv.ParseFloat "-2.34" =
              (SF2Prim (strconv.roundDecimal true 234 (-2)), None)).
  { refine (proj1 (ParseFloat_decimal true (list_ascii_of_string "2")
                     (list_ascii_of_string "34") H1 H2 _)). discriminate. }
  split; [exact H1|]. split; [exact H2|]. split; [exact E|].
  unfold Zzl. simpl GSZZL. rewrite E. reflexivity.
Defined.

(* ----------------------------------------------------------------- *)
(** ** What every state of a run of [GetFundResult] keeps *)

(** X22. In every state of every run of [GetFundResult] of [main.go]:
    the counter of [workerGroup] is the number of goroutines that have
    not called [wg.Done()] yet, started or still to start; the counter
    of [consumerGroup] is 1 until the collector has called [Done()];
    the channel is closed only after every worker has called [Done()],
    having exited or having panicked on a fetch without a response; the
    collector leaves its loop only after the close; and every request is
    accounted for once: as a request still to fetch, as an item handed
    over (appended, with the collector, or with a worker blocked in its
    send), or as the request of a worker that panicked.  A request whose
    body cannot be decoded is still to fetch. *)
Theorem GetFundResult_invariants `{sort.Pdqsort}
    (GetFund : string -> fetched) (fundIds : list FundId) (s : MainGo_Run.state) :
  MainGo_Run.steps GetFund (MainGo_Run.Running (MainGo_Run.init fundIds))
    (MainGo_Run.Running s) ->
  MainGo_Run.workerGroup s =
    (sum_list_with MainGo_Run.alive (MainGo_Run.workers s) +
     length (MainGo_Run.pc_rest (MainGo_Run.pc s)))%nat /\
  MainGo_Run.consumerGroup s =
    match MainGo_Run.cons s with MainGo_Run.CExited => O | _ => 1%nat end /\
  (MainGo_Run.closed s = true ->
   Forall (fun w => w = MainGo_Run.WExited \/ exists f, w = MainGo_Run.WCrashing f)
     (MainGo_Run.workers s) /\
   MainGo_Run.pc_rest (MainGo_Run.pc s) = []) /\
  (MainGo_Run.cons s = MainGo_Run.CLeaving \/ MainGo_Run.cons s = MainGo_Run.CExited ->
   MainGo_Run.closed s = true) /\
  (Some <$> MainGo_Run.delivered s) ++
    (fetchItem GetFund <$> (MainGo_Run.outstanding s ++ MainGo_Run.lost s))
    ≡ₚ fetchItem GetFund <$> fundIds /\
  (length (MainGo_Run.delivered s) + length (MainGo_Run.outstanding s) +
   length (MainGo_Run.lost s) = length fundIds)%nat /\
  Forall (fun f => f ∈ fundIds /\ GetFund (FundId.Id f) = NilResponse)
    (MainGo_Run.lost s) /\
  Forall (fun f => GetFund (FundId.Id f) = LogFatal -> f ∈ MainGo_Run.outstanding s)
    fundIds.
Proof.
  intros Hinv%run_facts.invariant_reachable.
  pose proof (MainGo_Run.inv_workerGroup _ _ _ Hinv) as Hwg.
  pose proof (MainGo_Run.inv_items _ _ _ Hinv) as Hitems.
  split_and!.
  - exact Hwg.
  - exact (MainGo_Run.inv_consumerGroup _ _ _ Hinv).
  - intros Hclosed. rewrite (MainGo_Run.inv_closed _ _ _ Hinv) in Hclosed.
    assert (Hj : MainGo_Run.joined (MainGo_Run.pc s) = true)
      by (destruct (MainGo_Run.pc s); try discriminate; reflexivity).
    rewrite (MainGo_Run.inv_joined _ _ _ Hinv Hj) in Hwg. split.
    + eapply Forall_impl; [apply run_facts.sum_alive_zero; lia|].
      intros w Hw. destruct w; try discriminate; eauto.
    + apply length_zero_iff_nil. lia.
  - intros Hc. apply (MainGo_Run.inv_leaving _ _ _ Hinv).
    destruct Hc as [-> | ->]; reflexivity.
  - exact Hitems.
  - apply Permutation_length in Hitems.
    rewrite length_app, !length_fmap, length_app in Hitems. lia.
  - apply Forall_forall. intros f Hf.
    apply (run_facts.lost_request GetFund fundIds s f Hinv Hf).
  - apply Forall_forall. intros f Hin Hf.
    exact (MainGo_Run.inv_fatal _ _ _ Hinv f Hin Hf).
Qed.

Lemma GetFundResult_invariants_witness :
  exists s,
    MainGo_Run.exec (H := sort_facts.insertion_Pdqsort) provider_unreachable_b
      [MainGo_Run.ASpawn; MainGo_Run.AFetch 0; MainGo_Run.ASpawn; MainGo_Run.AFetch 1;
       MainGo_Run.AWorkerDone 1]
      (MainGo_Run.Running (MainGo_Run.init requests_ascending))
    = Some (MainGo_Run.Running s) /\
    MainGo_Run.workerGroup s = 1%nat /\ MainGo_Run.consumerGroup s = 1%nat /\
    length (MainGo_Run.delivered s) = 1%nat /\
    length (MainGo_Run.outstanding s) = 0%nat /\
    MainGo_Run.lost s = [FundId.mk "b" 2%float].
Proof.
  eexists. split; [vm_compute; reflexivity|].
  edestruct (GetFundResult_invariants (H := sort_facts.insertion_Pdqsort)
               provider_unreachable_b requests_ascending) as (H1 & H2 & _).
  - apply (run_facts.exec_steps provider_unreachable_b
             [MainGo_Run.ASpawn; MainGo_Run.AFetch 0; MainGo_Run.ASpawn;
              MainGo_Run.AFetch 1; MainGo_Run.AWorkerDone 1]).
    vm_compute. reflexivity.
  - split_and!; [exact H1|exact H2|reflexivity..].
Defined.
